(** * elm-language-server: version algebra, dependency solver and handlers

    A shallow embedding of

    - [src/util/elmUtils.ts]: versions, constraints, [constraintIntersect],
      the backtracking dependency solver, [parseContraint], [execCmd] and
      [getElmVersion];
    - [src/providers/handlers/moveRefactoringHandler.ts];
    - [src/providers/hoverProvider.ts].

    JavaScript maps ([Map<string, _>], objects used as dictionaries) are
    [gmap string _]; arrays are lists; [undefined] is [None]. *)

From Stdlib Require Import ZArith Lia Ascii.
From stdpp Require Import base option list strings gmap fin_maps sorting.

(** ** The JavaScript built-ins the sources rely on *)

Module JS.

(** A JavaScript number as far as the sources observe it: [NaN], or a
    value.  The sources only build numbers from runs of decimal digits. *)
Inductive number : Type :=
| NaN
| Num (z : Z).

(** [a > b] on numbers: false as soon as one side is [NaN]. *)
Definition gt (a b : number) : bool :=
  match a, b with
  | Num x, Num y => (y <? x)%Z
  | _, _ => false
  end.

(** Value of a run of decimal digits, [None] when a character is not a
    digit. *)
Fixpoint digits_value (acc : Z) (s : string) : option Z :=
  match s with
  | EmptyString => Some acc
  | String c s' =>
      match Ascii.is_nat c with
      | Some d => digits_value (10 * acc + Z.of_nat d)%Z s'
      | None => None
      end
  end.

(** [Number(x)] for [x] a string or [undefined].  [Number(undefined)] is
    [NaN], [Number("")] is [0] and a run of decimal digits has its decimal
    value (exactly so up to [2^53 - 1]).  Any other text is given [NaN]:
    this is what JavaScript answers for text that is no numeric literal,
    and the remaining literal forms (surrounding white space, a sign, an
    exponent, a radix prefix, [Infinity]) are outside the model; the
    statements that depend on the value exclude them with [wf_version]. *)
Definition Number (x : option string) : number :=
  match x with
  | None => NaN
  | Some s =>
      match digits_value 0 s with
      | Some z => Num z
      | None => NaN
      end
  end.

(** The longest prefix of decimal digits of a string and its value. *)
Fixpoint leading_digits (s : string) : string :=
  match s with
  | EmptyString => EmptyString
  | String c s' =>
      match Ascii.is_nat c with
      | Some _ => String c (leading_digits s')
      | None => EmptyString
      end
  end.

(** [parseInt(x)]: the value of the leading digits, [NaN] when there are
    none ([parseInt(undefined)] reads the text "undefined").  Leading white
    space, a sign and the [0x] prefix are outside the model. *)
Definition parseInt (x : option string) : number :=
  match x with
  | None => NaN
  | Some s =>
      match leading_digits s with
      | EmptyString => NaN
      | ds => Number (Some ds)
      end
  end.

(** [s.split(sep)] for a one-character separator. *)
Fixpoint split (sep : ascii) (s : string) : list string :=
  match s with
  | EmptyString => [EmptyString]
  | String c s' =>
      if Ascii.eqb c sep then EmptyString :: split sep s'
      else match split sep s' with
           | [] => [String c EmptyString]
           | p :: ps => String c p :: ps
           end
  end.

(** [arr.sort(cmp)]: the sort is stable (ECMAScript 2019, every Node the
    package allows), so it is modelled by a stable insertion sort; an
    element moves in front of another one only when [cmp] is negative on
    them, or they compare equal and it came first. *)
Fixpoint sort_insert {A} (cmp : A → A → Z) (x : A) (l : list A) : list A :=
  match l with
  | [] => [x]
  | y :: l' =>
      if (cmp x y <=? 0)%Z then x :: y :: l'
      else y :: sort_insert cmp x l'
  end.

Definition sort {A} (cmp : A → A → Z) (l : list A) : list A :=
  foldr (sort_insert cmp) [] l.

(** [arr.sort()] without a comparison function orders strings by their
    UTF-16 code units.  A string of the model holds the UTF-8 encoding of
    a text, and [code_units] gives the code units of that text: one for a
    character up to U+FFFF, read from one, two or three bytes, and a
    surrogate pair for a character above, read from four bytes. *)
Definition continuation (c : ascii) : N := (N_of_ascii c mod 64)%N.

Fixpoint code_units (s : string) : list N :=
  match s with
  | EmptyString => []
  | String c0 s0 =>
      let b0 := N_of_ascii c0 in
      if (b0 <? 192)%N then b0 :: code_units s0
      else if (b0 <? 224)%N then
        match s0 with
        | String c1 s1 => ((b0 - 192) * 64 + continuation c1)%N :: code_units s1
        | _ => b0 :: code_units s0
        end
      else if (b0 <? 240)%N then
        match s0 with
        | String c1 (String c2 s2) =>
            ((b0 - 224) * 4096 + continuation c1 * 64 + continuation c2)%N
            :: code_units s2
        | _ => b0 :: code_units s0
        end
      else
        match s0 with
        | String c1 (String c2 (String c3 s3)) =>
            let point :=
              ((b0 - 240) * 262144 + continuation c1 * 4096
               + continuation c2 * 64 + continuation c3)%N in
            (55296 + (point - 65536) / 1024)%N
            :: (56320 + (point - 65536) mod 1024)%N
            :: code_units s3
        | _ => b0 :: code_units s0
        end
  end.

(** The lexicographic order of sequences of code units. *)
Fixpoint units_le (x y : list N) : bool :=
  match x, y with
  | [], _ => true
  | _ :: _, [] => false
  | a :: x', b :: y' => (a <? b)%N || ((a =? b)%N && units_le x' y')
  end.

(** [s] is not after [t] in the order of the default [sort()]. *)
Definition default_le (s t : string) : Prop :=
  units_le (code_units s) (code_units t) = true.

Global Instance default_le_dec : RelDecision default_le.
Proof. intros s t. unfold default_le. apply _. Defined.

(** The relational operators on two plain objects: both operands go
    through [ToPrimitive], which for an object without [valueOf] or
    [toString] of its own is [Object.prototype.toString], and the two
    resulting strings are compared. *)
Definition ToPrimitive_object : string := "[object Object]".

End JS.

(** ** Versions and constraints ([IVersion], [IConstraint]) *)

Module IVersion.
Record t : Type := mk {
  major : JS.number;
  minor : JS.number;
  patch : JS.number;
  string : String.string;
}.
End IVersion.
Abbreviation IVersion := IVersion.t.

(** ["<" | "<="] *)
Inductive Operator : Type :=
| OpLt
| OpLe.

Record IConstraint : Type := mkConstraint {
  lower : IVersion;
  upper : IVersion;
  lowerOperator : Operator;
  upperOperator : Operator;
}.

Global Instance number_eq_dec : EqDecision JS.number.
Proof. solve_decision. Defined.
Global Instance IVersion_eq_dec : EqDecision IVersion.
Proof. solve_decision. Defined.
Global Instance Operator_eq_dec : EqDecision Operator.
Proof. solve_decision. Defined.
Global Instance IConstraint_eq_dec : EqDecision IConstraint.
Proof. solve_decision. Defined.

(** [parseVersion] *)
Definition parseVersion (version : string) : IVersion :=
  let parts := JS.split "." version in
  {| IVersion.major := JS.parseInt (parts !! 0%nat);
     IVersion.minor := JS.parseInt (parts !! 1%nat);
     IVersion.patch := JS.parseInt (parts !! 2%nat);
     IVersion.string := version |}.

(** The loop of [versionCompare] over [i = 0, 1, 2]. *)
Fixpoint versionCompare_loop (pa pb : list string) (indices : list nat) : Z :=
  match indices with
  | [] => 0%Z
  | i :: rest =>
      let na := JS.Number (pa !! i) in
      let nb := JS.Number (pb !! i) in
      if JS.gt na nb then 1%Z
      else if JS.gt nb na then (-1)%Z
      else versionCompare_loop pa pb rest
  end.

Definition versionCompare (a b : IVersion) : Z :=
  let pa := JS.split "." (IVersion.string a) in
  let pb := JS.split "." (IVersion.string b) in
  versionCompare_loop pa pb [0; 1; 2]%nat.

Definition filterSemver (lower upper : IVersion) (operator : Operator) : bool :=
  let currentCompare := versionCompare lower upper in
  match operator with
  | OpLe => (currentCompare =? -1)%Z || (currentCompare =? 0)%Z
  | OpLt => (currentCompare =? -1)%Z
  end.

Definition versionSatifiesConstraint (version : IVersion) (constraint : IConstraint) : bool :=
  filterSemver (lower constraint) version (lowerOperator constraint) &&
  filterSemver version (upper constraint) (upperOperator constraint).

(** The local function [merge] of [constraintIntersect]. *)
Definition merge (op1 op2 : Operator) : Operator :=
  if bool_decide (op1 = OpLt) || bool_decide (op2 = OpLt) then OpLt else OpLe.

(** The first [switch] of [constraintIntersect]: [newLower] and
    [newLowerOp], left [undefined] when no case applies. *)
Definition newLower (a b : IConstraint) : option (IVersion * Operator) :=
  match versionCompare (lower a) (lower b) with
  | (-1)%Z => Some (lower b, lowerOperator b)
  | 0%Z => Some (lower a, merge (lowerOperator a) (lowerOperator b))
  | 1%Z => Some (lower a, lowerOperator a)
  | _ => None
  end.

(** The second [switch]: [newUpper] and [newUpperOp]. *)
Definition newUpper (a b : IConstraint) : option (IVersion * Operator) :=
  match versionCompare (upper a) (upper b) with
  | (-1)%Z => Some (upper a, upperOperator a)
  | 0%Z => Some (upper a, merge (upperOperator a) (upperOperator b))
  | 1%Z => Some (upper b, upperOperator b)
  | _ => None
  end.

Definition constraintIntersect (a b : IConstraint) : option IConstraint :=
  match newLower a b, newUpper a b with
  | Some (lo, loOp), Some (up, upOp) =>
      if bool_decide (versionCompare lo up ≠ (-1)%Z) then None
      else Some {| lower := lo; upper := up;
                   lowerOperator := loOp; upperOperator := upOp |}
  | _, _ => None
  end.

(** ** Well-formed versions and their numeric rank *)

Definition MAX_SAFE_INTEGER : Z := 9007199254740991.

(** A non-empty run of decimal digits whose value JavaScript represents
    exactly. *)
Definition safe_digits (x : option string) : bool :=
  match x with
  | Some (String c s) =>
      match JS.digits_value 0 (String c s) with
      | Some z => (z <=? MAX_SAFE_INTEGER)%Z
      | None => false
      end
  | _ => false
  end.

(** The string form starts with three dot-separated runs of digits, as
    the pattern of [parseContraint] requires of both bounds. *)
Definition wf_version (v : IVersion) : bool :=
  let parts := JS.split "." (IVersion.string v) in
  safe_digits (parts !! 0%nat) && safe_digits (parts !! 1%nat) &&
  safe_digits (parts !! 2%nat).

Definition wf_constraint (c : IConstraint) : bool :=
  wf_version (lower c) && wf_version (upper c).

(** The number [versionCompare] reads at index [i] of the string form. *)
Definition component (i : nat) (v : IVersion) : JS.number :=
  JS.Number (JS.split "." (IVersion.string v) !! i).

Definition number_value (n : JS.number) : Z :=
  match n with
  | JS.Num z => z
  | JS.NaN => 0%Z
  end.

(** Three components below [2^53] packed into one integer, most
    significant first: the lexicographic order becomes the order of [Z]. *)
Definition rank (v : IVersion) : Z :=
  (number_value (component 0 v) * (MAX_SAFE_INTEGER + 1) * (MAX_SAFE_INTEGER + 1)
   + number_value (component 1 v) * (MAX_SAFE_INTEGER + 1)
   + number_value (component 2 v))%Z.

Definition rank_compare (x y : Z) : Z :=
  if (x <? y)%Z then (-1)%Z else if (y <? x)%Z then 1%Z else 0%Z.

(** One step of a lexicographic comparison: [1] or [-1] when the two
    numbers differ, [next] otherwise. *)
Definition number_compare (x y : JS.number) (next : Z) : Z :=
  if JS.gt x y then 1%Z else if JS.gt y x then (-1)%Z else next.

(** Lexicographic comparison of the three numeric fields, the order the
    data model of the spec gives to versions. *)
Definition tripleCompare (a b : IVersion) : Z :=
  number_compare (IVersion.major a) (IVersion.major b)
    (number_compare (IVersion.minor a) (IVersion.minor b)
       (number_compare (IVersion.patch a) (IVersion.patch b) 0%Z)).

(** ** Intervals of ranks: what a constraint denotes *)

Record interval : Type := mkInterval {
  lo : Z;
  loOp : Operator;
  hi : Z;
  hiOp : Operator;
}.

Definition interval_of (c : IConstraint) : interval :=
  {| lo := rank (lower c); loOp := lowerOperator c;
     hi := rank (upper c); hiOp := upperOperator c |}.

Definition below (x y : Z) (op : Operator) : bool :=
  match op with
  | OpLe => (x <=? y)%Z
  | OpLt => (x <? y)%Z
  end.

Definition interval_mem (r : Z) (i : interval) : bool :=
  below (lo i) r (loOp i) && below r (hi i) (hiOp i).

(** Greatest lower bound side: the larger bound wins, the strict operator
    wins a tie. *)
Definition bound_join (x y : Z * Operator) : Z * Operator :=
  if (x.1 <? y.1)%Z then y
  else if (y.1 <? x.1)%Z then x
  else (x.1, merge x.2 y.2).

Definition bound_meet (x y : Z * Operator) : Z * Operator :=
  if (x.1 <? y.1)%Z then x
  else if (y.1 <? x.1)%Z then y
  else (x.1, merge x.2 y.2).

Definition interval_meet (i j : interval) : option interval :=
  let l := bound_join (lo i, loOp i) (lo j, loOp j) in
  let h := bound_meet (hi i, hiOp i) (hi j, hiOp j) in
  if (l.1 <? h.1)%Z
  then Some {| lo := l.1; loOp := l.2; hi := h.1; hiOp := h.2 |}
  else None.

(** Absent results propagate: the intersection of an absent constraint
    with anything is absent. *)
Definition constraintIntersect_opt (x y : option IConstraint) : option IConstraint :=
  a ← x; b ← y; constraintIntersect a b.

Definition interval_meet_opt (x y : option interval) : option interval :=
  i ← x; j ← y; interval_meet i j.

Definition satisfies_opt (v : IVersion) (c : option IConstraint) : bool :=
  match c with
  | Some c => versionSatifiesConstraint v c
  | None => false
  end.

(** Equality of constraints up to the order: bounds that compare equal,
    identical operators. *)
Definition version_equiv (a b : IVersion) : Prop := versionCompare a b = 0%Z.

Definition constraint_equiv (c d : IConstraint) : Prop :=
  version_equiv (lower c) (lower d) ∧ version_equiv (upper c) (upper d) ∧
  lowerOperator c = lowerOperator d ∧ upperOperator c = upperOperator d.

Definition result_equiv (x y : option IConstraint) : Prop :=
  match x, y with
  | Some c, Some d => constraint_equiv c d
  | None, None => True
  | _, _ => False
  end.

Definition bounds (c : IConstraint) : list IVersion := [lower c; upper c].

(** Versions that compare equal are the same value. *)
Definition separated (vs : list IVersion) : Prop :=
  ∀ x y, x ∈ vs → y ∈ vs → versionCompare x y = 0%Z → x = y.

(** [m] is the greater (the lesser) of [x] and [y] for [versionCompare]. *)
Definition is_greatest (x y m : IVersion) : Prop :=
  (m = x ∨ m = y) ∧ versionCompare x m ≠ 1%Z ∧ versionCompare y m ≠ 1%Z.

Definition is_least (x y m : IVersion) : Prop :=
  (m = x ∨ m = y) ∧ versionCompare m x ≠ 1%Z ∧ versionCompare m y ≠ 1%Z.

Definition version_ge (a b : IVersion) : Prop :=
  versionCompare a b = 0%Z ∨ versionCompare a b = 1%Z.

(** ** The package cache and the dependency solver *)

(** Modelled from the spec: [IElmPackageCache] and the type of its entries
    are declared in [elmWorkspace.ts], which is not among the sources.  The
    contract is [get(name) → list of {version, dependencies}], and the
    solver treats the cache as a pure function. *)
Record IPackage : Type := mkPackage {
  version : IVersion;
  dependencies : gmap string IConstraint;
}.

Abbreviation IElmPackageCache := (string → list IPackage).

(** [SolverResult]: the record, or [undefined]. *)
Module SolverResult.
Record t : Type := mk {
  pending : gmap string IConstraint;
  solutions : gmap string IVersion;
}.
End SolverResult.
Abbreviation SolverResult := (option SolverResult.t).

(** [pickDep]: the least key of [deps] in the order of the default
    [sort()], the constraint it is bound to, and [deps] without that key.
    The test [firstDep ? ... : undefined] is a truthiness test: it also
    answers [undefined] when the least key is the empty string. *)
Definition pickDep (deps : gmap string IConstraint)
    : option (string * IConstraint) * gmap string IConstraint :=
  let firstDep := head (merge_sort JS.default_le (elements (dom deps))) in
  let restDeps :=
    match firstDep with
    | Some k => delete k deps
    | None => deps
    end in
  (match firstDep with
   | Some k => if bool_decide (k = EmptyString) then None
               else (λ c, (k, c)) <$> deps !! k
   | None => None
   end,
   restDeps).

(** The loop of [combineDeps].  The branch that throws "impossible" is
    never taken, every key being one of [a] or of [b]; it is given the
    absent result.  The outcome does not depend on the order in which the
    keys are visited. *)
Fixpoint combineDeps_loop (a b : gmap string IConstraint) (keys : list string)
    (deps : gmap string IConstraint) : option (gmap string IConstraint) :=
  match keys with
  | [] => Some deps
  | key :: keys' =>
      match a !! key, b !! key with
      | Some v1, Some v2 =>
          match constraintIntersect v1 v2 with
          | None => None
          | Some intersect => combineDeps_loop a b keys' (<[key := intersect]> deps)
          end
      | Some v1, None => combineDeps_loop a b keys' (<[key := v1]> deps)
      | None, Some v2 => combineDeps_loop a b keys' (<[key := v2]> deps)
      | None, None => None
      end
  end.

Definition combineDeps (a b : gmap string IConstraint)
    : option (gmap string IConstraint) :=
  combineDeps_loop a b (elements (dom a ∪ dom b)) ∅.

(** [x < y] for two plain objects, whatever they hold. *)
Definition object_lt {A} (x y : A) : bool :=
  String.ltb JS.ToPrimitive_object JS.ToPrimitive_object.

(** The comparison function handed to [sort] for the candidates:
    [a.version < b.version ? -1 : a.version > b.version ? 1 : 0], on the
    version objects themselves. *)
Definition candidate_compare (a b : IPackage) : Z :=
  if object_lt (version a) (version b) then (-1)%Z
  else if object_lt (version b) (version a) then 1%Z
  else 0%Z.

(** The candidates of a dependency, in the order the loop visits them. *)
Definition candidates_for (packageCache : IElmPackageCache)
    (name : string) (constraint : IConstraint)
    (solutions : gmap string IVersion) : list IPackage :=
  let candidates :=
    rev (JS.sort candidate_compare
           (List.filter (λ p, versionSatifiesConstraint (version p) constraint)
              (packageCache name))) in
  match solutions !! name with
  | Some solvedVersion =>
      List.filter
        (λ a, bool_decide (IVersion.string (version a) = IVersion.string solvedVersion))
        candidates
  | None => candidates
  end.

(** The [for] loop over the candidates; [recurse] stands for the two
    recursive calls of the worker.  The outer [None] is a recursive call
    that did not return. *)
Fixpoint candidates_loop
    (recurse : gmap string IConstraint → gmap string IVersion → option SolverResult)
    (name : string) (restDeps : gmap string IConstraint)
    (solutions : gmap string IVersion) (candidates : list IPackage)
    : option SolverResult :=
  match candidates with
  | [] => Some None
  | candidate :: candidates' =>
      match combineDeps restDeps (dependencies candidate) with
      | None => candidates_loop recurse name restDeps solutions candidates'
      | Some tentativeDeps =>
          let tentativeSolutions := <[name := version candidate]> solutions in
          match recurse tentativeDeps tentativeSolutions with
          | None => None
          | Some None => candidates_loop recurse name restDeps solutions candidates'
          | Some (Some result) =>
              recurse (SolverResult.pending result) (SolverResult.solutions result)
          end
      end
  end.

(** [solveDependenciesWorker].  The recursion is not structural and need
    not end, so it is cut by [fuel]: the outer [None] is "out of fuel", the
    inner option is the [SolverResult]. *)
Fixpoint solveDependenciesWorker (fuel : nat) (packageCache : IElmPackageCache)
    (deps : gmap string IConstraint) (solutions : gmap string IVersion)
    : option SolverResult :=
  match fuel with
  | O => None
  | S fuel' =>
      match pickDep deps with
      | (None, _) =>
          Some (Some {| SolverResult.pending := deps;
                        SolverResult.solutions := solutions |})
      | (Some (name, constraint), restDeps) =>
          candidates_loop (solveDependenciesWorker fuel' packageCache)
            name restDeps solutions
            (candidates_for packageCache name constraint solutions)
      end
  end.

Definition solveDependencies (fuel : nat) (packageCache : IElmPackageCache)
    (deps : gmap string IConstraint) : option (option (gmap string IVersion)) :=
  match solveDependenciesWorker fuel packageCache deps ∅ with
  | None => None
  | Some (Some result) => Some (Some (SolverResult.solutions result))
  | Some None => Some None
  end.

(** ** What the providers take from their libraries *)

(** [String.prototype.slice] and [lastIndexOf] for a one-character
    search, with JavaScript's treatment of negative indices. *)
Definition js_slice (s : string) (start : Z) (stop : option Z) : string :=
  let len := Z.of_nat (String.length s) in
  let from := if (start <? 0)%Z then Z.max (len + start) 0 else Z.min start len in
  let to :=
    match stop with
    | None => len
    | Some e => if (e <? 0)%Z then Z.max (len + e) 0 else Z.min e len
    end in
  String.substring (Z.to_nat from) (Z.to_nat (Z.max (to - from) 0)) s.

Fixpoint lastIndexOf_from (c : ascii) (s : string) (i : Z) (found : Z) : Z :=
  match s with
  | EmptyString => found
  | String d s' => lastIndexOf_from c s' (i + 1) (if Ascii.eqb d c then i else found)
  end.

Definition js_lastIndexOf (s : string) (c : ascii) : Z :=
  lastIndexOf_from c s 0 (-1).

(** The elements of [new Set(l)] in iteration order: first occurrences. *)
Fixpoint Set_from (seen l : list string) : list string :=
  match l with
  | [] => []
  | x :: l' =>
      if bool_decide (x ∈ seen) then Set_from seen l'
      else x :: Set_from (x :: seen) l'
  end.

(** A string in a condition: the empty string is falsy. *)
Definition truthy (s : string) : bool := negb (bool_decide (s = EmptyString)).

(** Positions, ranges and text edits of the language-server protocol. *)
Record Position : Type := mkPosition { line : Z; character : Z }.
Record Range : Type := mkRange { range_start : Position; range_end : Position }.
Record TextEdit : Type := mkTextEdit { range : Range; newText : string }.

Definition TextEdit_del (r : Range) : TextEdit :=
  {| range := r; newText := EmptyString |}.
Definition TextEdit_insert (p : Position) (t : string) : TextEdit :=
  {| range := {| range_start := p; range_end := p |}; newText := t |}.

(** A [Point] of the syntax tree. *)
Record Point : Type := mkPoint { row : Z; column : Z }.

(** The interface of [web-tree-sitter] the handlers use: nodes with their
    links, kind, text and extent, and trees with their root. *)
Class TreeSitter : Type := {
  SyntaxNode : Type;
  Tree : Type;
  rootNode : Tree → SyntaxNode;
  parent : SyntaxNode → option SyntaxNode;
  previousNamedSibling : SyntaxNode → option SyntaxNode;
  nextNamedSibling : SyntaxNode → option SyntaxNode;
  node_type : SyntaxNode → string;
  text : SyntaxNode → string;
  startPosition : SyntaxNode → Point;
  endPosition : SyntaxNode → Point;
}.

Module MoveRefactoringHandler.

Record MoveDestination : Type := mkDestination {
  name : string;
  path : string;
  uri : string;
}.

Record MoveParams : Type := mkParams {
  sourceUri : string;
  params_range : Range;
  destination : option MoveDestination;
}.

(** The argument of [connection.workspace.applyEdit]. *)
Record WorkspaceEdit : Type := mkWorkspaceEdit {
  changes : gmap string (list TextEdit);
}.

(** An entry of [forest.treeIndex]. *)
Record ITree `{TS : TreeSitter} : Type := mkTree {
  tree_uri : string;
  writeable : bool;
  tree : Tree;
}.

Record Forest `{TS : TreeSitter} : Type := mkForest {
  treeIndex : list ITree;
  getTree : string → option Tree;
}.

Record Reference `{TS : TreeSitter} : Type := mkReference {
  ref_node : SyntaxNode;
  ref_uri : string;
}.

(** The helper classes the handler calls ([TreeUtils], [References],
    [RefactorEditUtils], [URI]); their sources are not part of the model,
    each is a function of its arguments. *)
Class Collaborators `{TS : TreeSitter} : Type := {
  Imports : Type;
  getNamedDescendantForPosition : SyntaxNode → Position → SyntaxNode;
  getModuleNameNode : Tree → option SyntaxNode;
  References_find : SyntaxNode → string → string → Forest → Imports → list Reference;
  unexposedValueInModule : Tree → string → option TextEdit;
  removeValueFromImport : Tree → string → string → option TextEdit;
  exposeValueInModule : Tree → string → option TextEdit;
  addImport : Tree → string → string → option TextEdit;
  fsPath : string → string;
}.

Record ElmWorkspace `{C : Collaborators} : Type := mkWorkspace {
  getForest : Forest;
  getImports : Imports;
  getRootPath : string;
}.

Section handler.
Context `{C : Collaborators}.

(** [handleGetMoveDestinationsRequest] *)
Definition destination_of (elmWorkspace : ElmWorkspace) (t : ITree) : MoveDestination :=
  let uri0 := fsPath (tree_uri t) in
  let rootPath := getRootPath elmWorkspace in
  let uri1 := js_slice uri0 (Z.of_nat (String.length rootPath) + 1) None in
  let index := js_lastIndexOf uri1 "\"%char in
  {| name := js_slice uri1 (index + 1) None;
     path := js_slice uri1 0 (Some index);
     uri := tree_uri t |}.

Definition is_destination (params : MoveParams) (t : ITree) : bool :=
  writeable t && negb (bool_decide (tree_uri t = sourceUri params)).

Definition handleGetMoveDestinationsRequest (params : MoveParams)
    (elmWorkspace : ElmWorkspace) : list MoveDestination :=
  let forest := getForest elmWorkspace in
  map (destination_of elmWorkspace)
    (List.filter (is_destination params) (treeIndex forest)).

(** [changes[uri].push(edit)]; the key is bound at every use. *)
Definition push (uri : string) (edit : TextEdit)
    (changes : gmap string (list TextEdit)) : gmap string (list TextEdit) :=
  alter (λ edits, edits ++ [edit]) uri changes.

Definition push_opt (uri : string) (edit : option TextEdit)
    (changes : gmap string (list TextEdit)) : gmap string (list TextEdit) :=
  match edit with
  | Some e => push uri e changes
  | None => changes
  end.

(** The nodes the handler derives from the node under the cursor. *)
Definition isTypeNode (nodeAtPosition : SyntaxNode) : bool :=
  bool_decide (node_type <$> parent nodeAtPosition = Some "type_annotation").

Definition isDeclarationNode (nodeAtPosition : SyntaxNode) : bool :=
  bool_decide (node_type <$> (parent nodeAtPosition ≫= parent) = Some "value_declaration").

Definition typeNode (nodeAtPosition : SyntaxNode) : option SyntaxNode :=
  if isDeclarationNode nodeAtPosition then
    let sibling := (parent nodeAtPosition ≫= parent) ≫= previousNamedSibling in
    if bool_decide (node_type <$> sibling = Some "type_annotation")
    then sibling else None
  else if isTypeNode nodeAtPosition then parent nodeAtPosition
  else None.

Definition declarationNode (nodeAtPosition : SyntaxNode) : option SyntaxNode :=
  if isDeclarationNode nodeAtPosition then parent nodeAtPosition ≫= parent
  else if isTypeNode nodeAtPosition then parent nodeAtPosition ≫= nextNamedSibling
  else None.

Definition functionName (nodeAtPosition : SyntaxNode) : option string :=
  if isTypeNode nodeAtPosition then Some (text nodeAtPosition)
  else text <$> parent nodeAtPosition.

Definition position_of (p : Point) : Position :=
  {| line := row p; character := column p |}.

(** The text inserted into the destination. *)
Definition functionText (typeNode : option SyntaxNode) (declarationNode : SyntaxNode) : string :=
  String "010"%char (String "010"%char
    (String.app
       match typeNode with
       | Some t => String.app (text t) (String "010"%char EmptyString)
       | None => EmptyString
       end
       (text declarationNode))).

(** "Remove from source" *)
Definition removal (typeNode : option SyntaxNode) (declarationNode : SyntaxNode) : TextEdit :=
  let startPosition :=
    match typeNode with
    | Some t => startPosition t
    | None => startPosition declarationNode
    end in
  TextEdit_del {| range_start := position_of startPosition;
                  range_end := position_of (endPosition declarationNode) |}.

(** "Add to destination" *)
Definition insertion (destinationTree : Tree) (typeNode : option SyntaxNode)
    (declarationNode : SyntaxNode) : TextEdit :=
  TextEdit_insert
    {| line := row (endPosition (rootNode destinationTree)) + 1; character := 0 |}
    (functionText typeNode declarationNode).

Definition sourceHasReference (params : MoveParams) (references : list Reference)
    (typeNode : option SyntaxNode) (declarationNode : SyntaxNode) : bool :=
  existsb
    (λ ref,
       bool_decide (ref_uri ref = sourceUri params) &&
       negb (bool_decide (text <$> parent (ref_node ref) = text <$> typeNode)) &&
       negb (bool_decide (text <$> (parent (ref_node ref) ≫= parent)
                          = Some (text declarationNode))) &&
       negb (bool_decide (node_type (ref_node ref) = "exposed_value")))
    references.

(** The body of the first [forEach]: "Remove old imports to the old
    source file from all reference uris". *)
Definition remove_import_step (forest : Forest) (dest : MoveDestination)
    (moduleName functionName : string)
    (changes : gmap string (list TextEdit)) (refUri : string)
    : gmap string (list TextEdit) :=
  let changes1 :=
    match changes !! refUri with
    | Some _ => changes
    | None => <[refUri := []]> changes
    end in
  match getTree forest refUri with
  | Some refTree =>
      if truthy (name dest)
      then push_opt refUri (removeValueFromImport refTree moduleName functionName) changes1
      else changes1
  | None => changes1
  end.

(** The body of the second [forEach]: "Add the new imports for each file
    with a reference". *)
Definition add_import_step (forest : Forest) (params : MoveParams)
    (hasReference : bool) (destinationModuleName functionName : string)
    (changes : gmap string (list TextEdit)) (refUri : string)
    : gmap string (list TextEdit) :=
  if bool_decide (refUri = sourceUri params) && negb hasReference then changes
  else
    match getTree forest refUri with
    | Some refTree =>
        push_opt refUri (addImport refTree destinationModuleName functionName) changes
    | None => changes
    end.

(** The references of the moved declaration, and the set of their URIs
    before and after the destination is removed from it. *)
Definition references_of (params : MoveParams) (elmWorkspace : ElmWorkspace)
    (declarationNode : SyntaxNode) : list Reference :=
  References_find declarationNode "Function" (sourceUri params)
    (getForest elmWorkspace) (getImports elmWorkspace).

Definition referenceUris (references : list Reference) : list string :=
  Set_from [] (map ref_uri references).

Definition remainingUris (dest : MoveDestination) (references : list Reference)
    : list string :=
  List.filter (λ u, negb (bool_decide (u = uri dest))) (referenceUris references).

(** The edit set built between [const changes = {}] and the call of
    [applyEdit]. *)
Definition staged_changes (params : MoveParams) (elmWorkspace : ElmWorkspace)
    (dest : MoveDestination) (sourceTree destinationTree : Tree)
    (typeNode : option SyntaxNode) (declarationNode : SyntaxNode)
    (functionName moduleName destinationModuleName : string)
    : gmap string (list TextEdit) :=
  let forest := getForest elmWorkspace in
  let changes0 : gmap string (list TextEdit) :=
    <[uri dest := []]> (<[sourceUri params := []]> ∅) in
  let changes1 := push (sourceUri params) (removal typeNode declarationNode) changes0 in
  let changes2 := push (uri dest) (insertion destinationTree typeNode declarationNode) changes1 in
  let references := references_of params elmWorkspace declarationNode in
  let hasReference := sourceHasReference params references typeNode declarationNode in
  let changes3 :=
    push_opt (sourceUri params) (unexposedValueInModule sourceTree functionName) changes2 in
  let changes4 :=
    foldl (remove_import_step forest dest moduleName functionName) changes3
      (referenceUris references) in
  let changes5 :=
    if (0 <? length (remainingUris dest references))%nat
    then push_opt (uri dest) (exposeValueInModule destinationTree functionName) changes4
    else changes4 in
  foldl (add_import_step forest params hasReference destinationModuleName functionName)
    changes5 (remainingUris dest references).

(** [handleMoveRequest]: the calls of [connection.workspace.applyEdit] the
    handler makes, in order. *)
Definition handleMoveRequest (params : MoveParams) (elmWorkspace : ElmWorkspace)
    : list WorkspaceEdit :=
  match destination params with
  | None => []
  | Some dest =>
      let forest := getForest elmWorkspace in
      match getTree forest (sourceUri params), getTree forest (uri dest) with
      | Some sourceTree, Some destinationTree =>
          let nodeAtPosition :=
            getNamedDescendantForPosition (rootNode sourceTree)
              (range_start (params_range params)) in
          let moduleName := text <$> getModuleNameNode sourceTree in
          let destinationModuleName := text <$> getModuleNameNode destinationTree in
          match declarationNode nodeAtPosition, functionName nodeAtPosition,
                moduleName, destinationModuleName with
          | Some declaration, Some fname, Some mname, Some dname =>
              if truthy fname && truthy mname && truthy dname then
                [ {| changes :=
                       staged_changes params elmWorkspace dest sourceTree destinationTree
                         (typeNode nodeAtPosition) declaration fname mname dname |} ]
              else []
          | _, _, _, _ => []
          end
      | _, _ => []
      end
  end.

End handler.
End MoveRefactoringHandler.

(** ** [getEmptyTypes] and the hover provider *)

(** [CompletionItemKind], as far as the sources name it. *)
Inductive CompletionItemKind : Type :=
| Enum.

Record EmptyType : Type := mkEmptyType {
  markdown : string;
  empty_type_name : string;
  symbolKind : CompletionItemKind;
}.

Definition newline : string := String "010"%char EmptyString.
Definition quoted (s : string) : string :=
  String "034"%char (String.app s (String "034"%char EmptyString)).

Definition getEmptyTypes : list EmptyType :=
  [ {| markdown :=
         String.app "An `List` is a list of items. Every item must be of the same type. Valid syntax for lists includes:"
        (String.app newline (String.app newline
        (String.app "    []" (String.app newline
        (String.app "    [42, 43]" (String.app newline
        (String.app "    [" (String.app (quoted "one") (String.app ", "
           (String.app (quoted "two") (String.app ", " (String.app (quoted "three")
           (String.app "]" (String.app newline
        (String.app "    [3.14, 0.1234]" (String.app newline
        (String.app "    ['a', 'Z', '0']" (String.app newline
        (String.app newline "    ")))))))))))))))))));
       empty_type_name := "List";
       symbolKind := Enum |} ].

(** The outcome of a call that may raise. *)
Inductive completion (A : Type) : Type :=
| normal (a : A)
| throw (error : string).
Global Arguments normal {A} a.
Global Arguments throw {A} error.

Global Instance completion_ret : MRet completion := λ A a, normal a.
Global Instance completion_bind : MBind completion :=
  λ A B f c,
    match c with
    | normal a => f a
    | throw e => throw e
    end.

Module HoverProvider.

Inductive MarkupKind : Type :=
| PlainText
| Markdown.

Record MarkupContent : Type := mkMarkup {
  kind : MarkupKind;
  value : string;
}.

Record Hover : Type := mkHover {
  contents : MarkupContent;
}.

Record TextDocumentPositionParams : Type := mkParams {
  textDocument_uri : string;
  position : Position;
}.

Record ITreeContainer `{TS : TreeSitter} : Type := mkContainer {
  tree : Tree;
}.

Record DefinitionNode `{TS : TreeSitter} : Type := mkDefinition {
  node : SyntaxNode;
  uri : string;
  nodeType : string;
}.

Record Forest `{TS : TreeSitter} : Type := mkForest {
  getByUri : string → option ITreeContainer;
}.

(** The analyses the provider calls ([TreeUtils], [HintHelper]); their
    sources are not part of the model, and each call may raise. *)
Class Collaborators `{TS : TreeSitter} : Type := {
  Imports : Type;
  getNamedDescendantForPosition : SyntaxNode → Position → completion SyntaxNode;
  findDefinitionNodeByReferencingNode :
    SyntaxNode → string → Tree → Imports → completion (option DefinitionNode);
  createHintFromFunctionParameter : SyntaxNode → completion (option string);
  createHint : SyntaxNode → completion (option string);
}.

Record IElmWorkspace `{C : Collaborators} : Type := mkWorkspace {
  getForest : Forest;
  getImports : Imports;
}.

Section provider.
Context `{C : Collaborators}.

Definition createMarkdownHoverFromDefinition (definitionNode : option DefinitionNode)
    : completion (option Hover) :=
  match definitionNode with
  | Some d =>
      value ←
        (if bool_decide (nodeType d = "FunctionParameter")
            || bool_decide (nodeType d = "AnonymousFunctionParameter")
            || bool_decide (nodeType d = "CasePattern")
         then createHintFromFunctionParameter (node d)
         else createHint (node d));
      match value with
      | Some v =>
          if truthy v
          then mret (Some {| contents := {| kind := Markdown; value := v |} |})
          else mret None
      | None => mret None
      end
  | None => mret None
  end.

(** The empty type whose name is the text of the node, if any. *)
Definition specialMatch (nodeAtPosition : SyntaxNode) : option EmptyType :=
  List.find (λ a, bool_decide (empty_type_name a = text nodeAtPosition)) getEmptyTypes.

(** [handleHoverRequest]: the lines sent to [connection.console.info] and
    the outcome, [normal None] being the result [undefined]. *)
Definition handleHoverRequest (params : TextDocumentPositionParams)
    (elmWorkspace : IElmWorkspace) : list string * completion (option Hover) :=
  ( ["A hover was requested"],
    let forest := getForest elmWorkspace in
    match getByUri forest (textDocument_uri params) with
    | Some container =>
        nodeAtPosition ←
          getNamedDescendantForPosition (rootNode (tree container)) (position params);
        definitionNode ←
          findDefinitionNodeByReferencingNode nodeAtPosition (textDocument_uri params)
            (tree container) (getImports elmWorkspace);
        match definitionNode with
        | Some d => createMarkdownHoverFromDefinition (Some d)
        | None =>
            match specialMatch nodeAtPosition with
            | Some found =>
                mret (Some {| contents :=
                                {| kind := Markdown; value := markdown found |} |})
            | None => mret None
            end
        end
    | None => mret None
    end ).

End provider.
End HoverProvider.

(** ** Predicates of the statements *)

(** [(l, op)] is the lower bound the intersection keeps: the greater of
    the two lower bounds with its operator, the strict operator when the
    bounds compare equal. *)
Definition merged_lower (a b : IConstraint) (l : IVersion) (op : Operator) : Prop :=
  is_greatest (lower a) (lower b) l ∧
  (versionCompare (lower a) (lower b) = (-1)%Z → op = lowerOperator b) ∧
  (versionCompare (lower a) (lower b) = 1%Z → op = lowerOperator a) ∧
  (versionCompare (lower a) (lower b) = 0%Z →
   (op = OpLt ↔ lowerOperator a = OpLt ∨ lowerOperator b = OpLt)).

(** [(u, op)] is the upper bound the intersection keeps. *)
Definition merged_upper (a b : IConstraint) (u : IVersion) (op : Operator) : Prop :=
  is_least (upper a) (upper b) u ∧
  (versionCompare (upper a) (upper b) = (-1)%Z → op = upperOperator a) ∧
  (versionCompare (upper a) (upper b) = 1%Z → op = upperOperator b) ∧
  (versionCompare (upper a) (upper b) = 0%Z →
   (op = OpLt ↔ upperOperator a = OpLt ∨ upperOperator b = OpLt)).

(** The same two predicates for an order [cmp] on versions given by its
    comparison function, which answers -1, 0 or 1. *)
Definition merged_lower_by (cmp : IVersion → IVersion → Z)
    (a b : IConstraint) (l : IVersion) (op : Operator) : Prop :=
  ((l = lower a ∨ l = lower b) ∧ cmp (lower a) l ≠ 1%Z ∧ cmp (lower b) l ≠ 1%Z) ∧
  (cmp (lower a) (lower b) = (-1)%Z → op = lowerOperator b) ∧
  (cmp (lower a) (lower b) = 1%Z → op = lowerOperator a) ∧
  (cmp (lower a) (lower b) = 0%Z →
   (op = OpLt ↔ lowerOperator a = OpLt ∨ lowerOperator b = OpLt)).

Definition merged_upper_by (cmp : IVersion → IVersion → Z)
    (a b : IConstraint) (u : IVersion) (op : Operator) : Prop :=
  ((u = upper a ∨ u = upper b) ∧ cmp u (upper a) ≠ 1%Z ∧ cmp u (upper b) ≠ 1%Z) ∧
  (cmp (upper a) (upper b) = (-1)%Z → op = upperOperator a) ∧
  (cmp (upper a) (upper b) = 1%Z → op = upperOperator b) ∧
  (cmp (upper a) (upper b) = 0%Z →
   (op = OpLt ↔ upperOperator a = OpLt ∨ upperOperator b = OpLt)).

(** The numeric fields hold the numbers [versionCompare] reads from the
    string form. *)
Definition fields_agree (v : IVersion) : Prop :=
  IVersion.major v = component 0 v ∧ IVersion.minor v = component 1 v ∧
  IVersion.patch v = component 2 v.

Definition wf_result (x : option IConstraint) : Prop :=
  ∀ c, x = Some c → wf_constraint c = true.

Definition bounds_in (L : list IVersion) (x : option IConstraint) : Prop :=
  ∀ c, x = Some c → lower c ∈ L ∧ upper c ∈ L.

(** What [combineDeps] binds a key to. *)
Definition combine_at (a b : gmap string IConstraint) (k : string) : option IConstraint :=
  match a !! k, b !! k with
  | Some v1, Some v2 => constraintIntersect v1 v2
  | Some v1, None => Some v1
  | None, Some v2 => Some v2
  | None, None => None
  end.

(** No name is the empty string, and the bounds are well formed. *)
Definition wf_deps (d : gmap string IConstraint) : Prop :=
  ∀ q c, d !! q = Some c → q ≠ EmptyString ∧ wf_constraint c = true.

Definition wf_cache (packageCache : IElmPackageCache) : Prop :=
  ∀ n p, In p (packageCache n) →
         wf_version (version p) = true ∧ wf_deps (dependencies p).

Definition wf_solutions (s : gmap string IVersion) : Prop :=
  ∀ q v, s !! q = Some v → wf_version v = true.

(** Every constraint of [d] is satisfied by the version [s] gives to its
    package. *)
Definition satisfied (s : gmap string IVersion) (d : gmap string IConstraint) : Prop :=
  ∀ q c, d !! q = Some c →
         ∃ w, s !! q = Some w ∧ versionSatifiesConstraint w c = true.

(** [s'] binds every package of [s], to a version with the same string. *)
Definition extends (s s' : gmap string IVersion) : Prop :=
  ∀ q v, s !! q = Some v →
         ∃ v', s' !! q = Some v' ∧ IVersion.string v' = IVersion.string v.

(** [v] is the version of a release of [p] in the cache all of whose
    declared dependencies [s] satisfies. *)
Definition release_selected (packageCache : IElmPackageCache)
    (s : gmap string IVersion) (p : string) (v : IVersion) : Prop :=
  ∃ e, In e (packageCache p) ∧ version e = v ∧ satisfied s (dependencies e).

(** No package has two releases with the same version string. *)
Definition versions_unique (packageCache : IElmPackageCache) : Prop :=
  ∀ n e1 e2, In e1 (packageCache n) → In e2 (packageCache n) →
             IVersion.string (version e1) = IVersion.string (version e2) → e1 = e2.

(** What a result [r] of the worker on [deps] and [sols] guarantees. *)
Definition worker_post (packageCache : IElmPackageCache)
    (deps : gmap string IConstraint) (sols : gmap string IVersion)
    (r : SolverResult.t) : Prop :=
  SolverResult.pending r = ∅ ∧
  wf_solutions (SolverResult.solutions r) ∧
  extends sols (SolverResult.solutions r) ∧
  satisfied (SolverResult.solutions r) deps ∧
  ∀ p v, SolverResult.solutions r !! p = Some v →
         release_selected packageCache (SolverResult.solutions r) p v ∨ sols !! p = Some v.

Definition worker_sound (packageCache : IElmPackageCache)
    (recurse : gmap string IConstraint → gmap string IVersion → option SolverResult) : Prop :=
  (∀ deps sols r, wf_deps deps → wf_solutions sols →
                  recurse deps sols = Some (Some r) → worker_post packageCache deps sols r) ∧
  (∀ sols r, recurse ∅ sols = Some (Some r) →
             r = {| SolverResult.pending := ∅; SolverResult.solutions := sols |}).

(** The dependency relation of the cache is well founded: some depth
    decreases from every release to each of its dependencies. *)
Definition acyclic (packageCache : IElmPackageCache) : Prop :=
  ∃ depth : string → nat,
    ∀ p e q, In e (packageCache p) → is_Some (dependencies e !! q) → depth q < depth p.

(** An upper bound on the work a package of depth at most [n] can cause:
    itself and, for each release, all its dependencies. *)
Fixpoint cost (packageCache : IElmPackageCache) (n : nat) (p : string) : nat :=
  match n with
  | O => 1
  | S n' =>
      1 + sum_list_with
            (λ e, sum_list_with (cost packageCache n') (elements (dom (dependencies e))))
            (packageCache p)
  end.

Definition weight (packageCache : IElmPackageCache) (depth : string → nat)
    (p : string) : nat :=
  cost packageCache (depth p) p.

(** The measure that decreases along the recursion of the worker. *)
Definition measure (packageCache : IElmPackageCache) (depth : string → nat)
    (deps : gmap string IConstraint) : nat :=
  sum_list_with (weight packageCache depth) (elements (dom deps)).

(** The pending map of a result is one [pickDep] finds nothing in. *)
Definition returns_settled (r : SolverResult) : Prop :=
  ∀ out, r = Some out → (pickDep (SolverResult.pending out)).1 = None.

(** [e] is one of the edits staged for [u]. *)
Definition has_edit (changes : gmap string (list TextEdit)) (u : string) (e : TextEdit) : Prop :=
  ∃ l, changes !! u = Some l ∧ e ∈ l.

(** A step of the staging keeps the keys bound and the edits staged. *)
Definition keeps (f : gmap string (list TextEdit) → gmap string (list TextEdit)) : Prop :=
  ∀ changes,
    (∀ u, is_Some (changes !! u) → is_Some (f changes !! u)) ∧
    (∀ u e, has_edit changes u e → has_edit (f changes) u e).

(** ** Example data *)

Definition v100 : IVersion := parseVersion "1.0.0".
Definition v120 : IVersion := parseVersion "1.2.0".
Definition v140 : IVersion := parseVersion "1.4.0".
Definition v150 : IVersion := parseVersion "1.5.0".
Definition v190 : IVersion := parseVersion "1.9.0".
Definition v200 : IVersion := parseVersion "2.0.0".
Definition v210 : IVersion := parseVersion "2.1.0".
Definition v300 : IVersion := parseVersion "3.0.0".
Definition v101beta : IVersion := parseVersion "1.0.1-beta".
Definition vx30 : IVersion := parseVersion "x.3.0".

(** [1.0.0 <= v < 2.0.0], [1.2.0 <= v <= 3.0.0], [1.2.0 <= v < 2.0.0]
    and [2.0.0 <= v < 3.0.0]. *)
Definition c_100_200 : IConstraint :=
  {| lower := v100; upper := v200; lowerOperator := OpLe; upperOperator := OpLt |}.
Definition c_120_300 : IConstraint :=
  {| lower := v120; upper := v300; lowerOperator := OpLe; upperOperator := OpLe |}.
Definition c_120_200 : IConstraint :=
  {| lower := v120; upper := v200; lowerOperator := OpLe; upperOperator := OpLt |}.
Definition c_200_300 : IConstraint :=
  {| lower := v200; upper := v300; lowerOperator := OpLe; upperOperator := OpLt |}.

(** [1.0.0 <= v <= 2.0.0] and [2.0.0 <= v <= 3.0.0]. *)
Definition c_100_200_closed : IConstraint :=
  {| lower := v100; upper := v200; lowerOperator := OpLe; upperOperator := OpLe |}.
Definition c_200_300_closed : IConstraint :=
  {| lower := v200; upper := v300; lowerOperator := OpLe; upperOperator := OpLe |}.

(** [1.0.1-beta <= v < 2.0.0], with the bound [parseVersion] makes of
    "1.0.1-beta". *)
Definition c_101beta_200 : IConstraint :=
  {| lower := v101beta; upper := v200; lowerOperator := OpLe; upperOperator := OpLt |}.

(** [01.0.0 <= v < 2.0.0], as [parseContraint] reads it. *)
Definition c_leading_zero : IConstraint :=
  {| lower := parseVersion "01.0.0"; upper := v200;
     lowerOperator := OpLe; upperOperator := OpLt |}.

(** Constraints with a bound that is not numeric, and around them. *)
Definition c_x00_900 : IConstraint :=
  {| lower := parseVersion "x.0.0"; upper := parseVersion "9.0.0";
     lowerOperator := OpLe; upperOperator := OpLt |}.
Definition c_100_900 : IConstraint :=
  {| lower := v100; upper := parseVersion "9.0.0";
     lowerOperator := OpLe; upperOperator := OpLt |}.
Definition c_200_900 : IConstraint :=
  {| lower := v200; upper := parseVersion "9.0.0";
     lowerOperator := OpLe; upperOperator := OpLt |}.
Definition c_200_301 : IConstraint :=
  {| lower := v200; upper := parseVersion "3.0.1";
     lowerOperator := OpLe; upperOperator := OpLt |}.
Definition v150_999 : IConstraint :=
  {| lower := v150; upper := parseVersion "9.9.9";
     lowerOperator := OpLe; upperOperator := OpLt |}.
Definition v200_999 : IConstraint :=
  {| lower := v200; upper := parseVersion "9.9.9";
     lowerOperator := OpLe; upperOperator := OpLt |}.

(** Root dependencies one of whose names is the empty string, and a cache
    that holds [elm/core@1.0.0]. *)
Definition root_empty_name : gmap string IConstraint :=
  {[ EmptyString := c_100_200; "elm/core" := c_100_200 ]}.

Definition cache_core (n : string) : list IPackage :=
  if bool_decide (n = "elm/core")
  then [ {| version := v100; dependencies := ∅ |} ]
  else [].

Definition P150 : IPackage :=
  {| version := v150; dependencies := {[ "Q" := c_100_200 ]} |}.
Definition P140 : IPackage :=
  {| version := v140; dependencies := {[ "Q" := c_200_300 ]} |}.

(** The cache of the solver scenario of the spec: [P@1.5.0] needs
    [Q : 1.0.0 <= v < 2.0.0], [P@1.4.0] needs [Q : 2.0.0 <= v < 3.0.0],
    and [Q@1.9.0], [Q@2.1.0] exist. *)
Definition scenario_cache (n : string) : list IPackage :=
  if bool_decide (n = "P") then [P150; P140]
  else if bool_decide (n = "Q")
       then [ {| version := v190; dependencies := ∅ |};
              {| version := v210; dependencies := ∅ |} ]
       else [].

Definition scenario_root : gmap string IConstraint := {[ "P" := c_100_200 ]}.

Definition scenario_depth (p : string) : nat :=
  if bool_decide (p = "P") then 1 else 0.

(** A cache whose only release depends on its own package. *)
Definition self_cache (n : string) : list IPackage :=
  if bool_decide (n = "P")
  then [ {| version := v100; dependencies := {[ "P" := c_100_200 ]} |} ]
  else [].

(** [A] and [B] both depend on [P], whose only release has a version
    string with no numeric major component. *)
Definition non_numeric_cache (n : string) : list IPackage :=
  if bool_decide (n = "A")
  then [ {| version := v100; dependencies := {[ "P" := v150_999 ]} |} ]
  else if bool_decide (n = "B")
  then [ {| version := v100; dependencies := {[ "P" := v200_999 ]} |} ]
  else if bool_decide (n = "P")
  then [ {| version := vx30; dependencies := ∅ |} ]
  else [].

Definition non_numeric_root : gmap string IConstraint :=
  {[ "A" := c_100_200; "B" := c_100_200 ]}.

(** A syntax tree whose nodes are their own text and have no relatives. *)
Definition flat_tree_sitter : TreeSitter :=
  {| SyntaxNode := string;
     Tree := string;
     rootNode := λ t, t;
     parent := λ _, None;
     previousNamedSibling := λ _, None;
     nextNamedSibling := λ _, None;
     node_type := λ _, "lower_case_identifier";
     text := λ n, n;
     startPosition := λ _, {| row := 0; column := 0 |};
     endPosition := λ _, {| row := 0; column := 0 |} |}.

(** Analyses that find the root node and resolve nothing. *)
Definition blind_analyses : @HoverProvider.Collaborators flat_tree_sitter :=
  {| HoverProvider.Imports := unit;
     HoverProvider.getNamedDescendantForPosition := λ n _, normal n;
     HoverProvider.findDefinitionNodeByReferencingNode := λ _ _ _ _, normal None;
     HoverProvider.createHintFromFunctionParameter := λ _, normal None;
     HoverProvider.createHint := λ _, normal None |}.

(** A workspace with the single file [Main.elm], whose root node reads
    "view". *)
Definition main_only_workspace : @HoverProvider.IElmWorkspace flat_tree_sitter blind_analyses :=
  {| HoverProvider.getForest :=
       {| HoverProvider.getByUri := λ u,
            if bool_decide (u = "file:///src/Main.elm")
            then Some {| HoverProvider.tree := "view" : @Tree flat_tree_sitter |}
            else None |};
     HoverProvider.getImports := (tt : @HoverProvider.Imports flat_tree_sitter blind_analyses) |}.

Definition hover_at (u : string) : HoverProvider.TextDocumentPositionParams :=
  {| HoverProvider.textDocument_uri := u;
     HoverProvider.position := {| line := 0; character := 0 |} |}.

(** ** [parseContraint] *)

Definition cons_char (c : ascii) (lines : list string) : list string :=
  match lines with
  | [] => [String c EmptyString]
  | l :: lines' => String c l :: lines'
  end.

(** The lines of a text as the anchors [^] and [$] of a regular expression
    with the [m] flag delimit them: a line ends at LF, at CR, and at U+2028
    and U+2029, which a string of bytes holds in their UTF-8 encoding. *)
Fixpoint regexp_lines (s : string) : list string :=
  match s with
  | EmptyString => [EmptyString]
  | String c s' =>
      if Ascii.eqb c "010" || Ascii.eqb c "013" then EmptyString :: regexp_lines s'
      else
        match s' with
        | String c1 (String c2 s'') =>
            if Ascii.eqb c "226" && Ascii.eqb c1 "128"
               && (Ascii.eqb c2 "168" || Ascii.eqb c2 "169")
            then EmptyString :: regexp_lines s''
            else cons_char c (regexp_lines s')
        | _ => cons_char c (regexp_lines s')
        end
  end.

(** [\d+] *)
Definition digit_run (s : string) : bool :=
  match s with
  | EmptyString => false
  | _ => bool_decide (is_Some (JS.digits_value 0 s))
  end.

(** [\d+\.\d+\.\d+] *)
Definition version_text (s : string) : bool :=
  match JS.split "." s with
  | [x; y; z] => digit_run x && digit_run y && digit_run z
  | _ => false
  end.

(** [(<|<=)] *)
Definition operator_text (s : string) : option Operator :=
  if bool_decide (s = "<") then Some OpLt
  else if bool_decide (s = "<=") then Some OpLe
  else None.

(** A match of [(\d+\.\d+\.\d+) (<|<=) v (<|<=) (\d+\.\d+\.\d+)] on a
    whole line, with its four groups.  No part of the pattern matches a
    space but the four spaces it spells out, so the line matches exactly
    when cutting it at its spaces gives the five parts. *)
Definition match_line (l : string) : option (string * Operator * Operator * string) :=
  match JS.split " " l with
  | [m1; m2; v; m3; m4] =>
      if version_text m1 && bool_decide (v = "v") && version_text m4 then
        match operator_text m2, operator_text m3 with
        | Some op1, Some op2 => Some (m1, op1, op2, m4)
        | _, _ => None
        end
      else None
  | _ => None
  end.

(** [regex.exec] on a fresh regular expression anchored at both ends: the
    match on the first line that has one. *)
Fixpoint regexp_exec (lines : list string) : option (string * Operator * Operator * string) :=
  match lines with
  | [] => None
  | l :: lines' =>
      match match_line l with
      | Some m => Some m
      | None => regexp_exec lines'
      end
  end.

Definition parseContraint (contraint : string) : completion IConstraint :=
  match regexp_exec (regexp_lines contraint) with
  | Some (lowerRange, op1, op2, upperRange) =>
      normal {| lower := parseVersion lowerRange;
                upper := parseVersion upperRange;
                lowerOperator := op1;
                upperOperator := op2 |}
  | None => throw "Could not parse version constraint"
  end.

(** ** [execCmd] and [getElmVersion] *)

Record IExecCmdOptions : Type := mkExecCmdOptions {
  cmdArguments : option (list string);
  showMessageOnError : option bool;
  notFoundText : option string;
}.

(** The options [execCmd] hands to [execa]. *)
Record ExecaOptions : Type := mkExecaOptions {
  cwd : string;
  input : option string;
  preferLocal : bool;
  stripFinalNewline : bool;
}.

(** What the two functions take from [execa] and from the standard
    library: the run of a command, which gives a result or fails with an
    error, the fields read from the two, and [String.prototype.trim].
    [errno] is the field of that name when it holds a text, and [None]
    when it holds anything else, a number for instance: the test
    [error.errno === "ENOENT"] of [execCmd] is false then. *)
Class Execa : Type := {
  ExecaReturnValue : Type;
  stdout : ExecaReturnValue → string;
  ExecaError : Type;
  errno : ExecaError → option string;
  execa : string → option (list string) → ExecaOptions → ExecaReturnValue + ExecaError;
  trim : string → string;
}.

(** What a promise is rejected with: a text, or the error of [execa]. *)
Inductive Reason `{Execa} : Type :=
| reason_text (s : string)
| reason_error (e : ExecaError).

Inductive settled `{Execa} (A : Type) : Type :=
| resolved (a : A)
| rejected (r : Reason).
Global Arguments resolved {_ A} a.
Global Arguments rejected {_ A} r.

(** The settings and the URI, as far as [getElmVersion] reads them. *)
Record IClientSettings : Type := mkSettings { elmPath : string }.
Record URI : Type := mkURI { URI_fsPath : string }.

Section exec.
Context `{E : Execa}.

(** [execCmd]: the texts sent to [connection.window.showErrorMessage] and
    the way the promise settles. *)
Definition execCmd (cmdFromUser cmdStatic : string) (options : IExecCmdOptions)
    (cwd : string) (input : option string) : list string * settled ExecaReturnValue :=
  let cmd := if bool_decide (cmdFromUser = EmptyString) then cmdStatic else cmdFromUser in
  let preferLocal := bool_decide (cmdFromUser = EmptyString) in
  match execa cmd (cmdArguments options)
          {| cwd := cwd; input := input; preferLocal := preferLocal;
             stripFinalNewline := false |} with
  | inl result => ([], resolved result)
  | inr error =>
      if bool_decide (errno error = Some "ENOENT") then
        ( [ match notFoundText options with
            | Some t =>
                if truthy t then t
                else String.app "Cannot find executable with name '" (String.app cmd "'")
            | None => String.app "Cannot find executable with name '" (String.app cmd "'")
            end ],
          rejected (reason_text "Executable not found") )
      else ([], rejected (reason_error error))
  end.

(** [getElmVersion]: the texts sent to [showErrorMessage], the lines sent
    to [connection.console.info], and the way the promise settles. *)
Definition getElmVersion (settings : IClientSettings) (elmWorkspaceFolder : URI)
    : list string * list string * settled string :=
  let options :=
    {| cmdArguments := Some ["--version"];
       showMessageOnError := None;
       notFoundText :=
         Some "Elm binary not found, did you install and setup the path to your binary?" |} in
  match execCmd (elmPath settings) "elm" options (URI_fsPath elmWorkspaceFolder) None with
  | (shown, resolved result) =>
      let version := trim (stdout result) in
      (shown,
       [String.app "Elm version " (String.app version " detected.")],
       resolved version)
  | (shown, rejected r) => (shown, [], rejected r)
  end.

End exec.

(** ** Predicates of the further statements *)

(** Every character of the string passes the test. *)
Fixpoint string_forall (P : ascii → bool) (s : string) : bool :=
  match s with
  | EmptyString => true
  | String c s' => P c && string_forall P s'
  end.


Definition Operator_text (op : Operator) : string :=
  match op with
  | OpLt => "<"
  | OpLe => "<="
  end.

(** The text of a constraint in the form [parseContraint] reads. *)
Definition constraint_text (c : IConstraint) : string :=
  String.app (IVersion.string (lower c))
    (String.app " " (String.app (Operator_text (lowerOperator c))
       (String.app " v " (String.app (Operator_text (upperOperator c))
          (String.app " " (IVersion.string (upper c))))))).

(** The three components [versionCompare] reads are numbers. *)
Definition numeric (v : IVersion) : Prop :=
  ∃ x y z, (0 ≤ x)%Z ∧ (0 ≤ y)%Z ∧ (0 ≤ z)%Z ∧
    component 0 v = JS.Num x ∧ component 1 v = JS.Num y ∧ component 2 v = JS.Num z.

(** No package name is the empty string. *)
Definition named (d : gmap string IConstraint) : Prop :=
  ∀ q, is_Some (d !! q) → q ≠ EmptyString.

Definition named_cache (packageCache : IElmPackageCache) : Prop :=
  ∀ n p, In p (packageCache n) → named (dependencies p).

(** [v] is the version of a release of [p] in the cache. *)
Definition released (packageCache : IElmPackageCache) (p : string) (v : IVersion) : Prop :=
  ∃ e, In e (packageCache p) ∧ version e = v.

(** No release of the cache declares a dependency. *)
Definition flat (packageCache : IElmPackageCache) : Prop :=
  ∀ n p, In p (packageCache n) → dependencies p = ∅.

(** The version of the last release the cache lists for [q] among those
    that satisfy [c]. *)
Definition last_release (packageCache : IElmPackageCache) (q : string) (c : IConstraint)
    : option IVersion :=
  version <$> head (rev (List.filter (λ p, versionSatifiesConstraint (version p) c)
                           (packageCache q))).

(** Every dependency with its last satisfying release. *)
Definition flat_solution (packageCache : IElmPackageCache) (deps : gmap string IConstraint)
    : gmap string IVersion :=
  map_imap (last_release packageCache) deps.

(** What an edit of a move may be: for the source the removal and the
    unexposing edit; for the destination the insertion and, when a file
    other than the destination holds a reference, the exposing edit; for a
    file that holds a reference the edit that removes the old import and,
    unless the file is the destination or the source without a remaining
    reference, the edit that adds the new one. *)
Section move_edit.
Import MoveRefactoringHandler.
Context `{C : Collaborators}.

(** The conditions under which [handleMoveRequest] reaches the call of
    [applyEdit]: the request names a destination, the forest has the tree
    of the source and that of the destination, the declaration and its
    name are found from the node under the cursor, both modules have a
    name, and none of the three names is empty. *)
Definition move_applies (params : MoveParams) (elmWorkspace : ElmWorkspace)
    (dest : MoveDestination) (sourceTree destinationTree : Tree)
    (declaration : SyntaxNode) (fname mname dname : string) : Prop :=
  let nodeAtPosition :=
    getNamedDescendantForPosition (rootNode sourceTree)
      (range_start (params_range params)) in
  destination params = Some dest ∧
  getTree (getForest elmWorkspace) (sourceUri params) = Some sourceTree ∧
  getTree (getForest elmWorkspace) (uri dest) = Some destinationTree ∧
  declarationNode nodeAtPosition = Some declaration ∧
  functionName nodeAtPosition = Some fname ∧
  text <$> getModuleNameNode sourceTree = Some mname ∧
  text <$> getModuleNameNode destinationTree = Some dname ∧
  fname ≠ EmptyString ∧ mname ≠ EmptyString ∧ dname ≠ EmptyString.

Definition edit_of_move (params : MoveParams) (elmWorkspace : ElmWorkspace)
    (dest : MoveDestination) (sourceTree destinationTree : Tree)
    (tnode : option SyntaxNode) (declaration : SyntaxNode)
    (fname mname dname : string) (u : string) (e : TextEdit) : Prop :=
  let references := references_of params elmWorkspace declaration in
  (u = sourceUri params ∧
   (e = removal tnode declaration ∨ unexposedValueInModule sourceTree fname = Some e)) ∨
  (u = uri dest ∧
   (e = insertion destinationTree tnode declaration ∨
    (exposeValueInModule destinationTree fname = Some e ∧
     remainingUris dest references ≠ []))) ∨
  (∃ ref refTree,
     ref ∈ references ∧ ref_uri ref = u ∧
     getTree (getForest elmWorkspace) u = Some refTree ∧
     ((removeValueFromImport refTree mname fname = Some e ∧ name dest ≠ EmptyString) ∨
      (addImport refTree dname fname = Some e ∧ u ≠ uri dest ∧
       (u = sourceUri params →
        sourceHasReference params references tnode declaration = true)))).

End move_edit.

(** ** Further example data *)

(** A syntax tree with the annotation [f : Int] before the declaration
    [f = 1]; the nodes are their own text, and [f] is the name in the
    annotation. *)
Definition annotated_tree_sitter : TreeSitter :=
  {| SyntaxNode := string;
     Tree := string;
     rootNode := λ t, t;
     parent := λ n, if bool_decide (n = "f") then Some "f : Int" else None;
     previousNamedSibling := λ n,
       if bool_decide (n = "f = 1") then Some "f : Int" else None;
     nextNamedSibling := λ n,
       if bool_decide (n = "f : Int") then Some "f = 1" else None;
     node_type := λ n,
       if bool_decide (n = "f : Int") then "type_annotation"
       else if bool_decide (n = "f = 1") then "value_declaration"
       else "lower_case_identifier";
     text := λ n, n;
     startPosition := λ _, {| row := 0; column := 0 |};
     endPosition := λ _, {| row := 0; column := 0 |} |}.

(** Refactoring helpers that find a module name in every tree and no
    reference, and make no edit; a URI is its own path. *)
Definition plain_refactorings : @MoveRefactoringHandler.Collaborators flat_tree_sitter :=
  {| MoveRefactoringHandler.Imports := unit;
     MoveRefactoringHandler.getNamedDescendantForPosition := λ n _, n;
     MoveRefactoringHandler.getModuleNameNode := λ t, Some (@rootNode flat_tree_sitter t);
     MoveRefactoringHandler.References_find := λ _ _ _ _ _, [];
     MoveRefactoringHandler.unexposedValueInModule := λ _ _, None;
     MoveRefactoringHandler.removeValueFromImport := λ _ _ _, None;
     MoveRefactoringHandler.exposeValueInModule := λ _ _, None;
     MoveRefactoringHandler.addImport := λ _ _ _, None;
     MoveRefactoringHandler.fsPath := λ u, u |}.

(** The file [src\Main.elm] of a project under [C:\proj], and the file
    [src/Main.elm] of a project under [/proj]. *)
Definition windows_tree : @MoveRefactoringHandler.ITree flat_tree_sitter :=
  {| MoveRefactoringHandler.tree_uri := "C:\proj\src\Main.elm";
     MoveRefactoringHandler.writeable := true;
     MoveRefactoringHandler.tree := "Main" : @Tree flat_tree_sitter |}.

Definition windows_workspace
    : @MoveRefactoringHandler.ElmWorkspace flat_tree_sitter plain_refactorings :=
  {| MoveRefactoringHandler.getForest :=
       {| MoveRefactoringHandler.treeIndex := [windows_tree];
          MoveRefactoringHandler.getTree := λ _, None |};
     MoveRefactoringHandler.getImports :=
       (tt : @MoveRefactoringHandler.Imports flat_tree_sitter plain_refactorings);
     MoveRefactoringHandler.getRootPath := "C:\proj" |}.



(** A move of the declaration [f] from [A.elm] to [B.elm], and a request
    that names no destination. *)
Definition to_B : MoveRefactoringHandler.MoveDestination :=
  {| MoveRefactoringHandler.name := "B.elm";
     MoveRefactoringHandler.path := "src";
     MoveRefactoringHandler.uri := "file:///src/B.elm" |}.

Definition origin : Range :=
  {| range_start := {| line := 0; character := 0 |};
     range_end := {| line := 0; character := 0 |} |}.

Definition move_f : MoveRefactoringHandler.MoveParams :=
  {| MoveRefactoringHandler.sourceUri := "file:///src/A.elm";
     MoveRefactoringHandler.params_range := origin;
     MoveRefactoringHandler.destination := Some to_B |}.

Definition move_nowhere : MoveRefactoringHandler.MoveParams :=
  {| MoveRefactoringHandler.sourceUri := "file:///src/A.elm";
     MoveRefactoringHandler.params_range := origin;
     MoveRefactoringHandler.destination := None |}.

Definition staged_f : gmap string (list TextEdit) :=
  @MoveRefactoringHandler.staged_changes flat_tree_sitter plain_refactorings
    move_f windows_workspace to_B "A" "B" None "f = 1" "f" "A" "B".

(** Refactoring helpers on [annotated_tree_sitter]: the node under the
    cursor is the name [f], a tree is its own module name, the
    declaration has one reference, in [C.elm], and every file gets an
    edit of its imports. *)
Definition import_edit (t : string) : TextEdit :=
  TextEdit_insert {| line := 1; character := 0 |} t.

Definition annotated_refactorings : @MoveRefactoringHandler.Collaborators annotated_tree_sitter :=
  {| MoveRefactoringHandler.Imports := unit;
     MoveRefactoringHandler.getNamedDescendantForPosition := λ _ _,
       ("f" : @SyntaxNode annotated_tree_sitter);
     MoveRefactoringHandler.getModuleNameNode := λ t, Some (@rootNode annotated_tree_sitter t);
     MoveRefactoringHandler.References_find := λ _ _ _ _ _,
       [ {| MoveRefactoringHandler.ref_node := "f" : @SyntaxNode annotated_tree_sitter;
            MoveRefactoringHandler.ref_uri := "file:///src/C.elm" |} ];
     MoveRefactoringHandler.unexposedValueInModule := λ _ _, None;
     MoveRefactoringHandler.removeValueFromImport := λ _ m f,
       Some (TextEdit_del origin);
     MoveRefactoringHandler.exposeValueInModule := λ _ f, Some (import_edit f);
     MoveRefactoringHandler.addImport := λ _ m f, Some (import_edit m);
     MoveRefactoringHandler.fsPath := λ u, u |}.

(** A workspace with the modules [A], [B] and [C]. *)
Definition three_modules
    : @MoveRefactoringHandler.ElmWorkspace annotated_tree_sitter annotated_refactorings :=
  {| MoveRefactoringHandler.getForest :=
       {| MoveRefactoringHandler.treeIndex := [];
          MoveRefactoringHandler.getTree := λ u,
            if bool_decide (u = "file:///src/A.elm")
            then Some ("A" : @Tree annotated_tree_sitter)
            else if bool_decide (u = "file:///src/B.elm")
            then Some ("B" : @Tree annotated_tree_sitter)
            else if bool_decide (u = "file:///src/C.elm")
            then Some ("C" : @Tree annotated_tree_sitter)
            else None |};
     MoveRefactoringHandler.getImports :=
       (tt : @MoveRefactoringHandler.Imports annotated_tree_sitter annotated_refactorings);
     MoveRefactoringHandler.getRootPath := "/proj" |}.

(** A workspace with the single file [Main.elm], whose root node reads
    "List", and the hover on it. *)
Definition list_workspace : @HoverProvider.IElmWorkspace flat_tree_sitter blind_analyses :=
  {| HoverProvider.getForest :=
       {| HoverProvider.getByUri := λ u,
            if bool_decide (u = "file:///src/Main.elm")
            then Some {| HoverProvider.tree := "List" : @Tree flat_tree_sitter |}
            else None |};
     HoverProvider.getImports := (tt : @HoverProvider.Imports flat_tree_sitter blind_analyses) |}.

Definition list_markdown : string :=
  match getEmptyTypes with
  | a :: _ => markdown a
  | [] => EmptyString
  end.

Definition list_hover : HoverProvider.Hover :=
  {| HoverProvider.contents :=
       {| HoverProvider.kind := HoverProvider.Markdown;
          HoverProvider.value := list_markdown |} |}.

(** The result of the worker on the solver scenario. *)
Definition scenario_result : SolverResult.t :=
  {| SolverResult.pending := ∅;
     SolverResult.solutions := {[ "P" := v140; "Q" := v210 ]} |}.

(** A cache of two packages without dependencies. *)
Definition flat_cache (n : string) : list IPackage :=
  if bool_decide (n = "A")
  then [ {| version := v100; dependencies := ∅ |};
         {| version := v120; dependencies := ∅ |} ]
  else if bool_decide (n = "B")
  then [ {| version := v210; dependencies := ∅ |} ]
  else [].

Definition flat_root : gmap string IConstraint :=
  {[ "A" := c_100_200; "B" := c_200_300 ]}.

(** * Properties *)

(** ** The order of versions *)

Lemma digits_value_ge s : ∀ acc z,
  (0 ≤ acc)%Z → JS.digits_value acc s = Some z → (acc ≤ z)%Z.
Proof.
  induction s as [|c s IH]; intros acc z Hacc Hv; simpl in Hv.
  - injection Hv as <-. lia.
  - destruct (Ascii.is_nat c) as [d|]; [|discriminate].
    apply IH in Hv; lia.
Qed.

Lemma safe_digits_Number x :
  safe_digits x = true →
  ∃ z, JS.Number x = JS.Num z ∧ (0 ≤ z ≤ MAX_SAFE_INTEGER)%Z.
Proof.
  destruct x as [[|c s]|]; try done.
  unfold safe_digits, JS.Number.
  destruct (JS.digits_value 0 (String c s)) as [z|] eqn:Hz; [|done].
  intros Hle. exists z. split; [done|].
  apply digits_value_ge in Hz; [|lia]. apply Z.leb_le in Hle. lia.
Qed.

Lemma wf_version_components v :
  wf_version v = true →
  ∃ x y z,
    component 0 v = JS.Num x ∧ component 1 v = JS.Num y ∧ component 2 v = JS.Num z ∧
    (0 ≤ x ≤ MAX_SAFE_INTEGER)%Z ∧ (0 ≤ y ≤ MAX_SAFE_INTEGER)%Z ∧
    (0 ≤ z ≤ MAX_SAFE_INTEGER)%Z.
Proof.
  unfold wf_version, component. intros H.
  apply andb_prop in H as [H H2]. apply andb_prop in H as [H0 H1].
  apply safe_digits_Number in H0 as (x & -> & ?).
  apply safe_digits_Number in H1 as (y & -> & ?).
  apply safe_digits_Number in H2 as (z & -> & ?).
  by exists x, y, z.
Qed.

Lemma versionCompare_components a b :
  versionCompare a b =
  number_compare (component 0 a) (component 0 b)
    (number_compare (component 1 a) (component 1 b)
       (number_compare (component 2 a) (component 2 b) 0%Z)).
Proof. reflexivity. Qed.

Lemma gt_asym x y : JS.gt x y = true → JS.gt y x = false.
Proof.
  destruct x, y; simpl; try done. intros H%Z.ltb_lt. apply Z.ltb_ge. lia.
Qed.

Lemma number_compare_opp x y m n :
  n = (- m)%Z → number_compare y x n = (- number_compare x y m)%Z.
Proof.
  intros ->. unfold number_compare.
  destruct (JS.gt x y) eqn:Hxy.
  - by rewrite (gt_asym _ _ Hxy).
  - by destruct (JS.gt y x).
Qed.

Lemma versionCompare_opp a b : versionCompare b a = (- versionCompare a b)%Z.
Proof.
  rewrite !versionCompare_components.
  repeat apply number_compare_opp. done.
Qed.

Lemma versionCompare_range a b :
  versionCompare a b = (-1)%Z ∨ versionCompare a b = 0%Z ∨ versionCompare a b = 1%Z.
Proof.
  rewrite versionCompare_components. unfold number_compare.
  repeat (match goal with |- context [if ?c then _ else _] => destruct c end); auto.
Qed.

Lemma versionCompare_rank a b :
  wf_version a = true → wf_version b = true →
  versionCompare a b = rank_compare (rank a) (rank b).
Proof.
  intros (x1 & y1 & z1 & Hx1 & Hy1 & Hz1 & ? & ? & ?)%wf_version_components
         (x2 & y2 & z2 & Hx2 & Hy2 & Hz2 & ? & ? & ?)%wf_version_components.
  rewrite versionCompare_components. unfold rank, rank_compare, number_compare.
  rewrite Hx1, Hy1, Hz1, Hx2, Hy2, Hz2. simpl.
  unfold MAX_SAFE_INTEGER in *.
  repeat (match goal with |- context [(?p <? ?q)%Z] => destruct (Z.ltb_spec p q) end);
    try reflexivity; exfalso; nia.
Qed.

Lemma rank_compare_eq x y : rank_compare x y = 0%Z ↔ x = y.
Proof.
  unfold rank_compare.
  destruct (Z.ltb_spec x y), (Z.ltb_spec y x); split; intros; try lia; discriminate.
Qed.

Lemma filterSemver_rank a b op :
  wf_version a = true → wf_version b = true →
  filterSemver a b op = below (rank a) (rank b) op.
Proof.
  intros Ha Hb. unfold filterSemver. rewrite (versionCompare_rank _ _ Ha Hb).
  unfold rank_compare, below.
  destruct op, (Z.ltb_spec (rank a) (rank b)), (Z.ltb_spec (rank b) (rank a)); simpl;
    try lia; symmetry;
    first [ apply Z.leb_le; lia | apply Z.leb_gt; lia
          | apply Z.ltb_lt; lia | apply Z.ltb_ge; lia ].
Qed.

Lemma satisfies_interval v c :
  wf_version v = true → wf_constraint c = true →
  versionSatifiesConstraint v c = interval_mem (rank v) (interval_of c).
Proof.
  intros Hv [Hl Hu]%andb_prop. unfold versionSatifiesConstraint, interval_mem. simpl.
  by rewrite !filterSemver_rank.
Qed.

(** ** Intervals of ranks *)

Lemma merge_OpLe op1 op2 : merge op1 op2 = OpLe ↔ op1 = OpLe ∧ op2 = OpLe.
Proof. destruct op1, op2; compute; intuition congruence. Qed.

Lemma merge_comm op1 op2 : merge op1 op2 = merge op2 op1.
Proof. by destruct op1, op2. Qed.

Lemma merge_assoc op1 op2 op3 : merge (merge op1 op2) op3 = merge op1 (merge op2 op3).
Proof. by destruct op1, op2, op3. Qed.

Ltac split_ltb :=
  repeat match goal with
         | |- context [(?p <? ?q)%Z] => destruct (Z.ltb_spec p q)
         | |- context [(?p <=? ?q)%Z] => destruct (Z.leb_spec p q)
         | H : context [(?p <? ?q)%Z] |- _ => destruct (Z.ltb_spec p q)
         | H : context [(?p <=? ?q)%Z] |- _ => destruct (Z.leb_spec p q)
         end.

Lemma bound_join_fst x y : (bound_join x y).1 = Z.max x.1 y.1.
Proof. unfold bound_join. split_ltb; simpl; lia. Qed.

Lemma bound_meet_fst x y : (bound_meet x y).1 = Z.min x.1 y.1.
Proof. unfold bound_meet. split_ltb; simpl; lia. Qed.

Lemma bound_join_comm x y : bound_join x y = bound_join y x.
Proof.
  destruct x as [x ox], y as [y oy]. unfold bound_join; simpl.
  split_ltb; simpl in *; try lia; try done. f_equal; [lia | apply merge_comm].
Qed.

Lemma bound_meet_comm x y : bound_meet x y = bound_meet y x.
Proof.
  destruct x as [x ox], y as [y oy]. unfold bound_meet; simpl.
  split_ltb; simpl in *; try lia; try done. f_equal; [lia | apply merge_comm].
Qed.

Lemma bound_join_assoc x y z :
  bound_join (bound_join x y) z = bound_join x (bound_join y z).
Proof.
  destruct x as [x ox], y as [y oy], z as [z oz]. unfold bound_join; simpl.
  split_ltb; simpl in *; split_ltb; simpl in *; try lia; try done.
  by rewrite merge_assoc.
Qed.

Lemma bound_meet_assoc x y z :
  bound_meet (bound_meet x y) z = bound_meet x (bound_meet y z).
Proof.
  destruct x as [x ox], y as [y oy], z as [z oz]. unfold bound_meet; simpl.
  split_ltb; simpl in *; split_ltb; simpl in *; try lia; try done.
  by rewrite merge_assoc.
Qed.

Lemma below_join x y r :
  below (bound_join x y).1 r (bound_join x y).2 = below x.1 r x.2 && below y.1 r y.2.
Proof.
  destruct x as [x [|]], y as [y [|]]; unfold bound_join, below; simpl;
    split_ltb; simpl in *; split_ltb; simpl in *; try lia; try done.
Qed.

Lemma below_meet x y r :
  below r (bound_meet x y).1 (bound_meet x y).2 = below r x.1 x.2 && below r y.1 y.2.
Proof.
  destruct x as [x [|]], y as [y [|]]; unfold bound_meet, below; simpl;
    split_ltb; simpl in *; split_ltb; simpl in *; try lia; try done.
Qed.

Lemma below_weaken x y op : below x y op = true → (x ≤ y)%Z.
Proof. destruct op; simpl; intros H; split_ltb; try done; lia. Qed.

Lemma interval_meet_mem i j k r :
  interval_meet i j = Some k →
  interval_mem r k = interval_mem r i && interval_mem r j.
Proof.
  unfold interval_meet.
  destruct (_ <? _)%Z; [|done]. intros [= <-].
  unfold interval_mem; simpl.
  rewrite below_join, below_meet; simpl.
  by destruct (below (lo i) r (loOp i)), (below (lo j) r (loOp j)),
             (below r (hi i) (hiOp i)), (below r (hi j) (hiOp j)).
Qed.

(** When the meet is absent, only the single point where both merged
    bounds coincide and are inclusive can belong to both intervals. *)
Lemma interval_meet_None_mem i j r :
  interval_meet i j = None →
  interval_mem r i && interval_mem r j = true ↔
  bound_join (lo i, loOp i) (lo j, loOp j) = (r, OpLe) ∧
  bound_meet (hi i, hiOp i) (hi j, hiOp j) = (r, OpLe).
Proof.
  unfold interval_meet, interval_mem.
  set (l := bound_join _ _). set (h := bound_meet _ _).
  destruct (Z.ltb_spec l.1 h.1) as [|Hge]; [done|]. intros _.
  transitivity (below l.1 r l.2 && below r h.1 h.2 = true).
  { unfold l, h. rewrite below_join, below_meet; simpl.
    by destruct (below (lo i) r (loOp i)), (below (lo j) r (loOp j)),
               (below r (hi i) (hiOp i)), (below r (hi j) (hiOp j)). }
  destruct l as [l lop], h as [h hop]; simpl in *. split.
  - intros [H1 H2]%andb_prop.
    pose proof (below_weaken _ _ _ H1). pose proof (below_weaken _ _ _ H2).
    assert (l = r) as -> by lia. assert (h = r) as -> by lia.
    destruct lop, hop; simpl in *; rewrite ?Z.ltb_irrefl in *; done.
  - intros [[= -> ->] [= -> ->]]. simpl. by rewrite Z.leb_refl.
Qed.

Lemma interval_meet_comm i j : interval_meet i j = interval_meet j i.
Proof.
  unfold interval_meet.
  by rewrite (bound_join_comm (lo i, _)), (bound_meet_comm (hi i, _)).
Qed.

Lemma interval_meet_Some i j m :
  interval_meet i j = Some m →
  (lo m, loOp m) = bound_join (lo i, loOp i) (lo j, loOp j) ∧
  (hi m, hiOp m) = bound_meet (hi i, hiOp i) (hi j, hiOp j) ∧
  (Z.max (lo i) (lo j) < Z.min (hi i) (hi j))%Z.
Proof.
  unfold interval_meet.
  destruct (Z.ltb_spec (bound_join (lo i, loOp i) (lo j, loOp j)).1
              (bound_meet (hi i, hiOp i) (hi j, hiOp j)).1) as [H|]; [|done].
  intros [= <-]. cbn [lo loOp hi hiOp].
  rewrite bound_join_fst, bound_meet_fst in H.
  by destruct (bound_join _ _), (bound_meet _ _).
Qed.

Lemma interval_meet_None i j :
  interval_meet i j = None ↔ (Z.min (hi i) (hi j) ≤ Z.max (lo i) (lo j))%Z.
Proof.
  unfold interval_meet. rewrite bound_join_fst, bound_meet_fst. simpl.
  destruct (Z.ltb_spec (Z.max (lo i) (lo j)) (Z.min (hi i) (hi j))); split; try done; lia.
Qed.

Lemma interval_meet_opt_assoc x y z :
  interval_meet_opt (interval_meet_opt x y) z = interval_meet_opt x (interval_meet_opt y z).
Proof.
  destruct x as [i|], y as [j|], z as [k|]; simpl; try done;
    [|by destruct (interval_meet i j)..].
  destruct (interval_meet i j) as [m|] eqn:Hm, (interval_meet j k) as [n|] eqn:Hn; simpl.
  - apply interval_meet_Some in Hm as (Hml & Hmh & _).
    apply interval_meet_Some in Hn as (Hnl & Hnh & _).
    unfold interval_meet.
    by rewrite Hml, Hmh, Hnl, Hnh, bound_join_assoc, bound_meet_assoc.
  - apply interval_meet_Some in Hm as (Hml & Hmh & _).
    apply interval_meet_None in Hn. apply interval_meet_None.
    pose proof (bound_join_fst (lo i, loOp i) (lo j, loOp j)) as H1.
    pose proof (bound_meet_fst (hi i, hiOp i) (hi j, hiOp j)) as H2.
    rewrite <- Hml in H1. rewrite <- Hmh in H2. simpl in *. lia.
  - apply interval_meet_Some in Hn as (Hnl & Hnh & _).
    apply interval_meet_None in Hm. symmetry. apply interval_meet_None.
    pose proof (bound_join_fst (lo j, loOp j) (lo k, loOp k)) as H1.
    pose proof (bound_meet_fst (hi j, hiOp j) (hi k, hiOp k)) as H2.
    rewrite <- Hnl in H1. rewrite <- Hnh in H2. simpl in *. lia.
  - done.
Qed.

(** ** [constraintIntersect] computes the meet of the intervals *)

Lemma newLower_cases a b :
  (versionCompare (lower a) (lower b) = (-1)%Z ∧
   newLower a b = Some (lower b, lowerOperator b)) ∨
  (versionCompare (lower a) (lower b) = 0%Z ∧
   newLower a b = Some (lower a, merge (lowerOperator a) (lowerOperator b))) ∨
  (versionCompare (lower a) (lower b) = 1%Z ∧
   newLower a b = Some (lower a, lowerOperator a)).
Proof.
  unfold newLower.
  destruct (versionCompare_range (lower a) (lower b)) as [H|[H|H]]; rewrite H; auto.
Qed.

Lemma newUpper_cases a b :
  (versionCompare (upper a) (upper b) = (-1)%Z ∧
   newUpper a b = Some (upper a, upperOperator a)) ∨
  (versionCompare (upper a) (upper b) = 0%Z ∧
   newUpper a b = Some (upper a, merge (upperOperator a) (upperOperator b))) ∨
  (versionCompare (upper a) (upper b) = 1%Z ∧
   newUpper a b = Some (upper b, upperOperator b)).
Proof.
  unfold newUpper.
  destruct (versionCompare_range (upper a) (upper b)) as [H|[H|H]]; rewrite H; auto.
Qed.

Lemma constraintIntersect_cases a b :
  ∃ l lop u uop,
    newLower a b = Some (l, lop) ∧ newUpper a b = Some (u, uop) ∧
    (l = lower a ∨ l = lower b) ∧ (u = upper a ∨ u = upper b) ∧
    constraintIntersect a b =
      if bool_decide (versionCompare l u ≠ (-1)%Z) then None
      else Some {| lower := l; upper := u; lowerOperator := lop; upperOperator := uop |}.
Proof.
  unfold constraintIntersect.
  destruct (newLower_cases a b) as [[_ ->]|[[_ ->]|[_ ->]]],
           (newUpper_cases a b) as [[_ ->]|[[_ ->]|[_ ->]]];
    eexists _, _, _, _; repeat split; eauto.
Qed.

Lemma constraintIntersect_bounds a b c :
  constraintIntersect a b = Some c →
  (lower c = lower a ∨ lower c = lower b) ∧ (upper c = upper a ∨ upper c = upper b).
Proof.
  destruct (constraintIntersect_cases a b) as (l & lop & u & uop & _ & _ & Hl & Hu & ->).
  case_bool_decide; [done|]. by intros [= <-].
Qed.

Lemma newLower_rank a b :
  wf_version (lower a) = true → wf_version (lower b) = true →
  ∃ l op, newLower a b = Some (l, op) ∧
    (rank l, op) = bound_join (rank (lower a), lowerOperator a) (rank (lower b), lowerOperator b).
Proof.
  intros Ha Hb.
  destruct (newLower_cases a b) as [[Hc ->]|[[Hc ->]|[Hc ->]]];
    rewrite (versionCompare_rank _ _ Ha Hb) in Hc;
    eexists _, _; (split; [done|]);
    unfold rank_compare in Hc; unfold bound_join; simpl;
    destruct (Z.ltb_spec (rank (lower a)) (rank (lower b))),
             (Z.ltb_spec (rank (lower b)) (rank (lower a))); done.
Qed.

Lemma newUpper_rank a b :
  wf_version (upper a) = true → wf_version (upper b) = true →
  ∃ u op, newUpper a b = Some (u, op) ∧
    (rank u, op) = bound_meet (rank (upper a), upperOperator a) (rank (upper b), upperOperator b).
Proof.
  intros Ha Hb.
  destruct (newUpper_cases a b) as [[Hc ->]|[[Hc ->]|[Hc ->]]];
    rewrite (versionCompare_rank _ _ Ha Hb) in Hc;
    eexists _, _; (split; [done|]);
    unfold rank_compare in Hc; unfold bound_meet; simpl;
    destruct (Z.ltb_spec (rank (upper a)) (rank (upper b))),
             (Z.ltb_spec (rank (upper b)) (rank (upper a))); done.
Qed.

Lemma constraintIntersect_wf a b c :
  wf_constraint a = true → wf_constraint b = true →
  constraintIntersect a b = Some c → wf_constraint c = true.
Proof.
  intros [? ?]%andb_prop [? ?]%andb_prop [[Hl|Hl] [Hu|Hu]]%constraintIntersect_bounds;
    unfold wf_constraint; rewrite Hl, Hu; by apply andb_true_intro.
Qed.

Lemma constraintIntersect_interval a b :
  wf_constraint a = true → wf_constraint b = true →
  interval_of <$> constraintIntersect a b = interval_meet (interval_of a) (interval_of b).
Proof.
  intros Ha Hb.
  pose proof Ha as [Hal Hau]%andb_prop. pose proof Hb as [Hbl Hbu]%andb_prop.
  destruct (constraintIntersect_cases a b) as (l & lop & u & uop & Hl & Hu & Hl' & Hu' & ->).
  destruct (newLower_rank a b Hal Hbl) as (l' & lop' & Hl2 & Hjoin).
  destruct (newUpper_rank a b Hau Hbu) as (u' & uop' & Hu2 & Hmeet).
  rewrite Hl in Hl2. rewrite Hu in Hu2. injection Hl2 as <- <-. injection Hu2 as <- <-.
  assert (wf_version l = true) by (by destruct Hl' as [-> | ->]).
  assert (wf_version u = true) by (by destruct Hu' as [-> | ->]).
  unfold interval_meet. cbn [interval_of lo loOp hi hiOp].
  rewrite <- Hjoin, <- Hmeet; simpl.
  rewrite versionCompare_rank by done. unfold rank_compare.
  destruct (Z.ltb_spec (rank l) (rank u)); [by rewrite bool_decide_false by lia|].
  rewrite bool_decide_true; [done|]. destruct (Z.ltb_spec (rank u) (rank l)); lia.
Qed.

Lemma version_equiv_rank a b :
  wf_version a = true → wf_version b = true →
  version_equiv a b ↔ rank a = rank b.
Proof.
  intros Ha Hb. unfold version_equiv. rewrite versionCompare_rank by done.
  apply rank_compare_eq.
Qed.

(** ** Claims on the constraint algebra *)

(** C1, as stated, fails.  [1.0.0 <= v <= 2.0.0] and
    [2.0.0 <= v <= 3.0.0] are both satisfied by [2.0.0], but their
    intersection is absent, the merged lower bound not being strictly below
    the merged upper bound.  And with the lower bound "x.0.0", whose major
    component is no number, [1.0.0] satisfies the intersection with
    [2.0.0 <= v < 3.0.1] but not that constraint. *)
Lemma constraintIntersect_satisfies_counterexample :
  ¬ (satisfies_opt v200 (constraintIntersect c_100_200_closed c_200_300_closed) = true ↔
     versionSatifiesConstraint v200 c_100_200_closed = true ∧
     versionSatifiesConstraint v200 c_200_300_closed = true) ∧
  ¬ (satisfies_opt v100 (constraintIntersect c_x00_900 c_200_301) = true ↔
     versionSatifiesConstraint v100 c_x00_900 = true ∧
     versionSatifiesConstraint v100 c_200_301 = true).
Proof.
  split.
  - intros [_ H].
    assert (satisfies_opt v200 (constraintIntersect c_100_200_closed c_200_300_closed) = false)
      as Hf by reflexivity.
    rewrite H in Hf; [discriminate|]. split; reflexivity.
  - intros [H _].
    assert (versionSatifiesConstraint v100 c_200_301 = false) as Hf by reflexivity.
    destruct H as [_ H]; [reflexivity|]. rewrite H in Hf. discriminate.
Qed.

(** C1 (amended): for well-formed versions, a version satisfies both
    constraints exactly when it satisfies their intersection, or the
    intersection is absent while both merged operators are [<=] and the
    version compares equal to both merged bounds. *)
Theorem constraintIntersect_satisfies (v : IVersion) (c1 c2 : IConstraint) :
  wf_version v = true → wf_constraint c1 = true → wf_constraint c2 = true →
  (versionSatifiesConstraint v c1 = true ∧ versionSatifiesConstraint v c2 = true) ↔
  (satisfies_opt v (constraintIntersect c1 c2) = true ∨
   (constraintIntersect c1 c2 = None ∧
    ∃ l u, newLower c1 c2 = Some (l, OpLe) ∧ newUpper c1 c2 = Some (u, OpLe) ∧
           versionCompare l v = 0%Z ∧ versionCompare v u = 0%Z)).
Proof.
  intros Hv H1 H2.
  pose proof (constraintIntersect_interval c1 c2 H1 H2) as Hmeet.
  rewrite (satisfies_interval v c1), (satisfies_interval v c2) by done.
  rewrite <- andb_true_iff.
  destruct (constraintIntersect c1 c2) as [c|] eqn:Hc; simpl in *.
  - rewrite (satisfies_interval v c) by eauto using constraintIntersect_wf.
    rewrite (interval_meet_mem _ _ _ (rank v) (eq_sym Hmeet)).
    split; [auto | by intros [?|[? _]]].
  - rewrite (interval_meet_None_mem _ _ (rank v) (eq_sym Hmeet)).
    pose proof H1 as [H1l H1u]%andb_prop. pose proof H2 as [H2l H2u]%andb_prop.
    destruct (constraintIntersect_cases c1 c2) as (l & lop & u & uop & Hl & Hu & Hl' & Hu' & _).
    destruct (newLower_rank c1 c2 H1l H2l) as (l' & lop' & Hl2 & Hjoin).
    destruct (newUpper_rank c1 c2 H1u H2u) as (u' & uop' & Hu2 & Hjmeet).
    rewrite Hl in Hl2. rewrite Hu in Hu2. injection Hl2 as <- <-. injection Hu2 as <- <-.
    assert (wf_version l = true) by (by destruct Hl' as [-> | ->]).
    assert (wf_version u = true) by (by destruct Hu' as [-> | ->]).
    cbn [interval_of lo loOp hi hiOp]. rewrite <- Hjoin, <- Hjmeet, Hl, Hu.
    split.
    + intros [[= Hr ->] [= Hr' ->]]. right. split; [done|]. exists l, u.
      repeat split; try done.
      * apply version_equiv_rank; done.
      * apply version_equiv_rank; done.
    + intros [?|[_ (l0 & u0 & [= <- ->] & [= <- ->] & Hlv & Hvu)]]; [done|].
      apply version_equiv_rank in Hlv; [|done..].
      apply version_equiv_rank in Hvu; [|done..].
      by rewrite Hlv, Hvu.
Qed.

Lemma merge_OpLt op1 op2 : merge op1 op2 = OpLt ↔ op1 = OpLt ∨ op2 = OpLt.
Proof. destruct op1, op2; compute; intuition congruence. Qed.

Lemma versionCompare_refl a : versionCompare a a = 0%Z.
Proof. pose proof (versionCompare_opp a a). lia. Qed.

Lemma versionCompare_fields_agree a b :
  fields_agree a → fields_agree b → versionCompare a b = tripleCompare a b.
Proof.
  intros (Ha0 & Ha1 & Ha2) (Hb0 & Hb1 & Hb2).
  rewrite versionCompare_components. unfold tripleCompare.
  by rewrite Ha0, Ha1, Ha2, Hb0, Hb1, Hb2.
Qed.

(** C4, as stated, fails: [constraintIntersect] orders the bounds with
    [versionCompare], which reads the string forms.  The lower bounds
    [1.0.0] and [parseVersion "1.0.1-beta"] compare equal, the second
    component "1-beta" being no number, so the intersection keeps [1.0.0],
    the bound of the first argument, although by (major, minor, patch) it
    is the lesser of the two. *)
Lemma constraintIntersect_characterisation_counterexample :
  constraintIntersect c_100_200 c_101beta_200 = Some c_100_200 ∧
  versionCompare (lower c_100_200) (lower c_101beta_200) = 0%Z ∧
  tripleCompare (lower c_100_200) (lower c_101beta_200) = (-1)%Z.
Proof. repeat split; reflexivity. Qed.

(** C4 (amended): for all constraints, [constraintIntersect] keeps the
    greater lower bound and the lesser upper bound in the order of
    [versionCompare], the strict operator winning between bounds that
    compare equal, and is absent exactly when the lower bound it keeps is
    greater than or equal to the upper bound it keeps in that order.  For
    constraints whose bounds carry in major, minor and patch the numbers
    read from their string forms, this is the order of (major, minor,
    patch): the lower bound is the maximum, the upper bound the minimum,
    and the result is absent exactly when the lower bound is greater than
    or equal to the upper bound.  The intersection of
    [1.0.0 <= v < 2.0.0] and [1.2.0 <= v <= 3.0.0] is
    [1.2.0 <= v < 2.0.0]. *)
Theorem constraintIntersect_characterisation :
  (∀ a b : IConstraint,
     ∃ l lop u uop,
       newLower a b = Some (l, lop) ∧ newUpper a b = Some (u, uop) ∧
       merged_lower a b l lop ∧ merged_upper a b u uop ∧
       (constraintIntersect a b = None ↔ version_ge l u) ∧
       (constraintIntersect a b ≠ None ↔
        constraintIntersect a b =
          Some {| lower := l; upper := u; lowerOperator := lop; upperOperator := uop |})) ∧
  (∀ a b : IConstraint,
     fields_agree (lower a) → fields_agree (lower b) →
     fields_agree (upper a) → fields_agree (upper b) →
     ∃ l lop u uop,
       newLower a b = Some (l, lop) ∧ newUpper a b = Some (u, uop) ∧
       merged_lower_by tripleCompare a b l lop ∧
       merged_upper_by tripleCompare a b u uop ∧
       (constraintIntersect a b = None ↔
        tripleCompare l u = 0%Z ∨ tripleCompare l u = 1%Z) ∧
       (constraintIntersect a b ≠ None ↔
        constraintIntersect a b =
          Some {| lower := l; upper := u; lowerOperator := lop; upperOperator := uop |})) ∧
  constraintIntersect c_100_200 c_120_300 = Some c_120_200.
Proof.
  assert (∀ a b : IConstraint,
     ∃ l lop u uop,
       newLower a b = Some (l, lop) ∧ newUpper a b = Some (u, uop) ∧
       merged_lower a b l lop ∧ merged_upper a b u uop ∧
       (constraintIntersect a b = None ↔ version_ge l u) ∧
       (constraintIntersect a b ≠ None ↔
        constraintIntersect a b =
          Some {| lower := l; upper := u; lowerOperator := lop; upperOperator := uop |}))
    as Hcompare.
  { intros a b. unfold constraintIntersect.
    destruct (newLower_cases a b) as [[Hl ->]|[[Hl ->]|[Hl ->]]],
             (newUpper_cases a b) as [[Hu ->]|[[Hu ->]|[Hu ->]]];
      eexists _, _, _, _; (split; [reflexivity|]); (split; [reflexivity|]).
    all: pose proof (versionCompare_opp (lower a) (lower b));
         pose proof (versionCompare_opp (upper a) (upper b)).
    all: split;
      [unfold merged_lower, is_greatest; rewrite ?versionCompare_refl, ?merge_OpLt;
       repeat split; auto; lia|].
    all: split;
      [unfold merged_upper, is_least; rewrite ?versionCompare_refl, ?merge_OpLt;
       repeat split; auto; lia|].
    all: unfold version_ge;
      match goal with
      | |- context [versionCompare ?l ?u ≠ (-1)%Z] =>
          destruct (versionCompare_range l u) as [Hc|[Hc|Hc]]; rewrite Hc
      end;
      case_bool_decide; try done;
      split; split; intros; try done; try lia; auto. }
  split; [exact Hcompare|]. split; [|reflexivity].
  intros a b Hla Hlb Hua Hub.
  destruct (Hcompare a b)
    as (l & lop & u & uop & Hl & Hu & Hml & Hmu & Hnone & Hsome).
  exists l, lop, u, uop.
  destruct Hml as ((Hlor & Hl1 & Hl2) & Hl3 & Hl4 & Hl5).
  destruct Hmu as ((Huor & Hu1 & Hu2) & Hu3 & Hu4 & Hu5).
  assert (fields_agree l) as Hfl by (by destruct Hlor as [->| ->]).
  assert (fields_agree u) as Hfu by (by destruct Huor as [->| ->]).
  unfold merged_lower_by, merged_upper_by.
  rewrite <- !versionCompare_fields_agree by done.
  split; [done|]. split; [done|].
  split; [exact (conj (conj Hlor (conj Hl1 Hl2)) (conj Hl3 (conj Hl4 Hl5)))|].
  split; [exact (conj (conj Huor (conj Hu1 Hu2)) (conj Hu3 (conj Hu4 Hu5)))|].
  split; [exact Hnone | exact Hsome].
Qed.

(** C4, witness: the two constraints of the example, whose bounds
    [parseVersion] made from runs of digits. *)
Lemma constraintIntersect_characterisation_witness :
  fields_agree (lower c_100_200) ∧ fields_agree (lower c_120_300) ∧
  fields_agree (upper c_100_200) ∧ fields_agree (upper c_120_300) ∧
  ∃ l lop u uop,
    newLower c_100_200 c_120_300 = Some (l, lop) ∧
    newUpper c_100_200 c_120_300 = Some (u, uop) ∧
    merged_lower_by tripleCompare c_100_200 c_120_300 l lop ∧
    merged_upper_by tripleCompare c_100_200 c_120_300 u uop ∧
    (constraintIntersect c_100_200 c_120_300 = None ↔
     tripleCompare l u = 0%Z ∨ tripleCompare l u = 1%Z) ∧
    (constraintIntersect c_100_200 c_120_300 ≠ None ↔
     constraintIntersect c_100_200 c_120_300 =
       Some {| lower := l; upper := u; lowerOperator := lop; upperOperator := uop |}).
Proof.
  assert (fields_agree v100 ∧ fields_agree v120 ∧ fields_agree v200 ∧ fields_agree v300)
    as (H100 & H120 & H200 & H300) by (repeat split; reflexivity).
  split; [exact H100|]. split; [exact H120|]. split; [exact H200|]. split; [exact H300|].
  exact (proj1 (proj2 constraintIntersect_characterisation)
           c_100_200 c_120_300 H100 H120 H200 H300).
Defined.

Lemma leading_digits_all s : ∀ acc z,
  JS.digits_value acc s = Some z → JS.leading_digits s = s.
Proof.
  induction s as [|c s IH]; intros acc z; simpl; [done|].
  destruct (Ascii.is_nat c); [|done]. intros H. f_equal. eauto.
Qed.

Lemma safe_digits_parseInt x : safe_digits x = true → JS.parseInt x = JS.Number x.
Proof.
  destruct x as [[|c s]|]; try done. unfold safe_digits, JS.parseInt.
  destruct (JS.digits_value 0 (String c s)) as [z|] eqn:Hz; [|done]. intros _.
  by rewrite (leading_digits_all _ _ _ Hz).
Qed.

Lemma parseVersion_fields_agree s :
  wf_version (parseVersion s) = true → fields_agree (parseVersion s).
Proof.
  unfold wf_version, fields_agree, component. simpl.
  intros [[H0 H1]%andb_prop H2]%andb_prop.
  by rewrite !safe_digits_parseInt.
Qed.

(** C6, as stated, fails: [parseVersion] reads patch [1] from
    "1.0.1-beta", but [versionCompare] converts the component "1-beta" of
    the string form with [Number], gets [NaN], and finds the two versions
    equal. *)
Lemma versionCompare_triple_counterexample :
  versionCompare v101beta v100 = 0%Z ∧ tripleCompare v101beta v100 = 1%Z.
Proof. split; reflexivity. Qed.

(** C6 (amended): [versionCompare] returns -1, 0 or 1 and is determined by
    the string forms alone, whatever the numeric fields hold; it is the
    lexicographic order on (major, minor, patch) for versions whose fields
    are the numbers read from the string form, as those made by
    [parseVersion] from three dot-separated runs of digits are. *)
Theorem versionCompare_string_order :
  (∀ a b, versionCompare a b = (-1)%Z ∨ versionCompare a b = 0%Z ∨ versionCompare a b = 1%Z) ∧
  (∀ a b a' b',
     IVersion.string a = IVersion.string a' → IVersion.string b = IVersion.string b' →
     versionCompare a b = versionCompare a' b') ∧
  (∀ a b, fields_agree a → fields_agree b → versionCompare a b = tripleCompare a b) ∧
  (∀ s t,
     wf_version (parseVersion s) = true → wf_version (parseVersion t) = true →
     versionCompare (parseVersion s) (parseVersion t)
     = tripleCompare (parseVersion s) (parseVersion t)).
Proof.
  assert (∀ a b, fields_agree a → fields_agree b → versionCompare a b = tripleCompare a b)
    as Hagree.
  { intros a b (Ha0 & Ha1 & Ha2) (Hb0 & Hb1 & Hb2).
    rewrite versionCompare_components. unfold tripleCompare.
    by rewrite Ha0, Ha1, Ha2, Hb0, Hb1, Hb2. }
  repeat split.
  - apply versionCompare_range.
  - intros a b a' b' Ha Hb. unfold versionCompare. by rewrite Ha, Hb.
  - apply Hagree.
  - intros s t Hs Ht. apply Hagree; by apply parseVersion_fields_agree.
Qed.

Lemma versionCompare_string_order_witness :
  wf_version (parseVersion "1.10.0") = true ∧ wf_version (parseVersion "1.9.0") = true ∧
  versionCompare (parseVersion "1.10.0") (parseVersion "1.9.0")
  = tripleCompare (parseVersion "1.10.0") (parseVersion "1.9.0").
Proof.
  split; [reflexivity|]. split; [reflexivity|].
  apply (proj2 (proj2 (proj2 versionCompare_string_order))); reflexivity.
Defined.

(** ** Commutativity and associativity *)

Lemma constraintIntersect_opt_interval x y :
  wf_result x → wf_result y →
  interval_of <$> constraintIntersect_opt x y
  = interval_meet_opt (interval_of <$> x) (interval_of <$> y) ∧
  wf_result (constraintIntersect_opt x y).
Proof.
  intros Hx Hy. destruct x as [a|], y as [b|]; simpl; try done.
  split; [apply constraintIntersect_interval; auto|].
  intros c Hc. eapply constraintIntersect_wf; [apply Hx | apply Hy | apply Hc]; done.
Qed.

Lemma constraintIntersect_opt_bounds_in L x y :
  bounds_in L x → bounds_in L y → bounds_in L (constraintIntersect_opt x y).
Proof.
  intros Hx Hy c. destruct x as [a|], y as [b|]; simpl; try done.
  intros [[Hl|Hl] [Hu|Hu]]%constraintIntersect_bounds; rewrite Hl, Hu;
    destruct (Hx a eq_refl), (Hy b eq_refl); done.
Qed.

Lemma result_equiv_interval x y :
  wf_result x → wf_result y →
  result_equiv x y ↔ interval_of <$> x = interval_of <$> y.
Proof.
  intros Hx Hy. destruct x as [c|], y as [d|]; simpl; try done.
  pose proof (Hx c eq_refl) as [? ?]%andb_prop.
  pose proof (Hy d eq_refl) as [? ?]%andb_prop.
  unfold constraint_equiv, interval_of. rewrite !version_equiv_rank by done.
  split.
  - intros (-> & -> & -> & ->). done.
  - intros [= Hl Hlo Hu Huo]. done.
Qed.

Lemma result_equiv_separated L x y :
  separated L → bounds_in L x → bounds_in L y → result_equiv x y → x = y.
Proof.
  intros Hsep Hx Hy. destruct x as [c|], y as [d|]; simpl; try done.
  destruct (Hx c eq_refl), (Hy d eq_refl).
  intros (Hl & Hu & Hlo & Huo).
  apply Hsep in Hl; [|done..]. apply Hsep in Hu; [|done..].
  destruct c, d; simpl in *; congruence.
Qed.

(** C7, as stated, fails.  [parseContraint] accepts "01.0.0", which
    compares equal to "1.0.0"; between two bounds that compare equal the
    intersection keeps the one of its first argument, so the two orders
    give lower bounds with different string forms.  And the bound "x.0.0",
    which is not numeric, compares equal to [1.0.0], [2.0.0] and [9.0.0]:
    one grouping of three constraints gives [2.0.0 <= v < 9.0.0], the other
    is absent. *)
Lemma constraintIntersect_comm_counterexample :
  constraintIntersect c_100_200 c_leading_zero ≠ constraintIntersect c_leading_zero c_100_200 ∧
  ¬ result_equiv
      (constraintIntersect_opt (constraintIntersect c_100_900 c_x00_900) (Some c_200_900))
      (constraintIntersect_opt (Some c_100_900) (constraintIntersect c_x00_900 c_200_900)).
Proof.
  split; [discriminate|].
  intros H. vm_compute in H. exact H.
Qed.

(** C7 (amended): on well-formed constraints [constraintIntersect] is
    commutative and associative up to the order of versions: both sides
    are absent together, have the same operators, and bounds that
    [versionCompare] finds equal; they are equal in every field when no two
    different bounds among the arguments compare equal. *)
Theorem constraintIntersect_comm_assoc (c1 c2 c3 : IConstraint) :
  wf_constraint c1 = true → wf_constraint c2 = true → wf_constraint c3 = true →
  result_equiv (constraintIntersect c1 c2) (constraintIntersect c2 c1) ∧
  result_equiv
    (constraintIntersect_opt (constraintIntersect c1 c2) (Some c3))
    (constraintIntersect_opt (Some c1) (constraintIntersect c2 c3)) ∧
  (separated (bounds c1 ++ bounds c2 ++ bounds c3) →
   constraintIntersect c1 c2 = constraintIntersect c2 c1 ∧
   constraintIntersect_opt (constraintIntersect c1 c2) (Some c3)
   = constraintIntersect_opt (Some c1) (constraintIntersect c2 c3)).
Proof.
  intros H1 H2 H3.
  assert (∀ c, wf_constraint c = true → wf_result (Some c)) as Hwf
    by (by intros c Hc d [= <-]).
  set (L := bounds c1 ++ bounds c2 ++ bounds c3).
  assert (∀ c, c ∈ [c1; c2; c3] → bounds_in L (Some c)) as Hin.
  { intros c Hc d [= <-]. unfold L, bounds. set_solver. }
  pose proof (constraintIntersect_opt_interval (Some c1) (Some c2) (Hwf _ H1) (Hwf _ H2))
    as [E12 W12].
  pose proof (constraintIntersect_opt_interval (Some c2) (Some c1) (Hwf _ H2) (Hwf _ H1))
    as [E21 W21].
  pose proof (constraintIntersect_opt_interval (Some c2) (Some c3) (Hwf _ H2) (Hwf _ H3))
    as [E23 W23].
  pose proof (constraintIntersect_opt_interval _ (Some c3) W12 (Hwf _ H3)) as [El Wl].
  pose proof (constraintIntersect_opt_interval (Some c1) _ (Hwf _ H1) W23) as [Er Wr].
  assert (bounds_in L (constraintIntersect_opt (Some c1) (Some c2))) as B12
    by (apply constraintIntersect_opt_bounds_in; apply Hin; set_solver).
  assert (bounds_in L (constraintIntersect_opt (Some c2) (Some c1))) as B21
    by (apply constraintIntersect_opt_bounds_in; apply Hin; set_solver).
  assert (bounds_in L (constraintIntersect_opt (Some c2) (Some c3))) as B23
    by (apply constraintIntersect_opt_bounds_in; apply Hin; set_solver).
  assert (result_equiv (constraintIntersect c1 c2) (constraintIntersect c2 c1)) as Hcomm.
  { change (constraintIntersect c1 c2) with (constraintIntersect_opt (Some c1) (Some c2)).
    change (constraintIntersect c2 c1) with (constraintIntersect_opt (Some c2) (Some c1)).
    apply result_equiv_interval; [done..|].
    rewrite E12, E21. apply interval_meet_comm. }
  assert (result_equiv
            (constraintIntersect_opt (constraintIntersect c1 c2) (Some c3))
            (constraintIntersect_opt (Some c1) (constraintIntersect c2 c3))) as Hassoc.
  { change (constraintIntersect c1 c2) with (constraintIntersect_opt (Some c1) (Some c2)).
    change (constraintIntersect c2 c3) with (constraintIntersect_opt (Some c2) (Some c3)).
    apply result_equiv_interval; [done..|].
    rewrite El, Er, E12, E23.
    apply (interval_meet_opt_assoc (Some _) (Some _) (Some _)). }
  split; [done|]. split; [done|].
  intros Hsep. split.
  - eapply result_equiv_separated; eauto.
  - eapply result_equiv_separated; eauto.
    + apply constraintIntersect_opt_bounds_in; [done|]. apply Hin; set_solver.
    + apply constraintIntersect_opt_bounds_in; [|done]. apply Hin; set_solver.
Qed.

(** ** [pickDep] and [combineDeps] *)

Lemma head_merge_sort_elem (l : list string) k :
  head (merge_sort JS.default_le l) = Some k → k ∈ l.
Proof.
  intros H. rewrite <- (merge_sort_Permutation JS.default_le l).
  destruct (merge_sort JS.default_le l); simplify_eq/=. set_solver.
Qed.

Lemma pickDep_Some deps name c rest :
  pickDep deps = (Some (name, c), rest) →
  name ≠ EmptyString ∧ deps !! name = Some c ∧ rest = delete name deps.
Proof.
  unfold pickDep.
  destruct (head (merge_sort JS.default_le (elements (dom deps)))) as [k|]; [|done].
  case_bool_decide; [done|].
  destruct (deps !! k) as [c'|] eqn:Hk; simpl; [|done].
  by intros [= -> -> <-].
Qed.

Lemma pickDep_None deps rest :
  pickDep deps = (None, rest) → deps = ∅ ∨ is_Some (deps !! EmptyString).
Proof.
  unfold pickDep.
  destruct (head (merge_sort JS.default_le (elements (dom deps)))) as [k|] eqn:Hh.
  - apply head_merge_sort_elem, elem_of_elements, elem_of_dom in Hh.
    case_bool_decide; [subst; auto|].
    destruct Hh as [c Hc]. by rewrite Hc.
  - intros _. left. apply dom_empty_iff_L, leibniz_equiv, elements_empty_iff.
    pose proof (merge_sort_Permutation JS.default_le (elements (dom deps))) as Hp.
    destruct (merge_sort JS.default_le (elements (dom deps))); [|done].
    by apply Permutation_nil_l in Hp as ->.
Qed.

Lemma pickDep_empty : pickDep ∅ = (None, ∅).
Proof. reflexivity. Qed.

Lemma combineDeps_loop_lookup a b keys : ∀ acc d,
  combineDeps_loop a b keys acc = Some d →
  ∀ k, d !! k = (if decide (k ∈ keys) then combine_at a b k else acc !! k) ∧
       (k ∈ keys → is_Some (combine_at a b k)).
Proof.
  induction keys as [|key keys IH]; intros acc d Hd k; simpl in Hd.
  - injection Hd as <-. rewrite decide_False by set_solver. split; [done|set_solver].
  - assert (∃ x, combine_at a b key = Some x ∧
                 combineDeps_loop a b keys (<[key := x]> acc) = Some d) as (x & Hx & Hd').
    { unfold combine_at.
      destruct (a !! key) as [v1|], (b !! key) as [v2|]; try done; eauto.
      destruct (constraintIntersect v1 v2); [eauto | done]. }
    destruct (IH _ _ Hd' k) as [-> Hsome].
    destruct (decide (k ∈ keys)) as [Hin|Hin].
    + rewrite decide_True by set_solver. auto.
    + destruct (decide (k = key)) as [->|Hne].
      * rewrite decide_True by set_solver. rewrite lookup_insert_eq, Hx. eauto.
      * rewrite decide_False by set_solver. rewrite lookup_insert_ne by done.
        split; [done|]. set_solver.
Qed.

Lemma combineDeps_lookup a b d k :
  combineDeps a b = Some d →
  d !! k = combine_at a b k ∧ (is_Some (a !! k) ∨ is_Some (b !! k) → is_Some (d !! k)).
Proof.
  intros Hd. destruct (combineDeps_loop_lookup _ _ _ _ _ Hd k) as [Hk Hsome].
  rewrite elem_of_elements, elem_of_union, !elem_of_dom in Hsome.
  assert (d !! k = combine_at a b k) as Heq.
  { rewrite Hk. case_decide as Hin; [done|]. rewrite lookup_empty.
    rewrite elem_of_elements, elem_of_union, !elem_of_dom in Hin.
    unfold combine_at.
    destruct (a !! k) eqn:Ha, (b !! k) eqn:Hb; try done; exfalso; apply Hin; eauto. }
  split; [done|]. rewrite Heq. done.
Qed.

(** ** Soundness of the solver *)

Lemma sort_insert_In {A} (cmp : A → A → Z) x l y :
  In y (JS.sort_insert cmp x l) ↔ y = x ∨ In y l.
Proof.
  induction l as [|z l IH]; simpl; [intuition|].
  destruct (cmp x z <=? 0)%Z; simpl; [intuition|]. rewrite IH. intuition.
Qed.

Lemma sort_In {A} (cmp : A → A → Z) l y : In y (JS.sort cmp l) ↔ In y l.
Proof.
  induction l as [|x l IH]; simpl; [done|].
  rewrite sort_insert_In, IH. intuition.
Qed.

Lemma candidates_for_In packageCache name c sols e :
  In e (candidates_for packageCache name c sols) →
  In e (packageCache name) ∧ versionSatifiesConstraint (version e) c = true ∧
  ∀ sv, sols !! name = Some sv → IVersion.string (version e) = IVersion.string sv.
Proof.
  unfold candidates_for.
  assert (∀ e, In e (rev (JS.sort candidate_compare
             (List.filter (λ p, versionSatifiesConstraint (version p) c)
                (packageCache name)))) →
          In e (packageCache name) ∧ versionSatifiesConstraint (version e) c = true) as Hall.
  { intros e' He. rewrite <- in_rev in He. apply sort_In in He.
    by apply filter_In in He. }
  destruct (sols !! name) as [sv|].
  - intros [He Hs]%filter_In. apply bool_decide_eq_true in Hs.
    destruct (Hall _ He). repeat split; try done. by intros ? [= <-].
  - intros He. destruct (Hall _ He). repeat split; done.
Qed.

Lemma versionCompare_string a b a' b' :
  IVersion.string a = IVersion.string a' → IVersion.string b = IVersion.string b' →
  versionCompare a b = versionCompare a' b'.
Proof. intros Ha Hb. unfold versionCompare. by rewrite Ha, Hb. Qed.

Lemma satisfies_string v v' c :
  IVersion.string v = IVersion.string v' →
  versionSatifiesConstraint v c = versionSatifiesConstraint v' c.
Proof.
  intros H. unfold versionSatifiesConstraint, filterSemver.
  by rewrite (versionCompare_string (lower c) v (lower c) v' eq_refl H),
             (versionCompare_string v (upper c) v' (upper c) H eq_refl).
Qed.

Lemma wf_version_string v v' :
  IVersion.string v = IVersion.string v' → wf_version v = wf_version v'.
Proof. intros H. unfold wf_version. by rewrite H. Qed.

Lemma constraintIntersect_sound v a b c :
  wf_version v = true → wf_constraint a = true → wf_constraint b = true →
  constraintIntersect a b = Some c → versionSatifiesConstraint v c = true →
  versionSatifiesConstraint v a = true ∧ versionSatifiesConstraint v b = true.
Proof.
  intros Hv Ha Hb Hc Hs.
  pose proof (constraintIntersect_interval a b Ha Hb) as Hmeet.
  rewrite Hc in Hmeet. simpl in Hmeet.
  rewrite (satisfies_interval v c) in Hs by eauto using constraintIntersect_wf.
  rewrite (interval_meet_mem _ _ _ (rank v) (eq_sym Hmeet)) in Hs.
  apply andb_prop in Hs. by rewrite !satisfies_interval.
Qed.

Lemma combineDeps_wf a b d :
  wf_deps a → wf_deps b → combineDeps a b = Some d → wf_deps d.
Proof.
  intros Ha Hb Hd q c. rewrite (proj1 (combineDeps_lookup _ _ _ q Hd)). unfold combine_at.
  destruct (a !! q) as [v1|] eqn:H1, (b !! q) as [v2|] eqn:H2; try done.
  - intros Hc. destruct (Ha _ _ H1), (Hb _ _ H2).
    split; [done|]. by apply (constraintIntersect_wf v1 v2).
  - intros [= <-]. eauto.
  - intros [= <-]. eauto.
Qed.

(** What satisfies the combined constraints satisfies both maps. *)
Lemma combineDeps_satisfied s a b d :
  wf_solutions s → wf_deps a → wf_deps b → combineDeps a b = Some d →
  satisfied s d → satisfied s a ∧ satisfied s b.
Proof.
  intros Hs Ha Hb Hd Hsat.
  assert (∀ q c1 c2 i, a !! q = Some c1 → b !! q = Some c2 → d !! q = Some i →
            ∃ w, s !! q = Some w ∧ versionSatifiesConstraint w c1 = true ∧
                 versionSatifiesConstraint w c2 = true) as Hboth.
  { intros q c1 c2 i H1 H2 Hi.
    destruct (Hsat _ _ Hi) as (w & Hw & Hwi). exists w. split; [done|].
    rewrite (proj1 (combineDeps_lookup _ _ _ q Hd)) in Hi.
    unfold combine_at in Hi. rewrite H1, H2 in Hi.
    destruct (Ha _ _ H1), (Hb _ _ H2). eapply constraintIntersect_sound; eauto. }
  split; intros q c Hq.
  - destruct (combineDeps_lookup _ _ _ q Hd) as [Hl [i Hi]]; [eauto|].
    destruct (b !! q) as [c2|] eqn:H2.
    + destruct (Hboth _ _ _ _ Hq H2 Hi) as (w & ? & ? & ?). eauto.
    + unfold combine_at in Hl. rewrite Hq, H2 in Hl. eauto.
  - destruct (combineDeps_lookup _ _ _ q Hd) as [Hl [i Hi]]; [eauto|].
    destruct (a !! q) as [c1|] eqn:H1.
    + destruct (Hboth _ _ _ _ H1 Hq Hi) as (w & ? & ? & ?). eauto.
    + unfold combine_at in Hl. rewrite Hq, H1 in Hl. eauto.
Qed.

Lemma solveDependenciesWorker_S fuel packageCache deps sols :
  solveDependenciesWorker (S fuel) packageCache deps sols =
  match pickDep deps with
  | (None, _) =>
      Some (Some {| SolverResult.pending := deps; SolverResult.solutions := sols |})
  | (Some (name, constraint), restDeps) =>
      candidates_loop (solveDependenciesWorker fuel packageCache) name restDeps sols
        (candidates_for packageCache name constraint sols)
  end.
Proof. reflexivity. Qed.

Lemma wf_deps_delete name deps : wf_deps deps → wf_deps (delete name deps).
Proof. intros H q c Hq. apply lookup_delete_Some in Hq as [_ Hq]. eauto. Qed.

Lemma candidates_loop_sound packageCache recurse name c deps sols candidates r :
  wf_cache packageCache → worker_sound packageCache recurse →
  wf_deps deps → wf_solutions sols → deps !! name = Some c →
  (∀ e, In e candidates →
        In e (packageCache name) ∧ versionSatifiesConstraint (version e) c = true ∧
        ∀ sv, sols !! name = Some sv → IVersion.string (version e) = IVersion.string sv) →
  candidates_loop recurse name (delete name deps) sols candidates = Some (Some r) →
  worker_post packageCache deps sols r.
Proof.
  intros Hcache [Hrec Hrec0] Hdeps Hsols Hname.
  induction candidates as [|e candidates IH]; intros Hcands Hloop; simpl in Hloop; [done|].
  assert (∀ e', In e' candidates →
        In e' (packageCache name) ∧ versionSatifiesConstraint (version e') c = true ∧
        ∀ sv, sols !! name = Some sv → IVersion.string (version e') = IVersion.string sv)
    as Hcands' by (intros; apply Hcands; by right).
  destruct (combineDeps (delete name deps) (dependencies e)) as [tdeps|] eqn:Ht; [|by apply IH].
  destruct (recurse tdeps (<[name:=version e]> sols)) as [[r1|]|] eqn:Hr1;
    [|by apply IH|done].
  destruct (Hcands e (or_introl eq_refl)) as (He & Hsat & Hsolved).
  destruct (Hcache _ _ He) as [Hve Hde].
  assert (wf_deps tdeps) as Htd
    by (eapply combineDeps_wf; [apply wf_deps_delete, Hdeps | apply Hde | done]).
  assert (wf_solutions (<[name:=version e]> sols)) as Hs1.
  { intros q v [[-> <-]|[_ ?]]%lookup_insert_Some; eauto. }
  destruct (Hrec _ _ _ Htd Hs1 Hr1) as (Hpend & Hwf1 & Hext & Hsat1 & Hclosed).
  rewrite Hpend in Hloop. apply Hrec0 in Hloop as ->. clear Hrec0.
  destruct (combineDeps_satisfied _ _ _ _ Hwf1 (wf_deps_delete name _ Hdeps) Hde Ht Hsat1)
    as [Hsat_rest Hsat_e].
  destruct (Hext name (version e)) as (v' & Hv' & Hstr); [by rewrite lookup_insert_eq|].
  unfold worker_post; simpl. repeat split; try done.
  - intros q v Hq. destruct (decide (q = name)) as [->|Hne].
    + exists v'. split; [done|]. rewrite Hstr. eauto.
    + apply Hext. by rewrite lookup_insert_ne.
  - intros q c' Hq. destruct (decide (q = name)) as [->|Hne].
    + exists v'. split; [done|]. rewrite Hname in Hq. injection Hq as <-.
      by rewrite (satisfies_string v' (version e) c Hstr).
    + apply Hsat_rest. by rewrite lookup_delete_ne.
  - intros p v Hp. destruct (Hclosed _ _ Hp) as [?|Hins]; [by left|].
    apply lookup_insert_Some in Hins as [[<- <-]|[_ ?]]; [|by right].
    left. by exists e.
Qed.

Lemma solveDependenciesWorker_sound packageCache fuel :
  wf_cache packageCache →
  worker_sound packageCache (solveDependenciesWorker fuel packageCache).
Proof.
  intros Hcache. induction fuel as [|fuel IH]; [by split|].
  split.
  - intros deps sols r Hdeps Hsols. rewrite solveDependenciesWorker_S.
    destruct (pickDep deps) as [[[name c]|] rest] eqn:Hpick.
    + apply pickDep_Some in Hpick as (_ & Hname & ->).
      apply (candidates_loop_sound _ _ _ c); try done.
      intros e. apply candidates_for_In.
    + intros [= <-]. apply pickDep_None in Hpick as [->|[c Hc]].
      * unfold worker_post; simpl. repeat split; try done.
        -- intros q v ?. eauto.
        -- intros p v ?. by right.
      * by destruct (Hdeps _ _ Hc).
  - intros sols r. rewrite solveDependenciesWorker_S, pickDep_empty. by intros [= <-].
Qed.

(** C2, as stated, fails.  With a root dependency whose name is the
    empty string, [pickDep] picks that name first and takes it for "no
    dependency left", so the solver answers the empty solution, which gives
    no version to [elm/core] although the cache has one that fits.  And
    with a release whose version string is not numeric, [P = x.3.0] is
    selected although the selected [A@1.0.0] declares [1.5.0 <= P]. *)
Lemma solveDependencies_sound_counterexample :
  (solveDependencies 1 cache_core root_empty_name = Some (Some ∅) ∧
   root_empty_name !! "elm/core" = Some c_100_200 ∧
   (∅ : gmap string IVersion) !! "elm/core" = None) ∧
  (solveDependencies 10 non_numeric_cache non_numeric_root
   = Some (Some {[ "A" := v100; "B" := v100; "P" := vx30 ]}) ∧
   non_numeric_cache "A" = [ {| version := v100; dependencies := {[ "P" := v150_999 ]} |} ] ∧
   versionSatifiesConstraint vx30 v150_999 = false).
Proof. repeat split; vm_compute; reflexivity. Qed.

(** C2 (amended): when no package name is empty and all versions of the
    cache and all bounds are well formed, a solution returned by
    [solveDependencies] gives every selected package the version of a
    release of the cache whose declared dependencies it all satisfies (of
    every release with that version string, where a package has no two of
    them), and satisfies every root constraint. *)
Theorem solveDependencies_sound (fuel : nat) (packageCache : IElmPackageCache)
    (deps : gmap string IConstraint) (sol : gmap string IVersion) :
  wf_cache packageCache → wf_deps deps →
  solveDependencies fuel packageCache deps = Some (Some sol) →
  (∀ p v, sol !! p = Some v →
          ∃ e, In e (packageCache p) ∧ version e = v ∧
               ∀ q c, dependencies e !! q = Some c →
                      ∃ w, sol !! q = Some w ∧ versionSatifiesConstraint w c = true) ∧
  (versions_unique packageCache →
   ∀ p v e, sol !! p = Some v → In e (packageCache p) →
            IVersion.string (version e) = IVersion.string v →
            ∀ q c, dependencies e !! q = Some c →
                   ∃ w, sol !! q = Some w ∧ versionSatifiesConstraint w c = true) ∧
  (∀ q c, deps !! q = Some c →
          ∃ w, sol !! q = Some w ∧ versionSatifiesConstraint w c = true).
Proof.
  intros Hcache Hdeps. unfold solveDependencies.
  destruct (solveDependenciesWorker fuel packageCache deps ∅) as [[r|]|] eqn:Hr; try done.
  intros [= <-].
  destruct (solveDependenciesWorker_sound packageCache fuel Hcache) as [Hsound _].
  destruct (Hsound deps ∅ r Hdeps) as (_ & _ & _ & Hsat & Hclosed); [done..|].
  assert (∀ p v, SolverResult.solutions r !! p = Some v →
            release_selected packageCache (SolverResult.solutions r) p v) as Hsel.
  { intros p v Hp. by destruct (Hclosed _ _ Hp) as [?|?]. }
  repeat split; [apply Hsel| |apply Hsat].
  intros Huniq p v e Hp He Hstr.
  destruct (Hsel _ _ Hp) as (e' & He' & <- & Hsat').
  by rewrite (Huniq p e e' He He' Hstr).
Qed.

(** ** The order of the candidates *)

Lemma candidate_compare_zero a b : candidate_compare a b = 0%Z.
Proof. reflexivity. Qed.

Lemma sort_constant_zero {A} (cmp : A → A → Z) l :
  (∀ a b, cmp a b = 0%Z) → JS.sort cmp l = l.
Proof.
  intros Hc. induction l as [|x l IH]; simpl; [done|].
  rewrite IH. destruct l as [|y l]; simpl; [done|]. by rewrite Hc.
Qed.

(** The comparison function of the candidates compares two objects with
    [<] and [>], not their versions: it always answers 0, the sort moves
    nothing, and the candidates are visited in the reverse of the order
    of the cache. *)
Lemma candidates_for_reverse packageCache name c sols :
  sols !! name = None →
  candidates_for packageCache name c sols
  = rev (List.filter (λ p, versionSatifiesConstraint (version p) c) (packageCache name)).
Proof.
  intros Hs. unfold candidates_for. rewrite Hs.
  by rewrite (sort_constant_zero _ _ candidate_compare_zero).
Qed.

(** C3, failing input: the candidates are visited in the reverse of the
    order of the cache, whatever their versions.  On the solver scenario of
    the spec, with the releases of [P] listed as the spec lists them, both
    satisfy the pending constraint, the older [1.4.0] is tried before the
    newer [1.5.0], and the solver returns [P = 1.4.0, Q = 2.1.0]. *)
Theorem solveDependencies_scenario_oldest_first :
  (∀ (packageCache : IElmPackageCache) name c,
     candidates_for packageCache name c ∅
     = rev (List.filter (λ p, versionSatifiesConstraint (version p) c) (packageCache name))) ∧
  List.filter (λ p, versionSatifiesConstraint (version p) c_100_200) (scenario_cache "P")
  = scenario_cache "P" ∧
  candidates_for scenario_cache "P" c_100_200 ∅ = [P140; P150] ∧
  versionCompare v140 v150 = (-1)%Z ∧
  solveDependencies 10 scenario_cache scenario_root
  = Some (Some {[ "P" := v140; "Q" := v210 ]}).
Proof.
  split; [intros; by apply candidates_for_reverse|].
  repeat split; vm_compute; reflexivity.
Qed.

(** ** Termination of the solver *)

Lemma sum_list_with_le {A} (f g : A → nat) l :
  (∀ x, x ∈ l → f x ≤ g x) → sum_list_with f l ≤ sum_list_with g l.
Proof.
  induction l as [|x l IH]; intros H; simpl; [lia|].
  pose proof (H x ltac:(set_solver)). pose proof (IH ltac:(set_solver)). lia.
Qed.

Lemma sum_list_with_submseteq {A} (f : A → nat) l k :
  l ⊆+ k → sum_list_with f l ≤ sum_list_with f k.
Proof. induction 1; simpl; lia. Qed.

Lemma cost_S packageCache n p : cost packageCache n p ≤ cost packageCache (S n) p.
Proof.
  revert p. induction n as [|n IH]; intros p; [simpl; lia|].
  change (cost packageCache (S (S n)) p) with
    (1 + sum_list_with
           (λ e, sum_list_with (cost packageCache (S n)) (elements (dom (dependencies e))))
           (packageCache p)).
  change (cost packageCache (S n) p) with
    (1 + sum_list_with
           (λ e, sum_list_with (cost packageCache n) (elements (dom (dependencies e))))
           (packageCache p)).
  apply le_n_S, sum_list_with_le. intros e _. apply sum_list_with_le. intros q _. apply IH.
Qed.

Lemma cost_mono packageCache m n p : m ≤ n → cost packageCache m p ≤ cost packageCache n p.
Proof.
  induction 1 as [|n _ IH]; [done|]. etrans; [apply IH | apply cost_S].
Qed.

Lemma release_weight packageCache depth p e :
  (∀ p e q, In e (packageCache p) → is_Some (dependencies e !! q) → depth q < depth p) →
  In e (packageCache p) →
  sum_list_with (weight packageCache depth) (elements (dom (dependencies e)))
  < weight packageCache depth p.
Proof.
  intros Hdepth He. unfold weight at 2.
  assert (∀ q, q ∈ elements (dom (dependencies e)) → depth q < depth p) as Hq.
  { intros q Hin. apply (Hdepth p e q He). by apply elem_of_dom, elem_of_elements. }
  destruct (depth p) as [|n] eqn:Hn.
  - destruct (elements (dom (dependencies e))) as [|q l]; simpl; [lia|].
    specialize (Hq q ltac:(set_solver)). lia.
  - change (cost packageCache (S n) p) with
      (1 + sum_list_with
             (λ e, sum_list_with (cost packageCache n) (elements (dom (dependencies e))))
             (packageCache p)).
    apply Nat.lt_succ_r. etrans; [|apply (sum_list_with_in e); by apply list_elem_of_In].
    apply sum_list_with_le. intros q Hin. apply cost_mono. specialize (Hq q Hin). lia.
Qed.

Lemma measure_delete packageCache depth deps name c :
  deps !! name = Some c →
  measure packageCache depth deps
  = weight packageCache depth name + measure packageCache depth (delete name deps).
Proof.
  intros Hname. unfold measure.
  assert (dom deps = {[name]} ∪ dom (delete name deps)) as ->.
  { rewrite dom_delete_L. apply union_difference_singleton_L, elem_of_dom. eauto. }
  rewrite elements_union_singleton; [done|].
  rewrite dom_delete_L. set_solver.
Qed.

Lemma measure_combineDeps packageCache depth a b d :
  combineDeps a b = Some d →
  measure packageCache depth d ≤ measure packageCache depth a + measure packageCache depth b.
Proof.
  intros Hd. unfold measure.
  assert (dom d ⊆ dom a ∪ dom b) as Hsub.
  { intros k [x Hk]%elem_of_dom. rewrite (proj1 (combineDeps_lookup _ _ _ k Hd)) in Hk.
    unfold combine_at in Hk. rewrite elem_of_union, !elem_of_dom.
    destruct (a !! k), (b !! k); naive_solver. }
  etrans; [apply sum_list_with_submseteq, elements_submseteq, Hsub|].
  assert (dom a ∪ dom b = dom a ∪ (dom b ∖ dom a)) as ->.
  { apply set_eq. intros k. rewrite !elem_of_union, elem_of_difference.
    destruct (decide (k ∈ dom a)); naive_solver. }
  rewrite elements_disj_union by set_solver. rewrite sum_list_with_app.
  apply Nat.add_le_mono_l, sum_list_with_submseteq, elements_submseteq. set_solver.
Qed.

Lemma candidates_loop_terminates packageCache depth n name c deps sols :
  (∀ p e q, In e (packageCache p) → is_Some (dependencies e !! q) → depth q < depth p) →
  (∀ deps' sols', measure packageCache depth deps' < n →
     ∃ r, solveDependenciesWorker n packageCache deps' sols' = Some r ∧ returns_settled r) →
  deps !! name = Some c → measure packageCache depth deps < S n →
  ∀ candidates, (∀ e, In e candidates → In e (packageCache name)) →
  ∃ r, candidates_loop (solveDependenciesWorker n packageCache) name (delete name deps)
         sols candidates = Some r ∧ returns_settled r.
Proof.
  intros Hdepth IH Hname Hm.
  induction candidates as [|e candidates IHc]; intros Hin; simpl.
  { exists None. by split. }
  assert (∀ e', In e' candidates → In e' (packageCache name)) as Hin'
    by (intros; apply Hin; by right).
  destruct (combineDeps (delete name deps) (dependencies e)) as [tdeps|] eqn:Ht; [|by apply IHc].
  assert (measure packageCache depth tdeps < n) as Hlt.
  { pose proof (measure_combineDeps packageCache depth _ _ _ Ht).
    pose proof (measure_delete packageCache depth _ _ _ Hname).
    pose proof (release_weight packageCache depth name e Hdepth (Hin e (or_introl eq_refl))).
    unfold measure in *. lia. }
  destruct (IH tdeps (<[name:=version e]> sols) Hlt) as ([out|] & -> & Hset); [|by apply IHc].
  specialize (Hset out eq_refl).
  destruct n as [|n]; [lia|]. rewrite solveDependenciesWorker_S.
  destruct (pickDep (SolverResult.pending out)) as [[[name' c']|] rest] eqn:Hpick;
    [simpl in Hset; done|].
  eexists. split; [done|]. intros out' [= <-].
  cbn [SolverResult.pending]. by rewrite Hpick.
Qed.

Lemma solveDependenciesWorker_terminates_measure packageCache depth :
  (∀ p e q, In e (packageCache p) → is_Some (dependencies e !! q) → depth q < depth p) →
  ∀ n deps sols, measure packageCache depth deps < n →
    ∃ r, solveDependenciesWorker n packageCache deps sols = Some r ∧ returns_settled r.
Proof.
  intros Hdepth. induction n as [|n IH]; intros deps sols Hm; [lia|].
  rewrite solveDependenciesWorker_S.
  destruct (pickDep deps) as [[[name c]|] rest] eqn:Hpick.
  - apply pickDep_Some in Hpick as (_ & Hname & ->).
    eapply candidates_loop_terminates; eauto.
    intros e. apply candidates_for_In.
  - eexists. split; [done|]. intros out [= <-].
    cbn [SolverResult.pending]. by rewrite Hpick.
Qed.

(** More fuel does not change an outcome. *)
Lemma candidates_loop_mono
    (recurse recurse' : gmap string IConstraint → gmap string IVersion → option SolverResult)
    name rest sols candidates r :
  (∀ deps' sols' r', recurse deps' sols' = Some r' → recurse' deps' sols' = Some r') →
  candidates_loop recurse name rest sols candidates = Some r →
  candidates_loop recurse' name rest sols candidates = Some r.
Proof.
  intros Hmono. induction candidates as [|e candidates IH]; simpl; [done|].
  destruct (combineDeps rest (dependencies e)) as [tdeps|]; [|done].
  destruct (recurse tdeps (<[name:=version e]> sols)) as [r1|] eqn:Hr1; [|done].
  rewrite (Hmono _ _ _ Hr1). destruct r1 as [out|]; [apply Hmono | done].
Qed.

Lemma solveDependenciesWorker_fuel_mono packageCache n :
  ∀ m deps sols r, n ≤ m →
    solveDependenciesWorker n packageCache deps sols = Some r →
    solveDependenciesWorker m packageCache deps sols = Some r.
Proof.
  induction n as [|n IH]; intros m deps sols r Hle; [done|].
  destruct m as [|m]; [lia|]. rewrite !solveDependenciesWorker_S.
  destruct (pickDep deps) as [[[name c]|] rest]; [|done].
  apply candidates_loop_mono. intros deps' sols' r'. apply IH. lia.
Qed.

(** C5, as stated, fails: a cache with one release of [P] that depends
    on [P] is finite, and the worker calls itself for ever on it: the
    package it has just solved comes back into the pending map. *)
Lemma solveDependenciesWorker_terminates_counterexample :
  ¬ ∃ fuel r,
      solveDependenciesWorker fuel self_cache {[ "P" := c_100_200 ]} ∅ = Some r.
Proof.
  assert (∀ fuel sols, sols = ∅ ∨ sols = {[ "P" := v100 ]} →
            solveDependenciesWorker fuel self_cache {[ "P" := c_100_200 ]} sols = None) as H.
  { induction fuel as [|fuel IH]; intros sols Hs; [done|].
    assert (solveDependenciesWorker (S fuel) self_cache {[ "P" := c_100_200 ]} sols
            = match solveDependenciesWorker fuel self_cache {[ "P" := c_100_200 ]}
                      {[ "P" := v100 ]} with
              | None => None
              | Some None => Some None
              | Some (Some result) =>
                  solveDependenciesWorker fuel self_cache
                    (SolverResult.pending result) (SolverResult.solutions result)
              end) as ->.
    { destruct Hs as [-> | ->]; reflexivity. }
    rewrite IH; auto. }
  intros (fuel & r & Hr). rewrite H in Hr; auto. done.
Qed.

(** C5 (amended): when the dependency relation of the cache is well
    founded, [solveDependenciesWorker] returns on every pending map and
    every partial solution: from some amount of fuel on it gives one and
    the same result. *)
Theorem solveDependenciesWorker_terminates (packageCache : IElmPackageCache)
    (deps : gmap string IConstraint) (sols : gmap string IVersion) :
  acyclic packageCache →
  ∃ fuel r, ∀ n, fuel ≤ n →
    solveDependenciesWorker n packageCache deps sols = Some r.
Proof.
  intros [depth Hdepth].
  destruct (solveDependenciesWorker_terminates_measure packageCache depth Hdepth
              (S (measure packageCache depth deps)) deps sols) as (r & Hr & _); [lia|].
  exists (S (measure packageCache depth deps)), r. intros n Hn.
  by apply (solveDependenciesWorker_fuel_mono _ _ _ _ _ _ Hn).
Qed.

(** ** The move refactoring handler *)

Section move.
Import MoveRefactoringHandler.
Context `{C : Collaborators}.

Lemma keeps_push u e : keeps (push u e).
Proof.
  intros changes. unfold push. split.
  - intros u' [l Hl]. rewrite lookup_alter. case_decide; subst; rewrite Hl; eauto.
  - intros u' e' (l & Hl & He). unfold has_edit. rewrite lookup_alter.
    case_decide; subst; rewrite Hl; simpl; eexists; split; eauto. set_solver.
Qed.

Lemma keeps_push_opt u e : keeps (push_opt u e).
Proof. destruct e; [apply keeps_push | by split]. Qed.

Lemma keeps_insert_fresh u :
  keeps (λ changes, match changes !! u with Some _ => changes | None => <[u := []]> changes end).
Proof.
  intros changes. destruct (changes !! u) eqn:Hu; [by split|]. split.
  - intros u' Hs. destruct (decide (u = u')) as [->|]; [by rewrite lookup_insert_eq|].
    by rewrite lookup_insert_ne.
  - intros u' e' (l & Hl & He). exists l. split; [|done].
    rewrite lookup_insert_ne; [done|]. congruence.
Qed.

Lemma keeps_compose f g : keeps f → keeps g → keeps (λ changes, g (f changes)).
Proof.
  intros Hf Hg changes. destruct (Hf changes), (Hg (f changes)). split; eauto.
Qed.

Lemma keeps_remove_import_step forest dest m f u :
  keeps (λ changes, remove_import_step forest dest m f changes u).
Proof.
  unfold remove_import_step.
  destruct (getTree forest u); [destruct (truthy (name dest))|];
    try apply (keeps_insert_fresh u).
  apply (keeps_compose _ (push_opt u _) (keeps_insert_fresh u)), keeps_push_opt.
Qed.

Lemma keeps_add_import_step forest params h d f u :
  keeps (λ changes, add_import_step forest params h d f changes u).
Proof.
  unfold add_import_step.
  destruct (bool_decide (u = sourceUri params) && negb h); [by split|].
  destruct (getTree forest u); [apply keeps_push_opt | by split].
Qed.

Lemma keeps_foldl (step : gmap string (list TextEdit) → string → gmap string (list TextEdit)) us :
  (∀ u, keeps (λ changes, step changes u)) → keeps (λ changes, foldl step changes us).
Proof.
  intros Hstep. induction us as [|u us IH]; simpl; [by split|].
  apply (keeps_compose (λ changes, step changes u) _ (Hstep u) IH).
Qed.

Lemma has_edit_push changes u e : is_Some (changes !! u) → has_edit (push u e changes) u e.
Proof.
  intros [l Hl]. exists (l ++ [e]). unfold push.
  rewrite lookup_alter, decide_True, Hl by done. split; [done|set_solver].
Qed.

(** After a [forEach], what the step does for a visited URI is done. *)
Lemma foldl_step_has_edit
    (step : gmap string (list TextEdit) → string → gmap string (list TextEdit))
    (I : gmap string (list TextEdit) → Prop) us u e :
  (∀ u', keeps (λ changes, step changes u')) →
  (∀ changes u', I changes → I (step changes u')) →
  (∀ changes, I changes → has_edit (step changes u) u e) →
  u ∈ us → ∀ changes, I changes → has_edit (foldl step changes us) u e.
Proof.
  intros Hkeeps HI Hstep. induction us as [|u' us IH]; intros Hin changes Hch; simpl.
  { by apply elem_of_nil in Hin. }
  apply elem_of_cons in Hin as [<-|Hin]; [|by apply IH, HI].
  apply (keeps_foldl step us Hkeeps). by apply Hstep.
Qed.

Lemma foldl_step_bound
    (step : gmap string (list TextEdit) → string → gmap string (list TextEdit)) us u :
  (∀ u', keeps (λ changes, step changes u')) →
  (∀ changes, is_Some (step changes u !! u)) →
  u ∈ us → ∀ changes, is_Some (foldl step changes us !! u).
Proof.
  intros Hkeeps Hstep. induction us as [|u' us IH]; intros Hin changes; simpl.
  { by apply elem_of_nil in Hin. }
  apply elem_of_cons in Hin as [<-|Hin]; [|by apply IH].
  apply (keeps_foldl step us Hkeeps). apply Hstep.
Qed.

Lemma Set_from_elem seen l u : u ∈ Set_from seen l ↔ u ∈ l ∧ u ∉ seen.
Proof.
  revert seen. induction l as [|x l IH]; intros seen; simpl; [set_solver|].
  case_bool_decide.
  - rewrite IH. set_solver.
  - rewrite elem_of_cons, IH. destruct (decide (u = x)); set_solver.
Qed.

Lemma referenceUris_elem references u :
  u ∈ referenceUris references ↔ ∃ ref, ref ∈ references ∧ ref_uri ref = u.
Proof.
  unfold referenceUris. rewrite Set_from_elem, list_elem_of_fmap. set_solver.
Qed.

Lemma remainingUris_elem dest references u :
  u ∈ remainingUris dest references ↔
  (∃ ref, ref ∈ references ∧ ref_uri ref = u) ∧ u ≠ uri dest.
Proof.
  unfold remainingUris. rewrite list_elem_of_In, filter_In, <- list_elem_of_In.
  rewrite referenceUris_elem, negb_true_iff, bool_decide_eq_false. done.
Qed.

Lemma remove_import_step_bound forest dest m f changes u :
  is_Some (remove_import_step forest dest m f changes u !! u).
Proof.
  assert (is_Some (match changes !! u with
                   | Some _ => changes
                   | None => <[u := []]> changes
                   end !! u)) as Hb.
  { destruct (changes !! u) eqn:Hu; [by rewrite Hu|by rewrite lookup_insert_eq]. }
  unfold remove_import_step.
  destruct (getTree forest u); [destruct (truthy (name dest))|]; try done.
  by apply keeps_push_opt.
Qed.

Lemma remove_import_step_has_edit forest dest m f changes u refTree e :
  getTree forest u = Some refTree → truthy (name dest) = true →
  removeValueFromImport refTree m f = Some e →
  has_edit (remove_import_step forest dest m f changes u) u e.
Proof.
  intros Ht Hn He. unfold remove_import_step. rewrite Ht, Hn, He. simpl.
  apply has_edit_push.
  destruct (changes !! u) eqn:Hu; [by rewrite Hu|by rewrite lookup_insert_eq].
Qed.

Lemma add_import_step_has_edit forest params h d f changes u refTree e :
  (u = sourceUri params → h = true) →
  getTree forest u = Some refTree → addImport refTree d f = Some e →
  is_Some (changes !! u) →
  has_edit (add_import_step forest params h d f changes u) u e.
Proof.
  intros Hsrc Ht He Hb. unfold add_import_step.
  assert (bool_decide (u = sourceUri params) && negb h = false) as ->.
  { case_bool_decide; [by rewrite Hsrc|done]. }
  rewrite Ht, He. by apply has_edit_push.
Qed.

(** The handler makes no call or one, whose edit set holds the edits of
    the move. *)
Lemma handleMoveRequest_stages (params : MoveParams) (elmWorkspace : ElmWorkspace) :
  handleMoveRequest params elmWorkspace = [] ∨
  ∃ dest sourceTree destinationTree declaration tnode fname mname dname,
    destination params = Some dest ∧
    getTree (getForest elmWorkspace) (sourceUri params) = Some sourceTree ∧
    getTree (getForest elmWorkspace) (uri dest) = Some destinationTree ∧
    let staged :=
      staged_changes params elmWorkspace dest sourceTree destinationTree
        tnode declaration fname mname dname in
    let references := references_of params elmWorkspace declaration in
    handleMoveRequest params elmWorkspace = [ {| changes := staged |} ] ∧
    has_edit staged (sourceUri params) (removal tnode declaration) ∧
    has_edit staged (uri dest) (insertion destinationTree tnode declaration) ∧
    (∀ e, unexposedValueInModule sourceTree fname = Some e →
          has_edit staged (sourceUri params) e) ∧
    (∀ e, exposeValueInModule destinationTree fname = Some e →
          remainingUris dest references ≠ [] → has_edit staged (uri dest) e) ∧
    (∀ ref refTree e,
       ref ∈ references →
       getTree (getForest elmWorkspace) (ref_uri ref) = Some refTree →
       truthy (name dest) = true →
       removeValueFromImport refTree mname fname = Some e →
       has_edit staged (ref_uri ref) e) ∧
    (∀ ref refTree e,
       ref ∈ references → ref_uri ref ≠ uri dest →
       (ref_uri ref = sourceUri params →
        sourceHasReference params references tnode declaration = true) →
       getTree (getForest elmWorkspace) (ref_uri ref) = Some refTree →
       addImport refTree dname fname = Some e →
       has_edit staged (ref_uri ref) e).
Proof.
  unfold handleMoveRequest.
  destruct (destination params) as [dest|]; [|by left].
  destruct (getTree (getForest elmWorkspace) (sourceUri params)) as [sourceTree|]; [|by left].
  destruct (getTree (getForest elmWorkspace) (uri dest)) as [destinationTree|] eqn:Hdest;
    [|by left].
  set (nodeAtPosition := getNamedDescendantForPosition _ _).
  destruct (declarationNode nodeAtPosition) as [declaration|]; [|by left].
  destruct (functionName nodeAtPosition) as [fname|]; [|by left].
  destruct (text <$> getModuleNameNode sourceTree) as [mname|]; [|by left].
  destruct (text <$> getModuleNameNode destinationTree) as [dname|]; [|by left].
  destruct (truthy fname && truthy mname && truthy dname); [|by left].
  right. exists dest, sourceTree, destinationTree, declaration, (typeNode nodeAtPosition),
    fname, mname, dname.
  do 3 (split; [done|]). cbv zeta.
  set (tnode := typeNode nodeAtPosition).
  set (staged := staged_changes params elmWorkspace dest sourceTree destinationTree
                   tnode declaration fname mname dname).
  set (references := references_of params elmWorkspace declaration).
  split; [done|].
  set (forest := getForest elmWorkspace) in *.
  set (hasReference := sourceHasReference params references tnode declaration).
  set (changes0 := <[uri dest := []]> (<[sourceUri params := []]> ∅)
                   : gmap string (list TextEdit)).
  set (changes1 := push (sourceUri params) (removal tnode declaration) changes0).
  set (changes2 := push (uri dest) (insertion destinationTree tnode declaration) changes1).
  set (changes3 := push_opt (sourceUri params)
                     (unexposedValueInModule sourceTree fname) changes2).
  set (changes4 := foldl (remove_import_step forest dest mname fname) changes3
                     (referenceUris references)).
  set (changes5 := if (0 <? length (remainingUris dest references))%nat
                   then push_opt (uri dest) (exposeValueInModule destinationTree fname) changes4
                   else changes4).
  assert (staged = foldl (add_import_step forest params hasReference dname fname)
                     changes5 (remainingUris dest references)) as Hstaged by reflexivity.
  pose proof (keeps_foldl _ (referenceUris references)
                (keeps_remove_import_step forest dest mname fname)) as K4.
  pose proof (keeps_foldl _ (remainingUris dest references)
                (keeps_add_import_step forest params hasReference dname fname)) as K6.
  assert (keeps (λ changes,
            if (0 <? length (remainingUris dest references))%nat
            then push_opt (uri dest) (exposeValueInModule destinationTree fname) changes
            else changes)) as K5.
  { destruct (0 <? _)%nat; [apply keeps_push_opt | by split]. }
  assert (is_Some (changes0 !! sourceUri params) ∧ is_Some (changes0 !! uri dest)) as [B0s B0d].
  { unfold changes0. split.
    - destruct (decide (uri dest = sourceUri params)) as [->|];
        [by rewrite lookup_insert_eq|].
      by rewrite lookup_insert_ne, lookup_insert_eq.
    - by rewrite lookup_insert_eq. }
  assert (∀ u e, has_edit changes3 u e → has_edit staged u e) as From3.
  { intros u e H. rewrite Hstaged. apply K6, K5, K4, H. }
  assert (∀ u, is_Some (changes0 !! u) → is_Some (changes4 !! u)) as Bound4.
  { intros u H. apply K4, keeps_push_opt, keeps_push, keeps_push, H. }
  repeat split.
  - apply From3, keeps_push_opt, keeps_push. by apply has_edit_push.
  - apply From3, keeps_push_opt. apply has_edit_push. by apply keeps_push.
  - intros e He. apply From3. unfold changes3. rewrite He. simpl.
    apply has_edit_push. by do 2 apply keeps_push.
  - intros e He Hne. rewrite Hstaged. apply K6. unfold changes5.
    destruct (remainingUris dest references) as [|u us] eqn:Hrem; [done|]. simpl.
    rewrite He. simpl. apply has_edit_push, Bound4, B0d.
  - intros ref refTree e Href Ht Hn He. rewrite Hstaged. apply K6, K5.
    apply (foldl_step_has_edit _ (λ _, True)); try done.
    + apply keeps_remove_import_step.
    + intros changes _. by eapply remove_import_step_has_edit.
    + apply referenceUris_elem. eauto.
  - intros ref refTree e Href Hnd Hsrc Ht He. rewrite Hstaged.
    apply (foldl_step_has_edit _ (λ changes, is_Some (changes !! ref_uri ref))).
    + apply keeps_add_import_step.
    + intros changes u' H. by apply (keeps_add_import_step forest params hasReference dname fname u').
    + intros changes Hb. by eapply add_import_step_has_edit.
    + apply remainingUris_elem. eauto.
    + apply K5. apply foldl_step_bound.
      * apply keeps_remove_import_step.
      * intros changes. apply remove_import_step_bound.
      * apply referenceUris_elem. eauto.
Qed.

(** When the conditions hold the handler makes the call, with the staged
    edit set. *)
Lemma handleMoveRequest_applies (params : MoveParams) (elmWorkspace : ElmWorkspace)
    dest sourceTree destinationTree declaration fname mname dname :
  move_applies params elmWorkspace dest sourceTree destinationTree
    declaration fname mname dname →
  handleMoveRequest params elmWorkspace
  = [ {| changes :=
           staged_changes params elmWorkspace dest sourceTree destinationTree
             (typeNode (getNamedDescendantForPosition (rootNode sourceTree)
                          (range_start (params_range params))))
             declaration fname mname dname |} ].
Proof.
  intros (Hdest & Hs & Hd & Hdecl & Hf & Hm & Hdm & Hfne & Hmne & Hdne).
  unfold handleMoveRequest. rewrite Hdest, Hs, Hd. cbv zeta.
  rewrite Hdecl, Hf, Hm, Hdm. unfold truthy.
  by rewrite !bool_decide_eq_false_2.
Qed.

(** A call is made under these conditions only. *)
Lemma handleMoveRequest_applies_inv (params : MoveParams) (elmWorkspace : ElmWorkspace) :
  handleMoveRequest params elmWorkspace ≠ [] →
  ∃ dest sourceTree destinationTree declaration fname mname dname,
    move_applies params elmWorkspace dest sourceTree destinationTree
      declaration fname mname dname.
Proof.
  unfold handleMoveRequest, move_applies.
  destruct (destination params) as [dest|]; [|done].
  destruct (getTree (getForest elmWorkspace) (sourceUri params)) as [sourceTree|]; [|done].
  destruct (getTree (getForest elmWorkspace) (uri dest)) as [destinationTree|] eqn:Hd;
    [|done].
  cbv zeta.
  destruct (declarationNode _) as [declaration|] eqn:Hdecl; [|done].
  destruct (functionName _) as [fname|] eqn:Hf; [|done].
  destruct (text <$> getModuleNameNode sourceTree) as [mname|] eqn:Hm; [|done].
  destruct (text <$> getModuleNameNode destinationTree) as [dname|] eqn:Hdm; [|done].
  unfold truthy.
  destruct (decide (fname = EmptyString)) as [->|Hfne]; [done|].
  destruct (decide (mname = EmptyString)) as [->|Hmne];
    [by rewrite andb_false_r|].
  destruct (decide (dname = EmptyString)) as [->|Hdne];
    [by rewrite andb_false_r|].
  intros _. exists dest, sourceTree, destinationTree, declaration, fname, mname, dname.
  by rewrite Hd.
Qed.

(** C8: [handleMoveRequest] calls [applyEdit] at most once, and when it
    does, the one edit set it passes holds the removal from the source
    file, the insertion into the destination, the unexposing and exposing
    edits, and for every file with a reference the edit that removes the
    old import and the edit that adds the new one.  It makes the call
    exactly when the request names a destination, the forest has the two
    trees, the declaration and its name are found from the node under the
    cursor and both modules have a name, no name being empty; the edit
    set is then the one staged from these. *)
Theorem handleMoveRequest_single_applyEdit (params : MoveParams) (elmWorkspace : ElmWorkspace) :
  (handleMoveRequest params elmWorkspace = [] ∨
  ∃ dest sourceTree destinationTree declaration tnode fname mname dname,
    destination params = Some dest ∧
    getTree (getForest elmWorkspace) (sourceUri params) = Some sourceTree ∧
    getTree (getForest elmWorkspace) (uri dest) = Some destinationTree ∧
    let staged :=
      staged_changes params elmWorkspace dest sourceTree destinationTree
        tnode declaration fname mname dname in
    let references := references_of params elmWorkspace declaration in
    handleMoveRequest params elmWorkspace = [ {| changes := staged |} ] ∧
    has_edit staged (sourceUri params) (removal tnode declaration) ∧
    has_edit staged (uri dest) (insertion destinationTree tnode declaration) ∧
    (∀ e, unexposedValueInModule sourceTree fname = Some e →
          has_edit staged (sourceUri params) e) ∧
    (∀ e, exposeValueInModule destinationTree fname = Some e →
          remainingUris dest references ≠ [] → has_edit staged (uri dest) e) ∧
    (∀ ref refTree e,
       ref ∈ references →
       getTree (getForest elmWorkspace) (ref_uri ref) = Some refTree →
       truthy (name dest) = true →
       removeValueFromImport refTree mname fname = Some e →
       has_edit staged (ref_uri ref) e) ∧
    (∀ ref refTree e,
       ref ∈ references → ref_uri ref ≠ uri dest →
       (ref_uri ref = sourceUri params →
        sourceHasReference params references tnode declaration = true) →
       getTree (getForest elmWorkspace) (ref_uri ref) = Some refTree →
       addImport refTree dname fname = Some e →
       has_edit staged (ref_uri ref) e)) ∧
  (∀ dest sourceTree destinationTree declaration fname mname dname,
     move_applies params elmWorkspace dest sourceTree destinationTree
       declaration fname mname dname →
     handleMoveRequest params elmWorkspace
     = [ {| changes :=
              staged_changes params elmWorkspace dest sourceTree destinationTree
                (typeNode (getNamedDescendantForPosition (rootNode sourceTree)
                             (range_start (params_range params))))
                declaration fname mname dname |} ]) ∧
  (handleMoveRequest params elmWorkspace ≠ [] ↔
   ∃ dest sourceTree destinationTree declaration fname mname dname,
     move_applies params elmWorkspace dest sourceTree destinationTree
       declaration fname mname dname).
Proof.
  split; [apply handleMoveRequest_stages|].
  split; [apply handleMoveRequest_applies|].
  split; [apply handleMoveRequest_applies_inv|].
  intros (dest & sourceTree & destinationTree & declaration & fname & mname & dname & H).
  by rewrite (handleMoveRequest_applies _ _ _ _ _ _ _ _ _ H).
Qed.
End move.

Section move_destinations.
Import MoveRefactoringHandler.
Context `{C : Collaborators}.

(** C10: the destinations are, in the order of the index, one per tree of
    [forest.treeIndex] that is writeable and whose URI is not the source
    URI, each carrying the URI of its tree; so every destination comes from
    a writeable tree and none has the source URI. *)
Theorem handleGetMoveDestinationsRequest_destinations
    (params : MoveParams) (elmWorkspace : ElmWorkspace) :
  let destinations := handleGetMoveDestinationsRequest params elmWorkspace in
  let selected :=
    List.filter
      (λ t, writeable t && negb (bool_decide (tree_uri t = sourceUri params)))
      (treeIndex (getForest elmWorkspace)) in
  Forall2 (λ d t, d = destination_of elmWorkspace t ∧ uri d = tree_uri t)
    destinations selected ∧
  length destinations = length selected ∧
  (∀ t, In t selected ↔
        In t (treeIndex (getForest elmWorkspace)) ∧ writeable t = true ∧
        tree_uri t ≠ sourceUri params) ∧
  (∀ d, In d destinations →
        uri d ≠ sourceUri params ∧
        ∃ t, In t (treeIndex (getForest elmWorkspace)) ∧ writeable t = true ∧
             tree_uri t = uri d).
Proof.
  intros destinations selected.
  assert (∀ t, In t selected ↔
            In t (treeIndex (getForest elmWorkspace)) ∧ writeable t = true ∧
            tree_uri t ≠ sourceUri params) as Hsel.
  { intros t. unfold selected.
    rewrite filter_In, andb_true_iff, negb_true_iff, bool_decide_eq_false. done. }
  assert (destinations = map (destination_of elmWorkspace) selected) as -> by reflexivity.
  split; [|split; [|split]].
  - clear Hsel. induction selected as [|t l IH]; simpl; constructor; [done|apply IH].
  - apply length_map.
  - exact Hsel.
  - intros d (t & <- & Ht)%in_map_iff. apply Hsel in Ht as (? & ? & ?).
    split; [done|]. by exists t.
Qed.
End move_destinations.

(** ** The hover provider *)

Section hover.
Import HoverProvider.
Context `{C : Collaborators}.

Lemma specialMatch_None nodeAtPosition :
  (∀ a, In a getEmptyTypes → empty_type_name a ≠ text nodeAtPosition) →
  specialMatch nodeAtPosition = None.
Proof.
  intros H. unfold specialMatch.
  destruct (List.find _ getEmptyTypes) as [a|] eqn:Ha; [|done].
  apply find_some in Ha as [Hin Heq]. apply bool_decide_eq_true in Heq.
  by destruct (H a Hin).
Qed.

(** C9: [handleHoverRequest] returns [undefined], and raises nothing, when
    the forest has no tree for the URI, and when the node at the position
    is found, no definition resolves for it, and its text is the name of no
    empty type. *)
Theorem handleHoverRequest_absent
    (params : TextDocumentPositionParams) (elmWorkspace : IElmWorkspace) :
  (getByUri (getForest elmWorkspace) (textDocument_uri params) = None →
   (handleHoverRequest params elmWorkspace).2 = normal None) ∧
  (∀ container nodeAtPosition,
     getByUri (getForest elmWorkspace) (textDocument_uri params) = Some container →
     getNamedDescendantForPosition (rootNode (tree container)) (position params)
     = normal nodeAtPosition →
     findDefinitionNodeByReferencingNode nodeAtPosition (textDocument_uri params)
       (tree container) (getImports elmWorkspace) = normal None →
     (∀ a, In a getEmptyTypes → empty_type_name a ≠ text nodeAtPosition) →
     (handleHoverRequest params elmWorkspace).2 = normal None).
Proof.
  split.
  - intros H. unfold handleHoverRequest. simpl. by rewrite H.
  - intros container nodeAtPosition Hc Hn Hd Hnames.
    unfold handleHoverRequest. simpl. rewrite Hc, Hn. simpl. rewrite Hd. simpl.
    by rewrite specialMatch_None.
Qed.
End hover.

(** ** The statements at concrete inputs *)

(** C1, witness: [1.2.0] with [1.0.0 <= v < 2.0.0] and
    [1.2.0 <= v <= 3.0.0]. *)
Lemma constraintIntersect_satisfies_witness :
  wf_version v120 = true ∧ wf_constraint c_100_200 = true ∧ wf_constraint c_120_300 = true ∧
  ((versionSatifiesConstraint v120 c_100_200 = true ∧
    versionSatifiesConstraint v120 c_120_300 = true) ↔
   (satisfies_opt v120 (constraintIntersect c_100_200 c_120_300) = true ∨
    (constraintIntersect c_100_200 c_120_300 = None ∧
     ∃ l u, newLower c_100_200 c_120_300 = Some (l, OpLe) ∧
            newUpper c_100_200 c_120_300 = Some (u, OpLe) ∧
            versionCompare l v120 = 0%Z ∧ versionCompare v120 u = 0%Z))).
Proof.
  split; [reflexivity|]. split; [reflexivity|]. split; [reflexivity|].
  apply (constraintIntersect_satisfies v120 c_100_200 c_120_300); reflexivity.
Defined.

(** C7, witness: three well-formed constraints. *)
Lemma constraintIntersect_comm_assoc_witness :
  wf_constraint c_100_200 = true ∧ wf_constraint c_120_300 = true ∧
  wf_constraint c_200_300 = true ∧
  result_equiv (constraintIntersect c_100_200 c_120_300)
    (constraintIntersect c_120_300 c_100_200) ∧
  result_equiv
    (constraintIntersect_opt (constraintIntersect c_100_200 c_120_300) (Some c_200_300))
    (constraintIntersect_opt (Some c_100_200) (constraintIntersect c_120_300 c_200_300)) ∧
  (separated (bounds c_100_200 ++ bounds c_120_300 ++ bounds c_200_300) →
   constraintIntersect c_100_200 c_120_300 = constraintIntersect c_120_300 c_100_200 ∧
   constraintIntersect_opt (constraintIntersect c_100_200 c_120_300) (Some c_200_300)
   = constraintIntersect_opt (Some c_100_200) (constraintIntersect c_120_300 c_200_300)).
Proof.
  split; [reflexivity|]. split; [reflexivity|]. split; [reflexivity|].
  apply (constraintIntersect_comm_assoc c_100_200 c_120_300 c_200_300); reflexivity.
Defined.

(** C2, witness: the solver scenario of the spec. *)
Lemma solveDependencies_sound_witness :
  wf_cache scenario_cache ∧ wf_deps scenario_root ∧
  solveDependencies 10 scenario_cache scenario_root
  = Some (Some {[ "P" := v140; "Q" := v210 ]}) ∧
  (∀ p v, ({[ "P" := v140; "Q" := v210 ]} : gmap string IVersion) !! p = Some v →
          ∃ e, In e (scenario_cache p) ∧ version e = v ∧
               ∀ q c, dependencies e !! q = Some c →
                      ∃ w, ({[ "P" := v140; "Q" := v210 ]} : gmap string IVersion) !! q = Some w ∧
                           versionSatifiesConstraint w c = true) ∧
  (versions_unique scenario_cache →
   ∀ p v e, ({[ "P" := v140; "Q" := v210 ]} : gmap string IVersion) !! p = Some v →
            In e (scenario_cache p) →
            IVersion.string (version e) = IVersion.string v →
            ∀ q c, dependencies e !! q = Some c →
                   ∃ w, ({[ "P" := v140; "Q" := v210 ]} : gmap string IVersion) !! q = Some w ∧
                        versionSatifiesConstraint w c = true) ∧
  (∀ q c, scenario_root !! q = Some c →
          ∃ w, ({[ "P" := v140; "Q" := v210 ]} : gmap string IVersion) !! q = Some w ∧
               versionSatifiesConstraint w c = true).
Proof.
  assert (wf_deps scenario_root) as Hroot.
  { intros q c. unfold scenario_root.
    intros [<- <-]%lookup_singleton_Some. split; [discriminate | reflexivity]. }
  assert (wf_cache scenario_cache) as Hcache.
  { intros n p Hin. unfold scenario_cache in Hin.
    repeat case_bool_decide; simpl in Hin;
      repeat match goal with H : _ ∨ _ |- _ => destruct H as [<-|H] end;
      try done; (split; [reflexivity|]); intros q c; simpl;
      rewrite ?lookup_empty; try done;
      intros [<- <-]%lookup_singleton_Some; (split; [discriminate | reflexivity]). }
  assert (solveDependencies 10 scenario_cache scenario_root
          = Some (Some {[ "P" := v140; "Q" := v210 ]})) as Hrun
    by (vm_compute; reflexivity).
  split; [exact Hcache|]. split; [exact Hroot|]. split; [exact Hrun|].
  exact (solveDependencies_sound 10 scenario_cache scenario_root _ Hcache Hroot Hrun).
Defined.

(** C5, witness: the cache of the solver scenario, where [P] depends on
    [Q] and [Q] on nothing. *)
Lemma solveDependenciesWorker_terminates_witness :
  acyclic scenario_cache ∧
  ∃ fuel r, ∀ n, fuel ≤ n →
    solveDependenciesWorker n scenario_cache scenario_root ∅ = Some r.
Proof.
  assert (acyclic scenario_cache) as Hacyclic.
  { exists scenario_depth. intros p e q Hin [c Hq].
    unfold scenario_cache in Hin. unfold scenario_depth.
    repeat case_bool_decide; simpl in Hin; subst;
      repeat match goal with H : _ ∨ _ |- _ => destruct H as [<-|H] end;
      try done; simpl in Hq; rewrite ?lookup_empty in Hq; try done;
      apply lookup_singleton_Some in Hq as [<- _]; first [done | lia]. }
  split; [exact Hacyclic|].
  exact (solveDependenciesWorker_terminates scenario_cache scenario_root ∅ Hacyclic).
Defined.

(** C9, witness: a workspace that holds [Main.elm] only, with analyses
    that resolve nothing; a hover in another file and a hover on a node
    that reads "view". *)
Lemma handleHoverRequest_absent_witness :
  HoverProvider.getByUri (HoverProvider.getForest main_only_workspace) "file:///src/Other.elm"
  = None ∧
  (HoverProvider.handleHoverRequest (hover_at "file:///src/Other.elm") main_only_workspace).2
  = normal None ∧
  (HoverProvider.handleHoverRequest (hover_at "file:///src/Main.elm") main_only_workspace).2
  = normal None.
Proof.
  split; [reflexivity|]. split.
  - apply (proj1 (@handleHoverRequest_absent flat_tree_sitter blind_analyses
                    (hover_at "file:///src/Other.elm") main_only_workspace)).
    reflexivity.
  - apply (proj2 (@handleHoverRequest_absent flat_tree_sitter blind_analyses
                    (hover_at "file:///src/Main.elm") main_only_workspace)
             {| HoverProvider.tree := "view" : @Tree flat_tree_sitter |}
             ("view" : @SyntaxNode flat_tree_sitter));
      try reflexivity.
    intros a [<-|[]]. discriminate.
Defined.

(** C8, witness: the move of [f] from [A.elm] to [B.elm], with the cursor
    on the name in the annotation [f : Int] and a reference in [C.elm]:
    the conditions hold and the handler makes the one call. *)
Lemma handleMoveRequest_single_applyEdit_witness :
  @move_applies annotated_tree_sitter annotated_refactorings
    move_f three_modules to_B "A" "B" "f = 1" "f" "A" "B" ∧
  @MoveRefactoringHandler.handleMoveRequest annotated_tree_sitter annotated_refactorings
    move_f three_modules
  = [ {| MoveRefactoringHandler.changes :=
           @MoveRefactoringHandler.staged_changes annotated_tree_sitter annotated_refactorings
             move_f three_modules to_B "A" "B" (Some "f : Int") "f = 1" "f" "A" "B" |} ].
Proof.
  assert (@move_applies annotated_tree_sitter annotated_refactorings
            move_f three_modules to_B "A" "B" "f = 1" "f" "A" "B") as Happlies.
  { repeat split; try reflexivity; discriminate. }
  split; [exact Happlies|].
  exact (proj1 (proj2 (@handleMoveRequest_single_applyEdit
                         annotated_tree_sitter annotated_refactorings move_f three_modules))
           to_B "A" "B" "f = 1" "f" "A" "B" Happlies).
Defined.

(** * Further properties *)

(** ** The order of versions and the constraints *)

(** X1: exchanging the two arguments of [versionCompare] negates the
    result, for all versions, numeric or not. *)
Theorem versionCompare_antisymmetric (a b : IVersion) :
  versionCompare b a = (- versionCompare a b)%Z.
Proof.
  rewrite !versionCompare_components.
  repeat apply number_compare_opp. done.
Qed.

(** X2: on well-formed versions [versionCompare] is a total preorder whose
    equivalence is the equality of the three numbers: "not greater" is
    transitive, a strict step on either side makes the composite strict,
    and the result is 0 exactly when the three components are the same
    numbers. *)
Theorem versionCompare_transitive (a b c : IVersion) :
  wf_version a = true → wf_version b = true → wf_version c = true →
  (versionCompare a b ≠ 1%Z → versionCompare b c ≠ 1%Z → versionCompare a c ≠ 1%Z) ∧
  (versionCompare a b = (-1)%Z → versionCompare b c ≠ 1%Z → versionCompare a c = (-1)%Z) ∧
  (versionCompare a b ≠ 1%Z → versionCompare b c = (-1)%Z → versionCompare a c = (-1)%Z) ∧
  (versionCompare a b = 0%Z ↔
   component 0 a = component 0 b ∧ component 1 a = component 1 b ∧
   component 2 a = component 2 b).
Proof.
  intros Ha Hb Hc.
  rewrite (versionCompare_rank a b), (versionCompare_rank b c), (versionCompare_rank a c)
    by done.
  split; [|split; [|split]].
  1-3: unfold rank_compare;
       repeat (match goal with |- context [(?p <? ?q)%Z] => destruct (Z.ltb_spec p q) end);
       intros; try done; lia.
  rewrite <- (versionCompare_rank a b) by done.
  apply wf_version_components in Ha as (x1 & y1 & z1 & Hx1 & Hy1 & Hz1 & _).
  apply wf_version_components in Hb as (x2 & y2 & z2 & Hx2 & Hy2 & Hz2 & _).
  rewrite versionCompare_components, Hx1, Hy1, Hz1, Hx2, Hy2, Hz2.
  unfold number_compare. simpl.
  repeat (match goal with |- context [(?p <? ?q)%Z] => destruct (Z.ltb_spec p q) end);
    split; try done; try (intros (? & ? & ?); simplify_eq; lia).
  intros _. repeat split; f_equal; lia.
Qed.

(** X3: when a well-formed version satisfies a well-formed constraint,
    the lower bound of the constraint is not above its upper bound, and is
    strictly below it when one of the two operators is [<]; so no
    well-formed version satisfies a well-formed constraint whose lower
    bound compares above its upper bound.  Both hypotheses are needed:
    outside them [versionCompare] is no order. *)
Theorem versionSatifiesConstraint_bounds_ordered (v : IVersion) (c : IConstraint) :
  wf_version v = true → wf_constraint c = true →
  versionSatifiesConstraint v c = true →
  versionCompare (lower c) (upper c) ≠ 1%Z ∧
  (lowerOperator c = OpLt ∨ upperOperator c = OpLt →
   versionCompare (lower c) (upper c) = (-1)%Z).
Proof.
  intros Hv Hc. rewrite (satisfies_interval v c Hv Hc).
  apply andb_prop in Hc as [Hl Hu].
  rewrite (versionCompare_rank _ _ Hl Hu).
  unfold interval_mem, interval_of, below, rank_compare. simpl.
  intros [H1 H2]%andb_prop.
  destruct (lowerOperator c), (upperOperator c);
    repeat (match goal with
            | H : (_ <? _)%Z = true |- _ => apply Z.ltb_lt in H
            | H : (_ <=? _)%Z = true |- _ => apply Z.leb_le in H
            end);
    repeat (match goal with |- context [(?p <? ?q)%Z] => destruct (Z.ltb_spec p q) end);
    split; try done; try lia; intros [?|?]; try done; lia.
Qed.

(** X4: whatever the arguments, a constraint returned by
    [constraintIntersect] has its lower bound strictly below its upper
    bound, each bound being a bound of one of the arguments. *)
Theorem constraintIntersect_result_ordered (a b c : IConstraint) :
  constraintIntersect a b = Some c →
  versionCompare (lower c) (upper c) = (-1)%Z ∧
  (lower c = lower a ∨ lower c = lower b) ∧
  (upper c = upper a ∨ upper c = upper b).
Proof.
  unfold constraintIntersect.
  destruct (newLower_cases a b) as [[_ ->]|[[_ ->]|[_ ->]]],
           (newUpper_cases a b) as [[_ ->]|[[_ ->]|[_ ->]]];
    case_bool_decide as Hlt; try done; intros [= <-]; simpl;
    (split; [lia|auto]).
Qed.

(** X5: intersecting a constraint with itself gives the constraint back
    when its lower bound is strictly below its upper bound, and nothing
    otherwise. *)
Theorem constraintIntersect_idempotent (c : IConstraint) :
  constraintIntersect c c =
  if bool_decide (versionCompare (lower c) (upper c) = (-1)%Z) then Some c else None.
Proof.
  unfold constraintIntersect, newLower, newUpper.
  rewrite !versionCompare_refl.
  assert (∀ op, merge op op = op) as Hm by (by intros []).
  rewrite !Hm. destruct c as [l u lop uop]; simpl.
  repeat case_bool_decide; done.
Qed.

Lemma gt_irrefl x : JS.gt x x = false.
Proof. destruct x as [|z]; simpl; [done|]. apply Z.ltb_irrefl. Qed.

Lemma Number_same_or_missing x y :
  x = y ∨ x = None ∨ y = None →
  JS.gt (JS.Number x) (JS.Number y) = false ∧ JS.gt (JS.Number y) (JS.Number x) = false.
Proof.
  intros [-> | [-> | ->]]; simpl.
  - by rewrite gt_irrefl.
  - by destruct (JS.Number y).
  - by destruct (JS.Number x).
Qed.

(** X27: [versionCompare] finds two versions equal as soon as each of the
    first three components reads the same text in both or is missing in
    one of them: a missing component matches every number, and what
    follows the third component is not read. *)
Theorem versionCompare_same_or_missing (a b : IVersion) :
  (∀ i, (i < 3)%nat →
        JS.split "." (IVersion.string a) !! i = JS.split "." (IVersion.string b) !! i ∨
        JS.split "." (IVersion.string a) !! i = None ∨
        JS.split "." (IVersion.string b) !! i = None) →
  versionCompare a b = 0%Z.
Proof.
  intros H. rewrite versionCompare_components. unfold number_compare, component.
  destruct (Number_same_or_missing _ _ (H 0%nat ltac:(lia))) as [-> ->].
  destruct (Number_same_or_missing _ _ (H 1%nat ltac:(lia))) as [-> ->].
  destruct (Number_same_or_missing _ _ (H 2%nat ltac:(lia))) as [-> ->].
  done.
Qed.

(** ** [parseContraint] *)

Lemma split_nonempty sep s : JS.split sep s ≠ [].
Proof.
  destruct s as [|c s]; simpl; [done|].
  destruct (Ascii.eqb c sep); [done|]. by destruct (JS.split sep s).
Qed.

Lemma split_single sep s p : JS.split sep s = [p] → s = p.
Proof.
  revert p. induction s as [|c s IH]; intros p; simpl; [by intros [= <-]|].
  destruct (Ascii.eqb c sep).
  - intros [= _ H]. by destruct (split_nonempty sep s).
  - destruct (JS.split sep s) as [|q qs] eqn:Hs; [by destruct (split_nonempty sep s)|].
    intros [= <- ->]. f_equal. by apply IH.
Qed.

Lemma split_cons sep s p q ps :
  JS.split sep s = p :: q :: ps →
  ∃ s', s = String.app p (String sep s') ∧ JS.split sep s' = q :: ps.
Proof.
  revert p. induction s as [|c s IH]; intros p; simpl; [done|].
  destruct (Ascii.eqb_spec c sep) as [->|Hne].
  - intros [= <- H]. by exists s.
  - destruct (JS.split sep s) as [|p' ps'] eqn:Hs; [done|].
    intros [= <- ->]. destruct (IH p' eq_refl) as (s' & -> & Hs').
    by exists s'.
Qed.

Lemma split_app sep x y :
  string_forall (λ c, negb (Ascii.eqb c sep)) x = true →
  JS.split sep (String.app x (String sep y)) = x :: JS.split sep y.
Proof.
  induction x as [|c x IH]; simpl.
  - intros _. by rewrite Ascii.eqb_refl.
  - intros [Hc Hx]%andb_prop. apply negb_true_iff in Hc. rewrite Hc.
    by rewrite (IH Hx).
Qed.

Lemma split_none sep x :
  string_forall (λ c, negb (Ascii.eqb c sep)) x = true → JS.split sep x = [x].
Proof.
  induction x as [|c x IH]; simpl; [done|].
  intros [Hc Hx]%andb_prop. apply negb_true_iff in Hc. rewrite Hc.
  by rewrite (IH Hx).
Qed.

Lemma string_forall_app P x y :
  string_forall P (String.app x y) = string_forall P x && string_forall P y.
Proof.
  induction x as [|c x IH]; simpl; [done|]. by rewrite IH, andb_assoc.
Qed.

Lemma string_forall_impl (P Q : ascii → bool) s :
  (∀ c, P c = true → Q c = true) → string_forall P s = true → string_forall Q s = true.
Proof.
  intros HPQ. induction s as [|c s IH]; simpl; [done|].
  intros [Hc Hs]%andb_prop. by rewrite (HPQ _ Hc), IH.
Qed.

Lemma digits_value_forall s : ∀ acc,
  is_Some (JS.digits_value acc s) →
  string_forall (λ c, bool_decide (is_Some (Ascii.is_nat c))) s = true.
Proof.
  induction s as [|c s IH]; intros acc; simpl; [done|].
  destruct (Ascii.is_nat c) as [d|] eqn:Hd; [|by intros [? ?]].
  intros H. rewrite (IH _ H), andb_true_r. apply bool_decide_eq_true. eauto.
Qed.

Lemma digit_run_forall s :
  digit_run s = true →
  string_forall (λ c, bool_decide (is_Some (Ascii.is_nat c))) s = true.
Proof.
  destruct s as [|c s]; [done|]. unfold digit_run.
  intros H%bool_decide_eq_true. by apply digits_value_forall in H.
Qed.

(** The characters of a text that [version_text] accepts. *)
Lemma version_text_forall s :
  version_text s = true →
  string_forall
    (λ c, bool_decide (is_Some (Ascii.is_nat c)) || Ascii.eqb c ".") s = true.
Proof.
  unfold version_text.
  destruct (JS.split "." s) as [|x [|y [|z [|? ?]]]] eqn:Hs; try done.
  intros [[Hx Hy]%andb_prop Hz]%andb_prop.
  apply split_cons in Hs as (s1 & -> & Hs).
  apply split_cons in Hs as (s2 & -> & Hs).
  apply split_single in Hs as ->.
  assert (∀ t, digit_run t = true →
            string_forall
              (λ c, bool_decide (is_Some (Ascii.is_nat c)) || Ascii.eqb c ".") t = true)
    as Hrun.
  { intros t Ht. apply digit_run_forall in Ht.
    revert Ht. apply string_forall_impl. by intros c ->. }
  rewrite string_forall_app. simpl. rewrite string_forall_app. simpl.
  by rewrite !Hrun.
Qed.

Lemma digit_not (c d : ascii) :
  Ascii.is_nat d = None →
  bool_decide (is_Some (Ascii.is_nat c)) || Ascii.eqb c "." = true →
  d ≠ "."%char → negb (Ascii.eqb c d) = true.
Proof.
  intros Hd Hc Hdot. apply negb_true_iff, Ascii.eqb_neq. intros ->.
  apply orb_prop in Hc as [Hc%bool_decide_eq_true|Hc%Ascii.eqb_eq]; [|done].
  rewrite Hd in Hc. by destruct Hc.
Qed.

Lemma regexp_lines_single s :
  string_forall
    (λ c, negb (Ascii.eqb c "010" || Ascii.eqb c "013" || Ascii.eqb c "226")) s = true →
  regexp_lines s = [s].
Proof.
  induction s as [|c s IH]; [done|].
  intros H. change (string_forall _ (String c s))
    with (negb (Ascii.eqb c "010" || Ascii.eqb c "013" || Ascii.eqb c "226")
          && string_forall
               (λ c, negb (Ascii.eqb c "010" || Ascii.eqb c "013" || Ascii.eqb c "226")) s) in H.
  apply andb_prop in H as [Hc Hs].
  apply negb_true_iff, orb_false_elim in Hc as [Hc H226].
  specialize (IH Hs).
  cbn [regexp_lines]. rewrite Hc, H226. cbn [andb].
  destruct s as [|c1 [|c2 s]]; by rewrite IH.
Qed.

Lemma operator_text_spec m op : operator_text m = Some op ↔ m = Operator_text op.
Proof.
  unfold operator_text. repeat case_bool_decide; subst; destruct op; simpl;
    split; intros; simplify_eq; done.
Qed.

(** A line matches exactly when it is the text of a constraint. *)
Lemma match_line_spec l m1 op1 op2 m4 :
  match_line l = Some (m1, op1, op2, m4) ↔
  version_text m1 = true ∧ version_text m4 = true ∧
  l = String.app m1
        (String.app " " (String.app (Operator_text op1)
           (String.app " v " (String.app (Operator_text op2) (String.app " " m4))))).
Proof.
  split.
  - unfold match_line.
    destruct (JS.split " " l) as [|x1 [|x2 [|v [|x3 [|x4 [|? ?]]]]]] eqn:Hs; try done.
    destruct (version_text x1) eqn:H1; [|done].
    case_bool_decide as Hv; [|done]. subst v.
    destruct (version_text x4) eqn:H4; [|done]. simpl.
    destruct (operator_text x2) as [o1|] eqn:Ho1; [|done].
    destruct (operator_text x3) as [o2|] eqn:Ho2; [|done].
    intros [= -> -> -> ->].
    apply operator_text_spec in Ho1 as ->. apply operator_text_spec in Ho2 as ->.
    apply split_cons in Hs as (s1 & -> & Hs).
    apply split_cons in Hs as (s2 & -> & Hs).
    apply split_cons in Hs as (s3 & -> & Hs).
    apply split_cons in Hs as (s4 & -> & Hs).
    apply split_single in Hs as ->. done.
  - intros (H1 & H4 & ->). unfold match_line.
    assert (∀ t, version_text t = true →
              string_forall (λ c, negb (Ascii.eqb c " ")) t = true) as Hsp.
    { intros t Ht. apply version_text_forall in Ht. revert Ht.
      apply string_forall_impl. intros c Hc. by apply digit_not. }
    change (String.app " " ?r) with (String " "%char r).
    rewrite (split_app _ _ _ (Hsp _ H1)).
    destruct op1, op2; simpl; change (String.app EmptyString m4) with m4;
      rewrite (split_none _ _ (Hsp _ H4)), H1, H4; done.
Qed.

Lemma regexp_exec_Some lines m :
  regexp_exec lines = Some m → ∃ l, In l lines ∧ match_line l = Some m.
Proof.
  induction lines as [|l lines IH]; simpl; [done|].
  destruct (match_line l) as [m'|] eqn:Hl.
  - intros [= ->]. eauto.
  - intros (l' & ? & ?)%IH. eauto.
Qed.

Lemma regexp_exec_None lines :
  regexp_exec lines = None ↔ ∀ l, In l lines → match_line l = None.
Proof.
  induction lines as [|l lines IH]; simpl; [by split|].
  destruct (match_line l) as [m'|] eqn:Hl.
  - split; [done|]. intros H. rewrite <- Hl. apply H. by left.
  - rewrite IH. split; [|by auto]. intros H l' [<-|?]; auto.
Qed.

Lemma version_text_numeric s :
  version_text s = true → numeric (parseVersion s) ∧ fields_agree (parseVersion s).
Proof.
  unfold version_text, numeric, fields_agree, component, parseVersion.
  cbn [IVersion.major IVersion.minor IVersion.patch IVersion.string].
  destruct (JS.split "." s) as [|x [|y [|z [|? ?]]]] eqn:Hs; try done.
  intros [[Hx Hy]%andb_prop Hz]%andb_prop.
  change ([x; y; z] !! 0%nat) with (Some x).
  change ([x; y; z] !! 1%nat) with (Some y).
  change ([x; y; z] !! 2%nat) with (Some z).
  assert (∀ t, digit_run t = true →
            ∃ n, (0 ≤ n)%Z ∧ JS.Number (Some t) = JS.Num n ∧
                 JS.parseInt (Some t) = JS.Num n) as Hrun.
  { intros [|c t]; [done|]. unfold digit_run, JS.parseInt, JS.Number.
    intros [n Hn]%bool_decide_eq_true. exists n.
    rewrite (leading_digits_all _ _ _ Hn), Hn.
    split; [|done]. apply digits_value_ge in Hn; lia. }
  destruct (Hrun _ Hx) as (nx & ? & -> & ->).
  destruct (Hrun _ Hy) as (ny & ? & -> & ->).
  destruct (Hrun _ Hz) as (nz & ? & -> & ->).
  split; [|done]. by exists nx, ny, nz.
Qed.

(** A version read from three runs of digits is well formed exactly when
    its three numbers are safe integers. *)
Lemma version_text_wf s :
  version_text s = true →
  wf_version (parseVersion s) = true ↔
  ∀ i, (i < 3)%nat → (number_value (component i (parseVersion s)) ≤ MAX_SAFE_INTEGER)%Z.
Proof.
  unfold version_text, wf_version, component, parseVersion.
  cbn [IVersion.string].
  destruct (JS.split "." s) as [|x [|y [|z [|? ?]]]] eqn:Hs; try done.
  intros [[Hx Hy]%andb_prop Hz]%andb_prop.
  change ([x; y; z] !! 0%nat) with (Some x).
  change ([x; y; z] !! 1%nat) with (Some y).
  change ([x; y; z] !! 2%nat) with (Some z).
  assert (∀ t, digit_run t = true →
            ∃ n, JS.Number (Some t) = JS.Num n ∧
                 safe_digits (Some t) = (n <=? MAX_SAFE_INTEGER)%Z) as Hrun.
  { intros [|c t]; [done|]. unfold digit_run, safe_digits, JS.Number.
    intros [n Hn]%bool_decide_eq_true. exists n. by rewrite Hn. }
  destruct (Hrun _ Hx) as (nx & Hnx & ->).
  destruct (Hrun _ Hy) as (ny & Hny & ->).
  destruct (Hrun _ Hz) as (nz & Hnz & ->).
  rewrite !andb_true_iff, !Z.leb_le. split.
  - intros [[? ?] ?] [|[|[|i]]] Hi; try lia.
    + change ([x; y; z] !! 0%nat) with (Some x). by rewrite Hnx.
    + change ([x; y; z] !! 1%nat) with (Some y). by rewrite Hny.
    + change ([x; y; z] !! 2%nat) with (Some z). by rewrite Hnz.
  - intros H.
    pose proof (H 0%nat ltac:(lia)) as H0.
    pose proof (H 1%nat ltac:(lia)) as H1.
    pose proof (H 2%nat ltac:(lia)) as H2.
    change ([x; y; z] !! 0%nat) with (Some x) in H0.
    change ([x; y; z] !! 1%nat) with (Some y) in H1.
    change ([x; y; z] !! 2%nat) with (Some z) in H2.
    rewrite Hnx in H0. rewrite Hny in H1. rewrite Hnz in H2. done.
Qed.

(** X6: [parseContraint] reads the text made of two versions of three
    dot-separated runs of digits, with the operators around [v], as the
    constraint with exactly these bounds and operators. *)
Theorem parseContraint_reads_constraint_text (s1 s2 : string) (op1 op2 : Operator) :
  version_text s1 = true → version_text s2 = true →
  parseContraint
    (constraint_text {| lower := parseVersion s1; upper := parseVersion s2;
                        lowerOperator := op1; upperOperator := op2 |})
  = normal {| lower := parseVersion s1; upper := parseVersion s2;
              lowerOperator := op1; upperOperator := op2 |}.
Proof.
  intros H1 H2. unfold parseContraint, constraint_text. simpl.
  assert (∀ t, version_text t = true →
            string_forall
              (λ c, negb (Ascii.eqb c "010" || Ascii.eqb c "013" || Ascii.eqb c "226")) t
            = true) as Hline.
  { intros t Ht. apply version_text_forall in Ht. revert Ht.
    apply string_forall_impl. intros c Hc.
    rewrite !negb_orb.
    rewrite (digit_not c "010"), (digit_not c "013"), (digit_not c "226"); done. }
  rewrite regexp_lines_single.
  - cbn [regexp_exec].
    by rewrite (proj2 (match_line_spec _ s1 op1 op2 s2) (conj H1 (conj H2 eq_refl))).
  - rewrite !string_forall_app. rewrite (Hline _ H1), (Hline _ H2).
    by destruct op1, op2.
Qed.

(** X7: a constraint that [parseContraint] returns was read from a line of
    the text: its own text is that line, its bounds are what
    [parseVersion] makes of their string forms, and each bound has three
    numeric components, with which its numeric fields agree.  It is well
    formed exactly when the six numbers are safe integers. *)
Theorem parseContraint_result (s : string) (c : IConstraint) :
  parseContraint s = normal c →
  In (constraint_text c) (regexp_lines s) ∧
  lower c = parseVersion (IVersion.string (lower c)) ∧
  upper c = parseVersion (IVersion.string (upper c)) ∧
  numeric (lower c) ∧ numeric (upper c) ∧
  fields_agree (lower c) ∧ fields_agree (upper c) ∧
  (wf_constraint c = true ↔
   ∀ v i, v ∈ bounds c → (i < 3)%nat →
          (number_value (component i v) ≤ MAX_SAFE_INTEGER)%Z).
Proof.
  unfold parseContraint.
  destruct (regexp_exec (regexp_lines s)) as [[[[m1 op1] op2] m4]|] eqn:Hm; [|done].
  intros [= <-].
  apply regexp_exec_Some in Hm as (l & Hl & Hm).
  apply match_line_spec in Hm as (H1 & H4 & ->).
  destruct (version_text_numeric _ H1) as [Hn1 Ha1].
  destruct (version_text_numeric _ H4) as [Hn4 Ha4].
  unfold constraint_text, wf_constraint, bounds.
  cbn [lower upper lowerOperator upperOperator].
  repeat (split; [done|]).
  rewrite andb_true_iff, (version_text_wf _ H1), (version_text_wf _ H4).
  split.
  - intros [Hl' Hu'] v i Hv Hi.
    apply elem_of_cons in Hv as [->|Hv]; [by apply Hl'|].
    apply list_elem_of_singleton in Hv as ->. by apply Hu'.
  - intros Hall. split; intros i Hi; apply Hall; try done; set_solver.
Qed.

(** X8: [parseContraint] raises nothing but the error "Could not parse
    version constraint", and raises it exactly when no line of the text is
    the text of a constraint between two versions of three dot-separated
    runs of digits. *)
Theorem parseContraint_raises (s : string) :
  (∀ e, parseContraint s = throw e → e = "Could not parse version constraint") ∧
  ((∃ e, parseContraint s = throw e) ↔
   ∀ s1 s2 op1 op2,
     version_text s1 = true → version_text s2 = true →
     ¬ In (constraint_text {| lower := parseVersion s1; upper := parseVersion s2;
                              lowerOperator := op1; upperOperator := op2 |})
          (regexp_lines s)).
Proof.
  unfold parseContraint.
  destruct (regexp_exec (regexp_lines s)) as [[[[m1 op1] op2] m4]|] eqn:Hm.
  - split; [done|]. split; [by intros [e ?]|]. intros H. exfalso.
    apply regexp_exec_Some in Hm as (l & Hl & Hm).
    apply match_line_spec in Hm as (H1 & H4 & ->).
    by apply (H m1 m4 op1 op2 H1 H4).
  - split; [by intros e [= <-]|]. split; [|by eauto].
    intros _ s1 s2 op1 op2 H1 H2 Hin.
    pose proof (proj1 (regexp_exec_None _) Hm _ Hin) as Hnone.
    unfold constraint_text in Hnone. simpl in Hnone.
    by rewrite (proj2 (match_line_spec _ s1 op1 op2 s2) (conj H1 (conj H2 eq_refl)))
      in Hnone.
Qed.

(** ** [pickDep] and [combineDeps] *)

Lemma units_le_total x y : JS.units_le x y = true ∨ JS.units_le y x = true.
Proof.
  revert y. induction x as [|a x IH]; intros [|b y]; simpl; auto.
  destruct (IH y) as [H|H]; rewrite H, ?andb_true_r;
    destruct (N.ltb_spec a b), (N.ltb_spec b a), (N.eqb_spec a b), (N.eqb_spec b a);
    simpl; auto; lia.
Qed.

Lemma units_le_trans x y z :
  JS.units_le x y = true → JS.units_le y z = true → JS.units_le x z = true.
Proof.
  revert y z. induction x as [|a x IH]; intros [|b y] [|c z]; simpl; try done.
  intros Hxy Hyz.
  apply orb_prop in Hxy as [Hab|[Hab Hxy]%andb_prop];
    apply orb_prop in Hyz as [Hbc|[Hbc Hyz]%andb_prop];
    rewrite ?N.ltb_lt, ?N.eqb_eq in *; subst.
  - replace (a <? c)%N with true by (symmetry; apply N.ltb_lt; lia). done.
  - replace (a <? c)%N with true by (symmetry; apply N.ltb_lt; lia). done.
  - replace (b <? c)%N with true by (symmetry; apply N.ltb_lt; lia). done.
  - rewrite N.eqb_refl, (IH _ _ Hxy Hyz). apply orb_true_r.
Qed.

Lemma default_le_total s t : JS.default_le s t ∨ JS.default_le t s.
Proof. apply units_le_total. Qed.

Lemma default_le_trans s t u : JS.default_le s t → JS.default_le t u → JS.default_le s u.
Proof. apply units_le_trans. Qed.

(** The empty string is before every string, and is the only such. *)
Lemma default_le_empty k : JS.default_le EmptyString k.
Proof. reflexivity. Qed.

Lemma code_units_nil s : JS.code_units s = [] → s = EmptyString.
Proof.
  destruct s as [|c0 s0]; [done|]. cbn [JS.code_units]. cbv zeta.
  repeat case_match; done.
Qed.

Lemma default_le_empty_inv k : JS.default_le k EmptyString → k = EmptyString.
Proof.
  unfold JS.default_le. intros H. apply code_units_nil.
  by destruct (JS.code_units k).
Qed.

Lemma head_merge_sort_least (l : list string) k :
  head (merge_sort JS.default_le l) = Some k → ∀ k', k' ∈ l → JS.default_le k k'.
Proof.
  intros Hh k' Hk'.
  pose proof (@StronglySorted_merge_sort _ JS.default_le _
                default_le_trans default_le_total l) as Hs.
  rewrite <- (merge_sort_Permutation JS.default_le l) in Hk'.
  destruct (merge_sort JS.default_le l) as [|x xs]; simplify_eq/=.
  apply StronglySorted_inv in Hs as [_ Hall].
  apply elem_of_cons in Hk' as [->|Hk'].
  - destruct (default_le_total k k); done.
  - by apply (proj1 (Forall_forall _ _) Hall).
Qed.

(** X9: [pickDep] picks the least name of the pending map in the order of
    the default [sort()], that of the UTF-16 code units of the names, with
    the constraint the map binds it to, and leaves the map without that
    name; it picks nothing exactly when the map is empty or binds the
    empty name. *)
Theorem pickDep_least (deps : gmap string IConstraint) :
  (∀ name c rest,
     pickDep deps = (Some (name, c), rest) →
     deps !! name = Some c ∧ rest = delete name deps ∧
     ∀ k, is_Some (deps !! k) → JS.default_le name k) ∧
  ((pickDep deps).1 = None ↔ deps = ∅ ∨ is_Some (deps !! EmptyString)).
Proof.
  split.
  - intros name c rest. unfold pickDep.
    destruct (head (merge_sort JS.default_le (elements (dom deps)))) as [k|] eqn:Hh;
      [|done].
    case_bool_decide; [done|].
    destruct (deps !! k) as [c'|] eqn:Hk; simpl; [|done].
    intros [= -> -> <-]. repeat split; [done|].
    intros k' Hk'. apply (head_merge_sort_least _ _ Hh).
    by apply elem_of_elements, elem_of_dom.
  - split.
    + destruct (pickDep deps) as [picked rest] eqn:Hp. simpl. intros ->.
      by apply pickDep_None in Hp.
    + unfold pickDep. intros [->|Hempty]; [done|].
      destruct (head (merge_sort JS.default_le (elements (dom deps)))) as [k|] eqn:Hh;
        [|done].
      simpl. case_bool_decide as Hk; [done|]. exfalso. apply Hk.
      apply default_le_empty_inv, (head_merge_sort_least _ _ Hh).
      by apply elem_of_elements, elem_of_dom.
Qed.

Lemma combineDeps_loop_None a b keys : ∀ acc,
  combineDeps_loop a b keys acc = None → ∃ k, k ∈ keys ∧ combine_at a b k = None.
Proof.
  induction keys as [|key keys IH]; intros acc; simpl; [done|].
  unfold combine_at at 1.
  destruct (a !! key) as [v1|] eqn:Ha, (b !! key) as [v2|] eqn:Hb.
  - destruct (constraintIntersect v1 v2) as [i|] eqn:Hi.
    + intros (k & ? & ?)%IH. exists k. split; [set_solver|done].
    + intros _. exists key. split; [set_solver|]. unfold combine_at. by rewrite Ha, Hb.
  - intros (k & ? & ?)%IH. exists k. split; [set_solver|done].
  - intros (k & ? & ?)%IH. exists k. split; [set_solver|done].
  - intros _. exists key. split; [set_solver|]. unfold combine_at. by rewrite Ha, Hb.
Qed.

(** X10: [combineDeps] answers [undefined] exactly when the two maps bind
    a common name to constraints whose intersection is absent; otherwise
    the map it returns binds exactly the names of the two maps, a common
    name to the intersection and any other to the constraint it had. *)
Theorem combineDeps_conflict (a b : gmap string IConstraint) :
  (combineDeps a b = None ↔
   ∃ k v1 v2, a !! k = Some v1 ∧ b !! k = Some v2 ∧ constraintIntersect v1 v2 = None) ∧
  (∀ d, combineDeps a b = Some d →
        dom d = dom a ∪ dom b ∧
        ∀ k, d !! k = match a !! k, b !! k with
                      | Some v1, Some v2 => constraintIntersect v1 v2
                      | Some v1, None => Some v1
                      | None, Some v2 => Some v2
                      | None, None => None
                      end).
Proof.
  split; [split|].
  - intros (k & Hk & Hnone)%combineDeps_loop_None.
    rewrite elem_of_elements, elem_of_union, !elem_of_dom in Hk.
    unfold combine_at in Hnone.
    destruct (a !! k) as [v1|] eqn:Ha, (b !! k) as [v2|] eqn:Hb; try done.
    + by exists k, v1, v2.
    + destruct Hk as [[? ?]|[? ?]]; done.
  - intros (k & v1 & v2 & Ha & Hb & Hnone).
    destruct (combineDeps a b) as [d|] eqn:Hd; [|done].
    destruct (combineDeps_lookup _ _ _ k Hd) as [Hk Hsome].
    unfold combine_at in Hk. rewrite Ha, Hb, Hnone in Hk.
    destruct Hsome as [? Hsome]; [rewrite Ha; eauto|]. by rewrite Hk in Hsome.
  - intros d Hd. split; [|intros k; apply (combineDeps_lookup _ _ _ k Hd)].
    apply set_eq. intros k. rewrite elem_of_union, !elem_of_dom.
    destruct (combineDeps_lookup _ _ _ k Hd) as [Hk Hsome].
    split; [|done]. rewrite Hk. unfold combine_at.
    destruct (a !! k), (b !! k); eauto.
Qed.

Lemma combineDeps_empty_r a : combineDeps a ∅ = Some a.
Proof.
  destruct (combineDeps a ∅) as [d|] eqn:Hd.
  - f_equal. apply map_eq. intros k.
    destruct (combineDeps_lookup _ _ _ k Hd) as [-> _].
    unfold combine_at. rewrite lookup_empty. by destruct (a !! k).
  - apply combineDeps_loop_None in Hd as (k & Hk & Hnone).
    rewrite elem_of_elements, elem_of_union, !elem_of_dom, lookup_empty in Hk.
    unfold combine_at in Hnone. rewrite lookup_empty in Hnone.
    destruct (a !! k); [done|]. destruct Hk as [[? ?]|[? ?]]; done.
Qed.

Lemma combineDeps_empty_l a : combineDeps ∅ a = Some a.
Proof.
  destruct (combineDeps ∅ a) as [d|] eqn:Hd.
  - f_equal. apply map_eq. intros k.
    destruct (combineDeps_lookup _ _ _ k Hd) as [-> _].
    unfold combine_at. rewrite lookup_empty. by destruct (a !! k).
  - apply combineDeps_loop_None in Hd as (k & Hk & Hnone).
    rewrite elem_of_elements, elem_of_union, !elem_of_dom, lookup_empty in Hk.
    unfold combine_at in Hnone. rewrite lookup_empty in Hnone.
    destruct (a !! k); [done|]. destruct Hk as [[? ?]|[? ?]]; done.
Qed.

(** X11: the empty map is neutral for [combineDeps] on both sides. *)
Theorem combineDeps_empty (a : gmap string IConstraint) :
  combineDeps a ∅ = Some a ∧ combineDeps ∅ a = Some a.
Proof. split; [apply combineDeps_empty_r | apply combineDeps_empty_l]. Qed.

(** ** What the solver keeps, whatever the versions are *)

Lemma extends_refl s : extends s s.
Proof. intros q v ?. eauto. Qed.

Lemma extends_trans s1 s2 s3 : extends s1 s2 → extends s2 s3 → extends s1 s3.
Proof.
  intros H12 H23 q v Hq.
  destruct (H12 _ _ Hq) as (v2 & Hv2 & Hs2).
  destruct (H23 _ _ Hv2) as (v3 & Hv3 & Hs3).
  exists v3. split; [done|]. congruence.
Qed.

Lemma extends_insert name v sols s :
  (∀ sv, sols !! name = Some sv → IVersion.string v = IVersion.string sv) →
  extends (<[name := v]> sols) s → extends sols s.
Proof.
  intros Hsolved Hext q w Hq. destruct (decide (q = name)) as [->|Hne].
  - destruct (Hext name v) as (v' & Hv' & Hs); [by rewrite lookup_insert_eq|].
    exists v'. split; [done|]. rewrite Hs. by apply Hsolved.
  - apply Hext. by rewrite lookup_insert_ne.
Qed.

(** What every result of the worker guarantees, without any assumption on
    the names and the versions. *)
Lemma solveDependenciesWorker_invariant packageCache fuel : ∀ deps sols r,
  solveDependenciesWorker fuel packageCache deps sols = Some (Some r) →
  extends sols (SolverResult.solutions r) ∧
  (pickDep (SolverResult.pending r)).1 = None ∧
  ∀ p v, SolverResult.solutions r !! p = Some v →
         released packageCache p v ∨ sols !! p = Some v.
Proof.
  induction fuel as [|fuel IH]; intros deps sols r; [done|].
  rewrite solveDependenciesWorker_S.
  destruct (pickDep deps) as [[[name c]|] rest] eqn:Hpick.
  - pose proof (candidates_for_In packageCache name c sols) as Hcands.
    induction (candidates_for packageCache name c sols) as [|e candidates IHc];
      simpl; [done|].
    assert (∀ e', In e' candidates →
              In e' (packageCache name) ∧ versionSatifiesConstraint (version e') c = true ∧
              ∀ sv, sols !! name = Some sv →
                    IVersion.string (version e') = IVersion.string sv)
      as Hcands' by (intros; apply Hcands; by right).
    destruct (combineDeps rest (dependencies e)) as [tdeps|]; [|by apply IHc].
    destruct (solveDependenciesWorker fuel packageCache tdeps (<[name:=version e]> sols))
      as [[r1|]|] eqn:Hr1; [|by apply IHc|done].
    intros Hr.
    destruct (Hcands e (or_introl eq_refl)) as (He & _ & Hsolved).
    destruct (IH _ _ _ Hr1) as (Hext1 & _ & Hfrom1).
    destruct (IH _ _ _ Hr) as (Hext & Hsettled & Hfrom).
    split; [|split; [done|]].
    + eapply extends_trans; [|apply Hext]. by apply (extends_insert name (version e)).
    + intros p v Hp. destruct (Hfrom _ _ Hp) as [?|Hp1]; [by left|].
      destruct (Hfrom1 _ _ Hp1) as [?|Hins]; [by left|].
      apply lookup_insert_Some in Hins as [[<- <-]|[_ ?]]; [|by right].
      left. by exists e.
  - intros [= <-]. cbn [SolverResult.pending SolverResult.solutions]. rewrite Hpick. split; [apply extends_refl|]. split; [done|].
    intros p v ?. by right.
Qed.

(** X12: a result of [solveDependenciesWorker] keeps every package of the
    partial solution it was given, with a version of the same string form;
    every other version it holds is the version of a release of that
    package in the cache; and [pickDep] finds nothing to pick in the
    pending map it returns. *)
Theorem solveDependenciesWorker_keeps_solved (fuel : nat) (packageCache : IElmPackageCache)
    (deps : gmap string IConstraint) (sols : gmap string IVersion) (r : SolverResult.t) :
  solveDependenciesWorker fuel packageCache deps sols = Some (Some r) →
  (∀ q v, sols !! q = Some v →
          ∃ v', SolverResult.solutions r !! q = Some v' ∧
                IVersion.string v' = IVersion.string v) ∧
  (∀ p v, SolverResult.solutions r !! p = Some v →
          sols !! p = Some v ∨ ∃ e, In e (packageCache p) ∧ version e = v) ∧
  (pickDep (SolverResult.pending r)).1 = None.
Proof.
  intros (Hext & Hsettled & Hfrom)%solveDependenciesWorker_invariant.
  split; [exact Hext|]. split; [|done].
  intros p v Hp. destruct (Hfrom _ _ Hp) as [?|?]; auto.
Qed.

(** X13: every version in a solution of [solveDependencies] is the version
    of a release that the cache holds for that package, whatever the names
    and the version strings are; a package the cache has no release of is
    in no solution. *)
Theorem solveDependencies_from_cache (fuel : nat) (packageCache : IElmPackageCache)
    (deps : gmap string IConstraint) (sol : gmap string IVersion) :
  solveDependencies fuel packageCache deps = Some (Some sol) →
  (∀ p v, sol !! p = Some v → ∃ e, In e (packageCache p) ∧ version e = v) ∧
  (∀ p, packageCache p = [] → sol !! p = None).
Proof.
  unfold solveDependencies.
  destruct (solveDependenciesWorker fuel packageCache deps ∅) as [[r|]|] eqn:Hr; try done.
  intros [= <-].
  apply solveDependenciesWorker_invariant in Hr as (_ & _ & Hfrom).
  assert (∀ p v, SolverResult.solutions r !! p = Some v →
            ∃ e, In e (packageCache p) ∧ version e = v) as Hall.
  { intros p v Hp. by destruct (Hfrom _ _ Hp) as [?|?]. }
  split; [exact Hall|].
  intros p Hnil. destruct (SolverResult.solutions r !! p) as [v|] eqn:Hp; [|done].
  destruct (Hall _ _ Hp) as (e & He & _). rewrite Hnil in He. done.
Qed.

Lemma named_empty : named ∅.
Proof. intros q [c Hq]. by rewrite lookup_empty in Hq. Qed.

Lemma named_delete name deps : named deps → named (delete name deps).
Proof. intros H q [c Hq]. apply lookup_delete_Some in Hq as [_ Hq]. apply H. eauto. Qed.

Lemma named_combineDeps a b d : named a → named b → combineDeps a b = Some d → named d.
Proof.
  intros Ha Hb Hd q Hq. destruct (combineDeps_lookup _ _ _ q Hd) as [Hk _].
  rewrite Hk in Hq. unfold combine_at in Hq.
  destruct (a !! q) eqn:Haq; [apply Ha; rewrite Haq; eauto|].
  destruct (b !! q) eqn:Hbq; [apply Hb; rewrite Hbq; eauto|]. by destruct Hq.
Qed.

(** With no empty name around, a result has nothing pending and gives a
    version to every package that was pending. *)
Lemma solveDependenciesWorker_covers packageCache fuel :
  named_cache packageCache →
  ∀ deps sols r,
    named deps →
    solveDependenciesWorker fuel packageCache deps sols = Some (Some r) →
    SolverResult.pending r = ∅ ∧
    ∀ q, is_Some (deps !! q) → is_Some (SolverResult.solutions r !! q).
Proof.
  intros Hcache.
  induction fuel as [|fuel IH]; intros deps sols r Hdeps; [done|].
  rewrite solveDependenciesWorker_S.
  destruct (pickDep deps) as [[[name c]|] rest] eqn:Hpick.
  - apply pickDep_Some in Hpick as (_ & Hname & ->).
    pose proof (candidates_for_In packageCache name c sols) as Hcands.
    induction (candidates_for packageCache name c sols) as [|e candidates IHc];
      simpl; [done|].
    assert (∀ e', In e' candidates →
              In e' (packageCache name) ∧ versionSatifiesConstraint (version e') c = true ∧
              ∀ sv, sols !! name = Some sv →
                    IVersion.string (version e') = IVersion.string sv)
      as Hcands' by (intros; apply Hcands; by right).
    destruct (combineDeps (delete name deps) (dependencies e)) as [tdeps|] eqn:Ht;
      [|by apply IHc].
    destruct (solveDependenciesWorker fuel packageCache tdeps (<[name:=version e]> sols))
      as [[r1|]|] eqn:Hr1; [|by apply IHc|done].
    intros Hr.
    destruct (Hcands e (or_introl eq_refl)) as (He & _ & _).
    assert (named tdeps) as Htd
      by (eapply named_combineDeps; [apply named_delete, Hdeps|apply (Hcache _ _ He)|done]).
    destruct (IH _ _ _ Htd Hr1) as [Hpend1 Hcov1].
    destruct (solveDependenciesWorker_invariant _ _ _ _ _ Hr1) as (Hext1 & _ & _).
    destruct (solveDependenciesWorker_invariant _ _ _ _ _ Hr) as (Hext & _ & _).
    rewrite Hpend1 in Hr.
    destruct (IH _ _ _ named_empty Hr) as [Hpend _].
    split; [done|]. intros q Hq.
    assert (is_Some (SolverResult.solutions r1 !! q)) as [v1 Hv1].
    { destruct (decide (q = name)) as [->|Hne].
      - destruct (Hext1 name (version e)) as (v' & Hv' & _); [by rewrite lookup_insert_eq|].
        eauto.
      - apply Hcov1. destruct (combineDeps_lookup _ _ _ q Ht) as [_ Hsome].
        apply Hsome. left. by rewrite lookup_delete_ne. }
    destruct (Hext _ _ Hv1) as (v' & Hv' & _). eauto.
  - intros [= <-]. simpl. apply pickDep_None in Hpick as [->|Hempty].
    + split; [done|]. by intros q [? ?].
    + by destruct (Hdeps _ Hempty).
Qed.

(** X14: when no package name is empty, a solution of [solveDependencies]
    gives every root dependency the version of a release that the cache
    holds for it; so a root dependency on a package the cache has no
    release of never gets a solution. *)
Theorem solveDependencies_covers_roots (fuel : nat) (packageCache : IElmPackageCache)
    (deps : gmap string IConstraint) (sol : gmap string IVersion) (q : string) :
  named deps → named_cache packageCache →
  solveDependencies fuel packageCache deps = Some (Some sol) →
  is_Some (deps !! q) →
  (∃ v e, sol !! q = Some v ∧ In e (packageCache q) ∧ version e = v) ∧
  packageCache q ≠ [].
Proof.
  intros Hdeps Hcache. unfold solveDependencies.
  destruct (solveDependenciesWorker fuel packageCache deps ∅) as [[r|]|] eqn:Hr; try done.
  intros [= <-] Hq.
  destruct (solveDependenciesWorker_covers _ _ Hcache _ _ _ Hdeps Hr) as [_ Hcov].
  destruct (solveDependenciesWorker_invariant _ _ _ _ _ Hr) as (_ & _ & Hfrom).
  destruct (Hcov _ Hq) as [v Hv].
  destruct (Hfrom _ _ Hv) as [(e & He & Hve)|?]; [|done].
  split; [by exists v, e|]. intros Hnil. by rewrite Hnil in He.
Qed.

(** ** The candidates of a dependency *)

Lemma List_filter_filter {A} (f g : A → bool) l :
  List.filter f (List.filter g l) = List.filter (λ x, g x && f x) l.
Proof.
  induction l as [|x l IH]; simpl; [done|].
  destruct (g x); simpl; [|done]. destruct (f x); by rewrite IH.
Qed.

Lemma List_filter_rev {A} (f : A → bool) l :
  List.filter f (rev l) = rev (List.filter f l).
Proof.
  induction l as [|x l IH]; simpl; [done|].
  rewrite List.filter_app, IH. simpl. destruct (f x); simpl; [done|].
  by rewrite app_nil_r.
Qed.

(** X15: the candidates the loop of the worker visits for a dependency
    are the releases the cache lists for the package that satisfy the
    constraint and, when the package is solved already, have the string
    form of the solved version; they are visited in the reverse of the
    order of the cache. *)
Theorem candidates_for_releases (packageCache : IElmPackageCache) (name : string)
    (constraint : IConstraint) (solutions : gmap string IVersion) :
  candidates_for packageCache name constraint solutions
  = rev (List.filter
           (λ p, versionSatifiesConstraint (version p) constraint
                 && match solutions !! name with
                    | Some solvedVersion =>
                        bool_decide (IVersion.string (version p)
                                     = IVersion.string solvedVersion)
                    | None => true
                    end)
           (packageCache name)).
Proof.
  unfold candidates_for. rewrite (sort_constant_zero _ _ candidate_compare_zero).
  destruct (solutions !! name) as [sv|].
  - by rewrite List_filter_rev, List_filter_filter.
  - f_equal. induction (packageCache name) as [|p l IH]; simpl; [done|].
    rewrite andb_true_r. destruct (versionSatifiesConstraint _ _); by rewrite IH.
Qed.

(** ** The solver on packages without dependencies *)

Lemma flat_solution_delete packageCache deps sols name c v :
  deps !! name = Some c → last_release packageCache name c = Some v →
  sols !! name = None →
  <[name := v]> sols ∪ flat_solution packageCache (delete name deps)
  = sols ∪ flat_solution packageCache deps.
Proof.
  intros Hname Hv Hsols. apply map_eq. intros i.
  unfold flat_solution. rewrite !lookup_union, !map_lookup_imap.
  destruct (decide (i = name)) as [->|Hne].
  - rewrite lookup_insert_eq, lookup_delete_eq, Hsols, Hname. simpl. by rewrite Hv.
  - by rewrite lookup_insert_ne, lookup_delete_ne.
Qed.

Lemma worker_empty fuel packageCache sols :
  solveDependenciesWorker (S fuel) packageCache ∅ sols
  = Some (Some {| SolverResult.pending := ∅; SolverResult.solutions := sols |}).
Proof. by rewrite solveDependenciesWorker_S, pickDep_empty. Qed.

(** The loop over candidates without dependencies, when the worker fails
    on what is left. *)
Lemma candidates_loop_flat_fail recurse name rest sols candidates :
  (∀ e, In e candidates → dependencies e = ∅) →
  (∀ v, recurse rest (<[name := v]> sols) = Some None) →
  candidates_loop recurse name rest sols candidates = Some None.
Proof.
  intros Hflat Hfail. induction candidates as [|e candidates IH]; simpl; [done|].
  rewrite (Hflat e (or_introl eq_refl)).
  destruct (combineDeps rest ∅) as [t|] eqn:Ht.
  - assert (t = rest) as ->.
    { apply map_eq. intros k. destruct (combineDeps_lookup _ _ _ k Ht) as [-> _].
      unfold combine_at. rewrite lookup_empty. by destruct (rest !! k). }
    rewrite Hfail. apply IH. intros; apply Hflat; by right.
  - apply IH. intros; apply Hflat; by right.
Qed.

Lemma last_release_candidates packageCache name c sols :
  sols !! name = None →
  last_release packageCache name c
  = version <$> head (candidates_for packageCache name c sols).
Proof. intros Hs. by rewrite (candidates_for_reverse _ _ _ _ Hs). Qed.

Lemma size_delete_lt (deps : gmap string IConstraint) name c fuel :
  deps !! name = Some c → size deps < S fuel → size (delete name deps) < fuel ∧ 0 < fuel.
Proof.
  intros Hname Hsize.
  assert (is_Some (deps !! name)) as Hsome by eauto.
  pose proof (map_size_delete_Some name deps Hsome) as Hd.
  pose proof (map_size_ne_0_lookup_2 deps name Hsome) as Hne.
  lia.
Qed.

Lemma solveDependenciesWorker_flat packageCache :
  flat packageCache →
  ∀ fuel deps sols,
    named deps → (∀ q, is_Some (deps !! q) → sols !! q = None) → size deps < fuel →
    ((∀ q c, deps !! q = Some c → is_Some (last_release packageCache q c)) →
     solveDependenciesWorker fuel packageCache deps sols
     = Some (Some {| SolverResult.pending := ∅;
                     SolverResult.solutions := sols ∪ flat_solution packageCache deps |})) ∧
    ((∃ q c, deps !! q = Some c ∧ last_release packageCache q c = None) →
     solveDependenciesWorker fuel packageCache deps sols = Some None).
Proof.
  intros Hflat. induction fuel as [|fuel IH]; intros deps sols Hnamed Hfresh Hsize; [lia|].
  rewrite solveDependenciesWorker_S.
  destruct (pickDep deps) as [[[name c]|] rest] eqn:Hpick.
  - apply pickDep_Some in Hpick as (_ & Hname & ->).
    destruct (size_delete_lt _ _ _ _ Hname Hsize) as [Hsize' Hpos].
    assert (named (delete name deps)) as Hnamed'.
    { intros q [c' Hq]. apply lookup_delete_Some in Hq as [_ Hq]. apply Hnamed. eauto. }
    assert (∀ sols' q, is_Some (delete name deps !! q) →
              (<[name := sols']> sols) !! q = None) as Hfresh'.
    { intros v q [c' Hq]. apply lookup_delete_Some in Hq as [Hne Hq].
      rewrite lookup_insert_ne by done. apply Hfresh. eauto. }
    assert (sols !! name = None) as Hsolved by (apply Hfresh; eauto).
    assert (∀ e, In e (candidates_for packageCache name c sols) → dependencies e = ∅)
      as Hcands.
    { intros e He. apply candidates_for_In in He as (He & _). by apply (Hflat name). }
    pose proof (last_release_candidates packageCache name c sols Hsolved) as Hlast.
    split.
    + intros Hall.
      destruct (Hall _ _ Hname) as [v Hv].
      rewrite Hlast in Hv.
      destruct (candidates_for packageCache name c sols) as [|e candidates]; [done|].
      simpl in Hv. injection Hv as <-.
      cbn [candidates_loop]. rewrite (Hcands e (or_introl eq_refl)), combineDeps_empty_r.
      destruct (IH (delete name deps) (<[name := version e]> sols) Hnamed'
                  (Hfresh' (version e)) Hsize') as [Hok _].
      rewrite Hok.
      * cbn [SolverResult.pending SolverResult.solutions].
        destruct fuel as [|fuel]; [lia|]. rewrite worker_empty.
        do 3 f_equal. by apply (flat_solution_delete _ _ _ _ c).
      * intros q c' Hq. apply lookup_delete_Some in Hq as [_ Hq]. eauto.
    + intros (q & c' & Hq & Hnone).
      destruct (decide (q = name)) as [->|Hne].
      * rewrite Hname in Hq. injection Hq as <-. rewrite Hlast in Hnone.
        by destruct (candidates_for packageCache name c sols).
      * apply candidates_loop_flat_fail; [done|]. intros v.
        destruct (IH (delete name deps) (<[name := v]> sols) Hnamed' (Hfresh' v) Hsize')
          as [_ Hfail].
        apply Hfail. exists q, c'. split; [|done]. by rewrite lookup_delete_ne.
  - apply pickDep_None in Hpick as [->|Hempty]; [|by destruct (Hnamed _ Hempty)].
    split.
    + intros _. unfold flat_solution. rewrite map_imap_empty, (right_id_L ∅ (∪)). done.
    + intros (q & c' & Hq & _). by rewrite lookup_empty in Hq.
Qed.

Lemma last_release_Some packageCache q c :
  is_Some (last_release packageCache q c) ↔
  ∃ e, In e (packageCache q) ∧ versionSatifiesConstraint (version e) c = true.
Proof.
  unfold last_release.
  set (l := List.filter (λ p, versionSatifiesConstraint (version p) c) (packageCache q)).
  assert ((∃ e, In e (packageCache q) ∧ versionSatifiesConstraint (version e) c = true)
          ↔ ∃ e, In e l) as ->.
  { unfold l. split; intros [e He]; exists e.
    - by apply filter_In.
    - by apply filter_In in He. }
  destruct l as [|x l] using rev_ind.
  - simpl. split; [by intros [? ?]|by intros [? ?]].
  - rewrite rev_app_distr. simpl. split; [|by eauto].
    intros _. exists x. apply in_or_app. right. by left.
Qed.

(** X28: on a cache none of whose releases declares a dependency, with no
    empty name among the root dependencies and more fuel than there are
    roots, [solveDependencies] returns: a solution when every root has a
    release that satisfies its constraint, which gives every root the
    last such release the cache lists, and [undefined] when some root has
    none. *)
Theorem solveDependencies_flat (fuel : nat) (packageCache : IElmPackageCache)
    (deps : gmap string IConstraint) :
  flat packageCache → named deps → size deps < fuel →
  ((∀ q c, deps !! q = Some c →
           ∃ e, In e (packageCache q) ∧ versionSatifiesConstraint (version e) c = true) →
   solveDependencies fuel packageCache deps
   = Some (Some (flat_solution packageCache deps)) ∧
   ∀ q c, deps !! q = Some c →
          flat_solution packageCache deps !! q = last_release packageCache q c) ∧
  ((∃ q c, deps !! q = Some c ∧
           ∀ e, In e (packageCache q) → versionSatifiesConstraint (version e) c = false) →
   solveDependencies fuel packageCache deps = Some None).
Proof.
  intros Hflat Hnamed Hsize.
  destruct (solveDependenciesWorker_flat packageCache Hflat fuel deps ∅ Hnamed)
    as [Hok Hfail]; [by intros; apply lookup_empty|done|].
  unfold solveDependencies. split.
  - intros Hall. split.
    + rewrite Hok.
      * cbn [SolverResult.solutions]. by rewrite (left_id_L ∅ (∪)).
      * intros q c Hq. apply last_release_Some. eauto.
    + intros q c Hq. unfold flat_solution. by rewrite map_lookup_imap, Hq.
  - intros (q & c & Hq & Hnone). rewrite Hfail; [done|].
    exists q, c. split; [done|].
    destruct (last_release packageCache q c) as [v|] eqn:Hv; [|done].
    destruct (proj1 (last_release_Some packageCache q c)) as (e & He & Hsat);
      [rewrite Hv; eauto|].
    rewrite (Hnone e He) in Hsat. done.
Qed.

(** ** The files and the edits of a move *)

Section move_edits.
Import MoveRefactoringHandler.
Context `{C : Collaborators}.

Lemma dom_push u e (changes : gmap string (list TextEdit)) :
  dom (push u e changes) = dom changes.
Proof. unfold push. by rewrite dom_alter_L. Qed.

Lemma dom_push_opt u e (changes : gmap string (list TextEdit)) :
  dom (push_opt u e changes) = dom changes.
Proof. destruct e; [apply dom_push|done]. Qed.

Lemma dom_remove_import_step forest dest m f changes u :
  dom (remove_import_step forest dest m f changes u) = dom changes ∪ {[u]}.
Proof.
  assert (dom (match changes !! u with
               | Some _ => changes
               | None => <[u := []]> changes
               end) = dom changes ∪ {[u]}) as Hd.
  { destruct (changes !! u) eqn:Hu.
    - apply elem_of_dom_2 in Hu. set_solver.
    - rewrite dom_insert_L. set_solver. }
  unfold remove_import_step.
  destruct (getTree forest u); [destruct (truthy (name dest))|]; try done.
  by rewrite dom_push_opt.
Qed.

Lemma dom_add_import_step forest params h d f changes u :
  dom (add_import_step forest params h d f changes u) = dom changes.
Proof.
  unfold add_import_step.
  destruct (bool_decide (u = sourceUri params) && negb h); [done|].
  destruct (getTree forest u); [apply dom_push_opt|done].
Qed.

Lemma has_edit_push_inv changes u0 e0 u e :
  has_edit (push u0 e0 changes) u e → has_edit changes u e ∨ (u = u0 ∧ e = e0).
Proof.
  unfold has_edit, push. intros (l & Hl & He). rewrite lookup_alter in Hl.
  case_decide as Hu; [subst u|by eauto].
  destruct (changes !! u0) as [l0|] eqn:Hl0; simplify_eq/=.
  apply elem_of_app in He as [He|He%list_elem_of_singleton]; eauto.
Qed.

Lemma has_edit_push_opt_inv changes u0 e0 u e :
  has_edit (push_opt u0 e0 changes) u e → has_edit changes u e ∨ (u = u0 ∧ e0 = Some e).
Proof.
  destruct e0 as [e0|]; simpl; [|by auto].
  intros [?|[-> ->]]%has_edit_push_inv; auto.
Qed.

Lemma has_edit_insert_fresh_inv (changes : gmap string (list TextEdit)) u0 u e :
  has_edit (match changes !! u0 with
            | Some _ => changes
            | None => <[u0 := []]> changes
            end) u e →
  has_edit changes u e.
Proof.
  destruct (changes !! u0) eqn:Hu0; [done|].
  intros (l & Hl & He). apply lookup_insert_Some in Hl as [[_ <-]|[_ Hl]].
  - by apply elem_of_nil in He.
  - by exists l.
Qed.

Lemma remove_import_step_inv forest dest m f changes u0 u e :
  has_edit (remove_import_step forest dest m f changes u0) u e →
  has_edit changes u e ∨
  (u = u0 ∧ truthy (name dest) = true ∧
   ∃ refTree, getTree forest u0 = Some refTree ∧
              removeValueFromImport refTree m f = Some e).
Proof.
  unfold remove_import_step.
  destruct (getTree forest u0) as [refTree|]; [destruct (truthy (name dest))|].
  - intros [H|[-> He]]%has_edit_push_opt_inv.
    + left. by apply has_edit_insert_fresh_inv in H.
    + right. eauto.
  - intros H. left. by apply has_edit_insert_fresh_inv in H.
  - intros H. left. by apply has_edit_insert_fresh_inv in H.
Qed.

Lemma add_import_step_inv forest params h d f changes u0 u e :
  has_edit (add_import_step forest params h d f changes u0) u e →
  has_edit changes u e ∨
  (u = u0 ∧ (u0 = sourceUri params → h = true) ∧
   ∃ refTree, getTree forest u0 = Some refTree ∧ addImport refTree d f = Some e).
Proof.
  unfold add_import_step.
  destruct (bool_decide (u0 = sourceUri params) && negb h) eqn:Hskip; [by auto|].
  destruct (getTree forest u0) as [refTree|]; [|by auto].
  intros [H|[-> He]]%has_edit_push_opt_inv; [by auto|].
  right. split; [done|]. split; [|by eauto].
  intros Hsrc. apply andb_false_iff in Hskip as [Hne|Hh].
  - by apply bool_decide_eq_false in Hne.
  - by apply negb_false_iff in Hh.
Qed.

Lemma dom_foldl_remove forest dest m f us : ∀ changes,
  dom (foldl (remove_import_step forest dest m f) changes us)
  = dom changes ∪ list_to_set us.
Proof.
  induction us as [|u us IH]; intros changes; simpl; [set_solver|].
  rewrite IH, dom_remove_import_step. set_solver.
Qed.

Lemma dom_foldl_add forest params h d f us : ∀ changes,
  dom (foldl (add_import_step forest params h d f) changes us) = dom changes.
Proof.
  induction us as [|u us IH]; intros changes; simpl; [done|].
  by rewrite IH, dom_add_import_step.
Qed.

Lemma foldl_has_edit_inv
    (step : gmap string (list TextEdit) → string → gmap string (list TextEdit))
    (Q : string → string → TextEdit → Prop) us u e :
  (∀ changes u0, has_edit (step changes u0) u e → has_edit changes u e ∨ Q u0 u e) →
  ∀ changes, has_edit (foldl step changes us) u e →
             has_edit changes u e ∨ ∃ u0, u0 ∈ us ∧ Q u0 u e.
Proof.
  intros Hstep. induction us as [|u0 us IH]; intros changes; simpl; [by auto|].
  intros [H|(u1 & ? & ?)]%IH.
  - apply Hstep in H as [?|?]; [by auto|]. right. exists u0. split; [set_solver|done].
  - right. exists u1. split; [set_solver|done].
Qed.

(** X16: the edit set of a move binds the source file, the destination
    file and every file that holds a reference to the moved declaration,
    and no other file. *)
Theorem staged_changes_files (params : MoveParams) (elmWorkspace : ElmWorkspace)
    (dest : MoveDestination) (sourceTree destinationTree : Tree)
    (tnode : option SyntaxNode) (declaration : SyntaxNode)
    (fname mname dname : string) (u : string) :
  is_Some (staged_changes params elmWorkspace dest sourceTree destinationTree
             tnode declaration fname mname dname !! u) ↔
  u = sourceUri params ∨ u = uri dest ∨
  ∃ ref, ref ∈ references_of params elmWorkspace declaration ∧ ref_uri ref = u.
Proof.
  rewrite <- elem_of_dom. unfold staged_changes.
  rewrite dom_foldl_add.
  assert (dom (foldl (remove_import_step (getForest elmWorkspace) dest mname fname)
                 (push_opt (sourceUri params) (unexposedValueInModule sourceTree fname)
                    (push (uri dest) (insertion destinationTree tnode declaration)
                       (push (sourceUri params) (removal tnode declaration)
                          (<[uri dest:=[]]> (<[sourceUri params:=[]]> ∅)))))
                 (referenceUris (references_of params elmWorkspace declaration)))
          = {[sourceUri params; uri dest]}
            ∪ list_to_set (referenceUris (references_of params elmWorkspace declaration)))
    as Hdom.
  { rewrite dom_foldl_remove, dom_push_opt, !dom_push, !dom_insert_L, dom_empty_L.
    set_solver. }
  destruct (0 <? length _)%nat; rewrite ?dom_push_opt, Hdom;
    rewrite elem_of_union, elem_of_list_to_set, referenceUris_elem; set_solver.
Qed.

(** X17: the edit set of a move holds nothing but the edits of the move:
    for the source the removal and the unexposing edit, for the
    destination the insertion and, when a file other than the destination
    holds a reference, the exposing edit, and for a file that holds a
    reference the edit that removes the old import and, unless it is the
    destination or the source without a remaining reference, the edit that
    adds the new one. *)
Theorem staged_changes_only (params : MoveParams) (elmWorkspace : ElmWorkspace)
    (dest : MoveDestination) (sourceTree destinationTree : Tree)
    (tnode : option SyntaxNode) (declaration : SyntaxNode)
    (fname mname dname : string) (u : string) (e : TextEdit) :
  has_edit (staged_changes params elmWorkspace dest sourceTree destinationTree
              tnode declaration fname mname dname) u e →
  edit_of_move params elmWorkspace dest sourceTree destinationTree
    tnode declaration fname mname dname u e.
Proof.
  unfold staged_changes, edit_of_move. cbv zeta.
  intros [H|(u0 & Hu0 & -> & Hsrc & refTree & Ht & He)]%(foldl_has_edit_inv _
    (λ u0 u e,
       u = u0 ∧
       (u0 = sourceUri params →
        sourceHasReference params (references_of params elmWorkspace declaration)
          tnode declaration = true) ∧
       ∃ refTree, getTree (getForest elmWorkspace) u0 = Some refTree ∧
                  addImport refTree dname fname = Some e));
    [| |intros; by apply add_import_step_inv].
  2:{ apply remainingUris_elem in Hu0 as [(ref & Href & Huri) Hne].
      right; right. exists ref, refTree.
      split; [done|]. split; [done|]. split; [done|]. right. auto. }
  assert (has_edit
            (foldl (remove_import_step (getForest elmWorkspace) dest mname fname)
               (push_opt (sourceUri params) (unexposedValueInModule sourceTree fname)
                  (push (uri dest) (insertion destinationTree tnode declaration)
                     (push (sourceUri params) (removal tnode declaration)
                        (<[uri dest:=[]]> (<[sourceUri params:=[]]> ∅)))))
               (referenceUris (references_of params elmWorkspace declaration))) u e ∨
          (u = uri dest ∧ exposeValueInModule destinationTree fname = Some e ∧
           remainingUris dest (references_of params elmWorkspace declaration) ≠ []))
    as [H4|(-> & He & Hrem)].
  { destruct (0 <? length _)%nat eqn:Hlen; [|by left].
    apply has_edit_push_opt_inv in H as [?|[-> ?]]; [by left|].
    right. split; [done|]. split; [done|].
    apply Nat.ltb_lt in Hlen. intros Hnil. rewrite Hnil in Hlen. simpl in Hlen. lia. }
  2:{ right; left. auto. }
  apply (foldl_has_edit_inv _
    (λ u0 u e,
       u = u0 ∧ truthy (name dest) = true ∧
       ∃ refTree, getTree (getForest elmWorkspace) u0 = Some refTree ∧
                  removeValueFromImport refTree mname fname = Some e))
    in H4 as [H3|(u0 & Hu0 & -> & Hname & refTree & Ht & He)];
    [| |intros; by apply remove_import_step_inv].
  2:{ apply referenceUris_elem in Hu0 as (ref & Href & Huri).
      right; right. exists ref, refTree. repeat split; try done.
      left. split; [done|]. intros Hn. by rewrite Hn in Hname. }
  apply has_edit_push_opt_inv in H3 as [H2|[-> ?]]; [|by left; auto].
  apply has_edit_push_inv in H2 as [H1|[-> ->]]; [|by right; left; auto].
  apply has_edit_push_inv in H1 as [H0|[-> ->]]; [|by left; auto].
  destruct H0 as (l & Hl & He).
  apply lookup_insert_Some in Hl as [[_ <-]|[_ Hl]]; [by apply elem_of_nil in He|].
  apply lookup_insert_Some in Hl as [[_ <-]|[_ Hl]]; [by apply elem_of_nil in He|].
  by rewrite lookup_empty in Hl.
Qed.

(** X18: [handleMoveRequest] makes no call of [applyEdit] when the request
    names no destination, when the forest has no tree for the source or
    for the destination, when the node under the cursor is neither the
    name of a type annotation nor in a value declaration, and when the
    source or the destination has no module name. *)
Theorem handleMoveRequest_no_edit (params : MoveParams) (elmWorkspace : ElmWorkspace) :
  let forest := getForest elmWorkspace in
  (destination params = None ∨
   getTree forest (sourceUri params) = None ∨
   (∃ dest, destination params = Some dest ∧ getTree forest (uri dest) = None) ∨
   (∃ sourceTree,
      getTree forest (sourceUri params) = Some sourceTree ∧
      let nodeAtPosition :=
        getNamedDescendantForPosition (rootNode sourceTree)
          (range_start (params_range params)) in
      (isTypeNode nodeAtPosition = false ∧ isDeclarationNode nodeAtPosition = false) ∨
      getModuleNameNode sourceTree = None) ∨
   (∃ dest destinationTree,
      destination params = Some dest ∧
      getTree forest (uri dest) = Some destinationTree ∧
      getModuleNameNode destinationTree = None)) →
  handleMoveRequest params elmWorkspace = [].
Proof.
  intros forest. unfold handleMoveRequest. fold forest.
  destruct (destination params) as [dest|]; [|done].
  destruct (getTree forest (sourceUri params)) as [sourceTree|] eqn:Hs; [|done].
  destruct (getTree forest (uri dest)) as [destinationTree|] eqn:Hd; [|done].
  cbv zeta.
  intros [?|[?|[(d & [= <-] & Hnone)|[(st & [= <-] & Hnode)|(d & dt & [= <-] & Hdt & Hm)]]]];
    try done.
  - by rewrite Hd in Hnone.
  - destruct Hnode as [[Hty Hdecl]|Hm].
    + unfold declarationNode. by rewrite Hty, Hdecl.
    + rewrite Hm. simpl. by repeat case_match.
  - rewrite Hd in Hdt. injection Hdt as <-. rewrite Hm. simpl. by repeat case_match.
Qed.

End move_edits.

(** ** The nodes of a move *)

Section move_nodes.
Import MoveRefactoringHandler.
Context `{C : Collaborators}.

(** X19: the type node of a move, when there is one, is a type annotation
    next to the declaration that moves: the named sibling before it when
    the cursor is in a value declaration, and otherwise the parent of the
    node under the cursor, the declaration being the named sibling after
    it.  In the first case the declaration is a value declaration. *)
Theorem typeNode_annotation (nodeAtPosition t : SyntaxNode) :
  typeNode nodeAtPosition = Some t →
  node_type t = "type_annotation" ∧
  ((isDeclarationNode nodeAtPosition = true ∧
    ∃ d, declarationNode nodeAtPosition = Some d ∧
         node_type d = "value_declaration" ∧ previousNamedSibling d = Some t) ∨
   (isDeclarationNode nodeAtPosition = false ∧
    parent nodeAtPosition = Some t ∧
    declarationNode nodeAtPosition = nextNamedSibling t)).
Proof.
  unfold typeNode, declarationNode.
  destruct (isDeclarationNode nodeAtPosition) eqn:Hdecl.
  - case_bool_decide as Hsib; [|done]. intros Ht. rewrite Ht in Hsib.
    injection Hsib as Hty. split; [done|]. left. split; [done|].
    unfold isDeclarationNode in Hdecl. apply bool_decide_eq_true in Hdecl.
    destruct (parent nodeAtPosition ≫= parent) as [d|] eqn:Hd; [|done].
    injection Hdecl as Hdty. exists d. done.
  - destruct (isTypeNode nodeAtPosition) eqn:Hty; [|done].
    unfold isTypeNode in Hty. apply bool_decide_eq_true in Hty.
    intros Ht. rewrite Ht in Hty. injection Hty as Hty.
    split; [done|]. right. by rewrite Ht.
Qed.

End move_nodes.

(** ** The name and the path of a destination *)












Section move_names.
Import MoveRefactoringHandler.
Context `{C : Collaborators}.



End move_names.

(** ** What a hover holds, and what the provider raises *)

Section hover_results.
Import HoverProvider.
Context `{C : Collaborators}.

(** The hint of a definition comes from [createHintFromFunctionParameter]
    for the three kinds of parameters and from [createHint] otherwise. *)
Lemma createMarkdownHoverFromDefinition_Some d :
  ∃ hint,
    (hint = createHintFromFunctionParameter (node d) ∨ hint = createHint (node d)) ∧
    createMarkdownHoverFromDefinition (Some d)
    = match hint with
      | normal (Some v) =>
          if truthy v
          then normal (Some {| contents := {| kind := Markdown; value := v |} |})
          else normal None
      | normal None => normal None
      | throw e => throw e
      end.
Proof.
  unfold createMarkdownHoverFromDefinition.
  destruct (bool_decide (nodeType d = "FunctionParameter")
            || bool_decide (nodeType d = "AnonymousFunctionParameter")
            || bool_decide (nodeType d = "CasePattern")).
  - exists (createHintFromFunctionParameter (node d)). split; [by left|].
    by destruct (createHintFromFunctionParameter (node d)) as [[v|]|e].
  - exists (createHint (node d)). split; [by right|].
    by destruct (createHint (node d)) as [[v|]|e].
Qed.

(** X22: a hover that [handleHoverRequest] returns is Markdown and its text
    is not empty: it is the hint of the definition the node resolves to,
    or, when no definition resolves, the description of the empty type
    whose name is the text of the node. *)
Theorem handleHoverRequest_hover (params : TextDocumentPositionParams)
    (elmWorkspace : IElmWorkspace) (h : Hover) :
  (handleHoverRequest params elmWorkspace).2 = normal (Some h) →
  kind (contents h) = Markdown ∧ value (contents h) ≠ EmptyString ∧
  ∃ container nodeAtPosition,
    getByUri (getForest elmWorkspace) (textDocument_uri params) = Some container ∧
    getNamedDescendantForPosition (rootNode (tree container)) (position params)
    = normal nodeAtPosition ∧
    ((∃ d, findDefinitionNodeByReferencingNode nodeAtPosition (textDocument_uri params)
             (tree container) (getImports elmWorkspace) = normal (Some d) ∧
           (createHintFromFunctionParameter (node d) = normal (Some (value (contents h))) ∨
            createHint (node d) = normal (Some (value (contents h))))) ∨
     (findDefinitionNodeByReferencingNode nodeAtPosition (textDocument_uri params)
        (tree container) (getImports elmWorkspace) = normal None ∧
      ∃ a, In a getEmptyTypes ∧ empty_type_name a = text nodeAtPosition ∧
           markdown a = value (contents h))).
Proof.
  unfold handleHoverRequest. cbn [snd].
  destruct (getByUri (getForest elmWorkspace) (textDocument_uri params))
    as [container|] eqn:Hc; [|done].
  destruct (getNamedDescendantForPosition (rootNode (tree container)) (position params))
    as [n|e] eqn:Hn; [|done].
  cbn [mbind completion_bind].
  destruct (findDefinitionNodeByReferencingNode n (textDocument_uri params)
              (tree container) (getImports elmWorkspace)) as [[d|]|e] eqn:Hd;
    cbn [mbind completion_bind]; [| |done].
  - destruct (createMarkdownHoverFromDefinition_Some d) as (hint & Hhint & ->).
    destruct hint as [[v|]|e] eqn:Hv; try done.
    destruct (truthy v) eqn:Htruthy; [|done].
    intros [= <-]. simpl. split; [done|]. split.
    + intros ->. done.
    + exists container, n. repeat split; try done. left. exists d. split; [done|].
      destruct Hhint as [<-|<-]; auto.
  - destruct (specialMatch n) as [a|] eqn:Ha; [|done].
    intros [= <-]. simpl.
    apply find_some in Ha as [Hin Hname]. apply bool_decide_eq_true in Hname.
    split; [done|]. split.
    + destruct Hin as [<-|[]]. done.
    + exists container, n. repeat split; try done. right. split; [done|]. by exists a.
Qed.

(** X23: when the node at the position resolves to no definition and its
    text is [List], the hover is the Markdown description of lists that
    [getEmptyTypes] holds. *)
Theorem handleHoverRequest_List (params : TextDocumentPositionParams)
    (elmWorkspace : IElmWorkspace) (container : ITreeContainer)
    (nodeAtPosition : SyntaxNode) :
  getByUri (getForest elmWorkspace) (textDocument_uri params) = Some container →
  getNamedDescendantForPosition (rootNode (tree container)) (position params)
  = normal nodeAtPosition →
  findDefinitionNodeByReferencingNode nodeAtPosition (textDocument_uri params)
    (tree container) (getImports elmWorkspace) = normal None →
  text nodeAtPosition = "List" →
  ∃ a, getEmptyTypes = [a] ∧ empty_type_name a = "List" ∧
       (handleHoverRequest params elmWorkspace).2
       = normal (Some {| contents := {| kind := Markdown; value := markdown a |} |}).
Proof.
  intros Hc Hn Hd Htext. eexists. split; [reflexivity|]. split; [reflexivity|].
  unfold handleHoverRequest. cbn [snd]. rewrite Hc, Hn.
  cbn [mbind completion_bind]. rewrite Hd.
  unfold specialMatch. rewrite Htext. reflexivity.
Qed.

(** X24: [handleHoverRequest] raises nothing of its own: it raises an
    error exactly when the first of the analyses to raise, among the search
    of the node, the search of the definition and the making of the hint,
    raises that error. *)
Theorem handleHoverRequest_raises (params : TextDocumentPositionParams)
    (elmWorkspace : IElmWorkspace) (e : string) :
  (handleHoverRequest params elmWorkspace).2 = throw e ↔
  ∃ container,
    getByUri (getForest elmWorkspace) (textDocument_uri params) = Some container ∧
    (getNamedDescendantForPosition (rootNode (tree container)) (position params) = throw e ∨
     ∃ nodeAtPosition,
       getNamedDescendantForPosition (rootNode (tree container)) (position params)
       = normal nodeAtPosition ∧
       (findDefinitionNodeByReferencingNode nodeAtPosition (textDocument_uri params)
          (tree container) (getImports elmWorkspace) = throw e ∨
        ∃ d,
          findDefinitionNodeByReferencingNode nodeAtPosition (textDocument_uri params)
            (tree container) (getImports elmWorkspace) = normal (Some d) ∧
          (if bool_decide (nodeType d = "FunctionParameter")
              || bool_decide (nodeType d = "AnonymousFunctionParameter")
              || bool_decide (nodeType d = "CasePattern")
           then createHintFromFunctionParameter (node d)
           else createHint (node d)) = throw e)).
Proof.
  unfold handleHoverRequest. cbn [snd].
  destruct (getByUri (getForest elmWorkspace) (textDocument_uri params))
    as [container|] eqn:Hc.
  2:{ split; [done|]. by intros (? & ? & _). }
  destruct (getNamedDescendantForPosition (rootNode (tree container)) (position params))
    as [n|e'] eqn:Hn; cbn [mbind completion_bind].
  2:{ split.
      - intros [= ->]. exists container. split; [done|]. by left.
      - intros (c' & [= <-] & H). rewrite Hn in H.
        by destruct H as [[= ->]|(n' & ? & _)]. }
  destruct (findDefinitionNodeByReferencingNode n (textDocument_uri params)
              (tree container) (getImports elmWorkspace)) as [[d|]|e'] eqn:Hd;
    cbn [mbind completion_bind].
  - unfold createMarkdownHoverFromDefinition.
    destruct (if bool_decide (nodeType d = "FunctionParameter")
                 || bool_decide (nodeType d = "AnonymousFunctionParameter")
                 || bool_decide (nodeType d = "CasePattern")
              then createHintFromFunctionParameter (node d)
              else createHint (node d)) as [[v|]|e'] eqn:Hhint; cbn [mbind completion_bind].
    + split; [by destruct (truthy v)|].
      intros (c' & [= <-] & H). rewrite Hn in H.
      destruct H as [?|(n' & [= <-] & H)]; [done|]. rewrite Hd in H.
      destruct H as [?|(d' & [= <-] & Hh)]; [done|]. by rewrite Hhint in Hh.
    + split; [done|].
      intros (c' & [= <-] & H). rewrite Hn in H.
      destruct H as [?|(n' & [= <-] & H)]; [done|]. rewrite Hd in H.
      destruct H as [?|(d' & [= <-] & Hh)]; [done|]. by rewrite Hhint in Hh.
    + split.
      * intros [= ->]. exists container. split; [done|]. right. exists n. split; [done|].
        right. exists d. split; [done|]. done.
      * intros (c' & [= <-] & H). rewrite Hn in H.
        destruct H as [?|(n' & [= <-] & H)]; [done|]. rewrite Hd in H.
        destruct H as [?|(d' & [= <-] & Hh)]; [done|].
        rewrite Hhint in Hh. by injection Hh as ->.
  - split; [by destruct (specialMatch n)|].
    intros (c' & [= <-] & H). rewrite Hn in H.
    destruct H as [?|(n' & [= <-] & H)]; [done|]. rewrite Hd in H.
    by destruct H as [?|(d' & ? & _)].
  - split.
    + intros [= ->]. exists container. split; [done|]. right. exists n. split; [done|].
      by left.
    + intros (c' & [= <-] & H). rewrite Hn in H.
      destruct H as [?|(n' & [= <-] & H)]; [done|]. rewrite Hd in H.
      destruct H as [[= ->]|(d' & ? & _)]; done.
Qed.

End hover_results.

(** ** Running a command *)

Section exec_results.
Context `{E : Execa}.

(** X25: [execCmd] runs the command of the user, or the built-in one with
    [preferLocal] when the user gave none.  It resolves with the result of
    the run when there is one.  When the run fails with [ENOENT], it shows
    one error message, never empty, and rejects with "Executable not
    found"; any other failure is passed on and nothing is shown.  In no
    case does the outcome depend on [showMessageOnError]. *)
Theorem execCmd_outcome (cmdFromUser cmdStatic : string) (options : IExecCmdOptions)
    (cwd : string) (input : option string) :
  let cmd := if bool_decide (cmdFromUser = EmptyString) then cmdStatic else cmdFromUser in
  let run :=
    execa cmd (cmdArguments options)
      {| cwd := cwd; input := input;
         preferLocal := bool_decide (cmdFromUser = EmptyString);
         stripFinalNewline := false |} in
  let outcome := execCmd cmdFromUser cmdStatic options cwd input in
  (∀ result, run = inl result → outcome = ([], resolved result)) ∧
  (∀ error, run = inr error → errno error ≠ Some "ENOENT" →
            outcome = ([], rejected (reason_error error))) ∧
  (∀ error, run = inr error → errno error = Some "ENOENT" →
            ∃ message,
              outcome = ([message], rejected (reason_text "Executable not found")) ∧
              message ≠ EmptyString ∧
              (∀ t, notFoundText options = Some t → t ≠ EmptyString → message = t)) ∧
  (∀ flag,
     execCmd cmdFromUser cmdStatic
       {| cmdArguments := cmdArguments options; showMessageOnError := flag;
          notFoundText := notFoundText options |} cwd input
     = outcome).
Proof.
  intros cmd run outcome. unfold outcome, execCmd. fold cmd. fold run.
  split; [|split; [|split]].
  - by intros result ->.
  - intros error -> Hno. by rewrite bool_decide_eq_false_2.
  - intros error -> Hyes. rewrite bool_decide_eq_true_2 by done.
    eexists. split; [reflexivity|]. split.
    + destruct (notFoundText options) as [t|]; [|done].
      destruct (truthy t) eqn:Ht; [|done].
      intros ->. done.
    + intros t -> Ht. unfold truthy. by rewrite bool_decide_eq_false_2.
  - intros flag. reflexivity.
Qed.

(** X26: [getElmVersion] runs [elm --version], with the path of the
    settings when there is one.  When the run gives a result, it resolves
    with the trimmed output, logs one line that quotes it and shows
    nothing.  When the run fails with an error whose [errno] is the text
    "ENOENT", the condition [execCmd] tests, it shows the hint on the
    installation, logs nothing and rejects with "Executable not found";
    any other failure, an [errno] that is a number among them, is passed
    on, with nothing shown and nothing logged. *)
Theorem getElmVersion_outcome (settings : IClientSettings) (elmWorkspaceFolder : URI) :
  let cmd :=
    if bool_decide (elmPath settings = EmptyString) then "elm" else elmPath settings in
  let run :=
    execa cmd (Some ["--version"])
      {| cwd := URI_fsPath elmWorkspaceFolder; input := None;
         preferLocal := bool_decide (elmPath settings = EmptyString);
         stripFinalNewline := false |} in
  let outcome := getElmVersion settings elmWorkspaceFolder in
  (∀ result, run = inl result →
     outcome
     = ([],
        [String.app "Elm version " (String.app (trim (stdout result)) " detected.")],
        resolved (trim (stdout result)))) ∧
  (∀ error, run = inr error → errno error = Some "ENOENT" →
     outcome
     = (["Elm binary not found, did you install and setup the path to your binary?"],
        [], rejected (reason_text "Executable not found"))) ∧
  (∀ error, run = inr error → errno error ≠ Some "ENOENT" →
     outcome = ([], [], rejected (reason_error error))).
Proof.
  intros cmd run outcome. unfold outcome, getElmVersion, execCmd.
  cbn [cmdArguments notFoundText]. fold cmd. fold run.
  split; [|split].
  - by intros result ->.
  - intros error -> Hyes. by rewrite bool_decide_eq_true_2.
  - intros error -> Hno. by rewrite bool_decide_eq_false_2.
Qed.

End exec_results.

(** ** The further statements at concrete inputs *)

(** X2, witness: [1.0.0], [1.2.0] and [2.0.0]. *)
Lemma versionCompare_transitive_witness :
  wf_version v100 = true ∧ wf_version v120 = true ∧ wf_version v200 = true ∧
  versionCompare v100 v120 = (-1)%Z ∧ versionCompare v120 v200 ≠ 1%Z ∧
  versionCompare v100 v200 = (-1)%Z.
Proof.
  split; [reflexivity|]. split; [reflexivity|]. split; [reflexivity|].
  split; [reflexivity|]. split; [vm_compute; lia|].
  apply (proj1 (proj2 (versionCompare_transitive v100 v120 v200 eq_refl eq_refl eq_refl)));
    [reflexivity | vm_compute; lia].
Defined.

(** X3, witness: [1.2.0] satisfies [1.0.0 <= v < 2.0.0]. *)
Lemma versionSatifiesConstraint_bounds_ordered_witness :
  wf_version v120 = true ∧ wf_constraint c_100_200 = true ∧
  versionSatifiesConstraint v120 c_100_200 = true ∧
  versionCompare (lower c_100_200) (upper c_100_200) ≠ 1%Z ∧
  (lowerOperator c_100_200 = OpLt ∨ upperOperator c_100_200 = OpLt →
   versionCompare (lower c_100_200) (upper c_100_200) = (-1)%Z).
Proof.
  split; [reflexivity|]. split; [reflexivity|]. split; [reflexivity|].
  apply (versionSatifiesConstraint_bounds_ordered v120 c_100_200); reflexivity.
Defined.

(** X4, witness: the intersection of [1.0.0 <= v < 2.0.0] and
    [1.2.0 <= v <= 3.0.0]. *)
Lemma constraintIntersect_result_ordered_witness :
  constraintIntersect c_100_200 c_120_300 = Some c_120_200 ∧
  versionCompare (lower c_120_200) (upper c_120_200) = (-1)%Z ∧
  (lower c_120_200 = lower c_100_200 ∨ lower c_120_200 = lower c_120_300) ∧
  (upper c_120_200 = upper c_100_200 ∨ upper c_120_200 = upper c_120_300).
Proof.
  split; [reflexivity|].
  apply (constraintIntersect_result_ordered c_100_200 c_120_300 c_120_200); reflexivity.
Defined.

(** X6, witness: the text [1.0.0 <= v < 2.0.0]. *)
Lemma parseContraint_reads_constraint_text_witness :
  version_text "1.0.0" = true ∧ version_text "2.0.0" = true ∧
  parseContraint
    (constraint_text {| lower := parseVersion "1.0.0"; upper := parseVersion "2.0.0";
                        lowerOperator := OpLe; upperOperator := OpLt |})
  = normal {| lower := parseVersion "1.0.0"; upper := parseVersion "2.0.0";
              lowerOperator := OpLe; upperOperator := OpLt |}.
Proof.
  split; [reflexivity|]. split; [reflexivity|].
  apply (parseContraint_reads_constraint_text "1.0.0" "2.0.0" OpLe OpLt); reflexivity.
Defined.

(** X7, witness: the text [1.0.0 <= v < 2.0.0] again. *)
Lemma parseContraint_result_witness :
  parseContraint "1.0.0 <= v < 2.0.0" = normal c_100_200 ∧
  In (constraint_text c_100_200) (regexp_lines "1.0.0 <= v < 2.0.0") ∧
  lower c_100_200 = parseVersion (IVersion.string (lower c_100_200)) ∧
  upper c_100_200 = parseVersion (IVersion.string (upper c_100_200)) ∧
  numeric (lower c_100_200) ∧ numeric (upper c_100_200) ∧
  fields_agree (lower c_100_200) ∧ fields_agree (upper c_100_200) ∧
  (wf_constraint c_100_200 = true ↔
   ∀ v i, v ∈ bounds c_100_200 → (i < 3)%nat →
          (number_value (component i v) ≤ MAX_SAFE_INTEGER)%Z).
Proof.
  split; [reflexivity|].
  apply (parseContraint_result "1.0.0 <= v < 2.0.0" c_100_200); reflexivity.
Defined.

(** X12, witness: the worker on the solver scenario. *)
Lemma solveDependenciesWorker_keeps_solved_witness :
  solveDependenciesWorker 10 scenario_cache scenario_root ∅ = Some (Some scenario_result) ∧
  (∀ q v, (∅ : gmap string IVersion) !! q = Some v →
          ∃ v', SolverResult.solutions scenario_result !! q = Some v' ∧
                IVersion.string v' = IVersion.string v) ∧
  (∀ p v, SolverResult.solutions scenario_result !! p = Some v →
          (∅ : gmap string IVersion) !! p = Some v ∨
          ∃ e, In e (scenario_cache p) ∧ version e = v) ∧
  (pickDep (SolverResult.pending scenario_result)).1 = None.
Proof.
  split; [vm_compute; reflexivity|].
  apply (solveDependenciesWorker_keeps_solved 10 scenario_cache scenario_root ∅
           scenario_result).
  vm_compute; reflexivity.
Defined.

(** X13, witness: the solver scenario; [R] has no release and is not in
    the solution. *)
Lemma solveDependencies_from_cache_witness :
  solveDependencies 10 scenario_cache scenario_root
  = Some (Some {[ "P" := v140; "Q" := v210 ]}) ∧
  (∀ p v, ({[ "P" := v140; "Q" := v210 ]} : gmap string IVersion) !! p = Some v →
          ∃ e, In e (scenario_cache p) ∧ version e = v) ∧
  (∀ p, scenario_cache p = [] →
        ({[ "P" := v140; "Q" := v210 ]} : gmap string IVersion) !! p = None).
Proof.
  split; [vm_compute; reflexivity|].
  apply (solveDependencies_from_cache 10 scenario_cache scenario_root).
  vm_compute; reflexivity.
Defined.

(** X14, witness: the root [P] of the solver scenario. *)
Lemma solveDependencies_covers_roots_witness :
  named scenario_root ∧ named_cache scenario_cache ∧
  solveDependencies 10 scenario_cache scenario_root
  = Some (Some {[ "P" := v140; "Q" := v210 ]}) ∧
  is_Some (scenario_root !! "P") ∧
  (∃ v e, ({[ "P" := v140; "Q" := v210 ]} : gmap string IVersion) !! "P" = Some v ∧
          In e (scenario_cache "P") ∧ version e = v) ∧
  scenario_cache "P" ≠ [].
Proof.
  assert (named scenario_root) as Hroot.
  { intros q [c Hq]. unfold scenario_root in Hq.
    apply lookup_singleton_Some in Hq as [<- _]. discriminate. }
  assert (named_cache scenario_cache) as Hcache.
  { intros n p Hin q [c Hq]. unfold scenario_cache in Hin.
    repeat case_bool_decide; simpl in Hin;
      repeat match goal with H : _ ∨ _ |- _ => destruct H as [<-|H] end;
      try done; simpl in Hq; rewrite ?lookup_empty in Hq; try done;
      apply lookup_singleton_Some in Hq as [<- _]; discriminate. }
  assert (solveDependencies 10 scenario_cache scenario_root
          = Some (Some {[ "P" := v140; "Q" := v210 ]})) as Hrun
    by (vm_compute; reflexivity).
  assert (is_Some (scenario_root !! "P")) as HP by (vm_compute; eauto).
  split; [exact Hroot|]. split; [exact Hcache|]. split; [exact Hrun|]. split; [exact HP|].
  exact (solveDependencies_covers_roots 10 scenario_cache scenario_root _ "P"
           Hroot Hcache Hrun HP).
Defined.

(** X17, witness: the removal staged for [A.elm] when [f] moves to
    [B.elm]. *)
Lemma staged_changes_only_witness :
  has_edit staged_f "file:///src/A.elm"
    (@MoveRefactoringHandler.removal flat_tree_sitter None "f = 1") ∧
  @edit_of_move flat_tree_sitter plain_refactorings
    move_f windows_workspace to_B "A" "B" None "f = 1" "f" "A" "B"
    "file:///src/A.elm"
    (@MoveRefactoringHandler.removal flat_tree_sitter None "f = 1").
Proof.
  assert (has_edit staged_f "file:///src/A.elm"
            (@MoveRefactoringHandler.removal flat_tree_sitter None "f = 1")) as Hedit.
  { exists [@MoveRefactoringHandler.removal flat_tree_sitter None "f = 1"].
    split; [vm_compute; reflexivity | apply list_elem_of_here]. }
  split; [exact Hedit|].
  exact (@staged_changes_only flat_tree_sitter plain_refactorings
           move_f windows_workspace to_B "A" "B" None "f = 1" "f" "A" "B" _ _ Hedit).
Defined.

(** X18, witness: a request that names no destination. *)
Lemma handleMoveRequest_no_edit_witness :
  MoveRefactoringHandler.destination move_nowhere = None ∧
  @MoveRefactoringHandler.handleMoveRequest flat_tree_sitter plain_refactorings
    move_nowhere windows_workspace = [].
Proof.
  split; [reflexivity|].
  apply (@handleMoveRequest_no_edit flat_tree_sitter plain_refactorings
           move_nowhere windows_workspace).
  left. reflexivity.
Defined.

(** X19, witness: the cursor on the name [f] of the annotation
    [f : Int]. *)
Lemma typeNode_annotation_witness :
  @MoveRefactoringHandler.typeNode annotated_tree_sitter "f" = Some "f : Int" ∧
  @node_type annotated_tree_sitter "f : Int" = "type_annotation" ∧
  @MoveRefactoringHandler.declarationNode annotated_tree_sitter "f" = Some "f = 1".
Proof.
  split; [reflexivity|].
  destruct (@typeNode_annotation annotated_tree_sitter "f" "f : Int" eq_refl)
    as [Hty [(Hdecl & _)|(_ & _ & Hnext)]].
  - split; [exact Hty|]. discriminate Hdecl.
  - split; [exact Hty|]. exact Hnext.
Defined.



(** X22, witness: the hover on a node that reads "List". *)
Lemma handleHoverRequest_hover_witness :
  (HoverProvider.handleHoverRequest (hover_at "file:///src/Main.elm") list_workspace).2
  = normal (Some list_hover) ∧
  HoverProvider.kind (HoverProvider.contents list_hover) = HoverProvider.Markdown ∧
  HoverProvider.value (HoverProvider.contents list_hover) ≠ EmptyString.
Proof.
  split; [reflexivity|].
  destruct (@handleHoverRequest_hover flat_tree_sitter blind_analyses
              (hover_at "file:///src/Main.elm") list_workspace list_hover eq_refl)
    as (Hkind & Hvalue & _).
  split; [exact Hkind | exact Hvalue].
Defined.

(** X23, witness: the same hover. *)
Lemma handleHoverRequest_List_witness :
  HoverProvider.getByUri (HoverProvider.getForest list_workspace) "file:///src/Main.elm"
  = Some {| HoverProvider.tree := "List" : @Tree flat_tree_sitter |} ∧
  ∃ a, getEmptyTypes = [a] ∧ empty_type_name a = "List" ∧
       (HoverProvider.handleHoverRequest (hover_at "file:///src/Main.elm") list_workspace).2
       = normal (Some {| HoverProvider.contents :=
                           {| HoverProvider.kind := HoverProvider.Markdown;
                              HoverProvider.value := markdown a |} |}).
Proof.
  split; [reflexivity|].
  apply (@handleHoverRequest_List flat_tree_sitter blind_analyses
           (hover_at "file:///src/Main.elm") list_workspace
           {| HoverProvider.tree := "List" : @Tree flat_tree_sitter |}
           ("List" : @SyntaxNode flat_tree_sitter)); reflexivity.
Defined.

(** X27, witness: [1.0] and [1.0.5]. *)
Lemma versionCompare_same_or_missing_witness :
  JS.split "." (IVersion.string (parseVersion "1.0")) = ["1"; "0"] ∧
  JS.split "." (IVersion.string (parseVersion "1.0.5")) = ["1"; "0"; "5"] ∧
  versionCompare (parseVersion "1.0") (parseVersion "1.0.5") = 0%Z.
Proof.
  split; [reflexivity|]. split; [reflexivity|].
  apply (versionCompare_same_or_missing (parseVersion "1.0") (parseVersion "1.0.5")).
  intros [|[|[|i]]] Hi; [left; reflexivity | left; reflexivity | right; left; reflexivity | lia].
Defined.

(** X28, witness: two roots on a cache of two packages without
    dependencies; [A] gets [1.2.0], listed after [1.0.0]. *)
Lemma solveDependencies_flat_witness :
  flat flat_cache ∧ named flat_root ∧ size flat_root < 3 ∧
  solveDependencies 3 flat_cache flat_root = Some (Some (flat_solution flat_cache flat_root)) ∧
  flat_solution flat_cache flat_root = {[ "A" := v120; "B" := v210 ]}.
Proof.
  assert (flat flat_cache) as Hflat.
  { intros n p Hin. unfold flat_cache in Hin.
    repeat case_bool_decide; simpl in Hin;
      repeat match goal with H : _ ∨ _ |- _ => destruct H as [<-|H] end; done. }
  assert (named flat_root) as Hnamed.
  { intros q [c Hq]. unfold flat_root in Hq.
    apply lookup_insert_Some in Hq as [[<- _]|[_ Hq]]; [discriminate|].
    apply lookup_singleton_Some in Hq as [<- _]. discriminate. }
  assert (size flat_root < 3) as Hsize by (vm_compute; lia).
  split; [exact Hflat|]. split; [exact Hnamed|]. split; [exact Hsize|].
  split; [|vm_compute; reflexivity].
  apply (proj1 (solveDependencies_flat 3 flat_cache flat_root Hflat Hnamed Hsize)).
  intros q c Hq. unfold flat_root in Hq.
  apply lookup_insert_Some in Hq as [[<- <-]|[_ Hq]].
  - exists {| version := v120; dependencies := ∅ |}. split; [right; left|]; reflexivity.
  - apply lookup_singleton_Some in Hq as [<- <-].
    exists {| version := v210; dependencies := ∅ |}. split; [left|]; reflexivity.
Defined.
